(** * aws-ipv4-cost-viewer: the scatter-gather collectors and the coordinator

    A shallow embedding of the Go sources [ec2.go], [eip.go], [lb.go], of
    the network-interface collector ([fetchAllENIs]), of the tag helpers
    ([getNameTagValue]) and of the coordinator of [ui.go].

    - The cloud API, the DNS resolver and the metrics service are an opaque
      [Provider]: one function per outward call, returning [Ok] or [Err].
    - [float64] is Rocq's primitive binary64 [float]; [int] is [Z].
    - Goroutines, channels and the [sync.WaitGroup] are a small machine
      ([Module Sched]): every goroutine body is the list of channel and
      wait-group actions it performs, and [Sched.step] runs one action of the
      goroutine the scheduler picks. *)

From Stdlib Require Import String Ascii List ZArith Lia Bool Arith.
From Stdlib Require Import Floats Permutation Morphisms.
From AAC_tactics Require Import AAC.
From AAC_tactics Require Instances.
Import Instances.Lists.
Import ListNotations.

Open Scope string_scope.
Open Scope list_scope.

Set Implicit Arguments.
Set Warnings "-inexact-float,-register-all".

(** ** Values shared by all files *)

(** [err.Error()]: an error is the text it prints. *)
Definition error := string.

Inductive result (A : Type) : Type :=
| Ok (a : A)
| Err (e : error).
Arguments Ok {A} a.
Arguments Err {A} e.

(** [aws.ToString]: the empty string for a nil pointer. *)
Definition ToString (p : option string) : string :=
  match p with Some s => s | None => "" end.

(** [strings.Join]. *)
Definition Join (elems : list string) (sep : string) : string :=
  String.concat sep elems.

(** [fmt.Errorf(format)] without arguments, for a text free of '%' (which
    [fmt] would read as a verb): the error prints as [format]. *)
Definition Errorf0 (format : string) : error := format.

(** [float64(n)] for a slice length. *)
Definition float64_of_len (n : nat) : float :=
  PrimFloat.of_uint63 (Uint63.of_Z (Z.of_nat n)).

Definition FlatFeePerPublicIP : float := 3.65%float.

(** ** The AWS SDK types, with the fields the program reads.
    A pointer field the code tests against nil is an [option]; one it
    dereferences without a test is the pointed value. *)

Module types.

Record Region := { RegionName : string }.

Record Tag := { Key : string; Value : string }.

Module Instance.
Record t := {
  InstanceId : string;
  PublicIpAddress : option string;
  Tags : list Tag;
  StateName : string;
  VpcId : string;
  SubnetId : string }.
End Instance.

Module Address.
Record t := {
  InstanceId : option string;
  AssociationId : option string;
  AllocationId : option string;
  NetworkInterfaceId : option string;
  PublicIp : string;
  Tags : list Tag }.
End Address.

Module NatGatewayAddress.
Record t := { AllocationId : option string }.
End NatGatewayAddress.

Module NatGateway.
Record t := {
  NatGatewayId : option string;
  NatGatewayAddresses : list NatGatewayAddress.t }.
End NatGateway.

Module Association.
Record t := { PublicIp : option string }.
End Association.

Module NetworkInterface.
Record t := {
  Association : option Association.t;
  NetworkInterfaceId : string }.
End NetworkInterface.

End types.

Module elbv2types.
Record LoadBalancer := {
  DNSName : string;
  LoadBalancerArn : string;
  Type_ : string }.
Definition LoadBalancerTypeEnumApplication := "application".
Definition LoadBalancerTypeEnumNetwork := "network".
End elbv2types.

Module elbtypes.
Record LoadBalancerDescription := {
  DNSName : string;
  LoadBalancerName : string }.
End elbtypes.

(** ** The inventory, DNS and metrics provider (the outward calls) *)

Record Provider := {
  (* ec2 DescribeInstances in a region: the reservations' instance lists *)
  DescribeInstances : string -> result (list (list types.Instance.t));
  (* ec2 DescribeAddresses in a region, no filter *)
  DescribeAddresses : string -> result (list types.Address.t);
  (* ec2 DescribeAddresses in a region, filter association-id = value *)
  DescribeAddressesByAssociation :
    string -> string -> result (list types.Address.t);
  DescribeNatGateways : string -> result (list types.NatGateway.t);
  DescribeNetworkInterfaces :
    string -> result (list types.NetworkInterface.t);
  (* elbv2 and elb DescribeLoadBalancers in a region *)
  DescribeLoadBalancers : string -> result (list elbv2types.LoadBalancer);
  DescribeClassicLoadBalancers :
    string -> result (list elbtypes.LoadBalancerDescription);
  (* net.LookupIP, addresses already printed with ip.String() *)
  LookupIP : string -> result (list string);
  (* cloudwatch GetMetricData for namespace, metric name, dimension name and
     dimension value: the Values of each MetricDataResult *)
  GetMetricData :
    string -> string -> string -> string -> result (list (list float)) }.

(** ** Tag helpers *)

Fixpoint getTagValue (tags : list types.Tag) (key : string) : string :=
  match tags with
  | [] => ""
  | tag :: rest =>
      if String.eqb (types.Key tag) key then types.Value tag
      else getTagValue rest key
  end.

Definition getNameTagValue (tags : list types.Tag) : string :=
  let nameTag := getTagValue tags "Name" in
  let nameTag :=
    if String.eqb nameTag ""
    then getTagValue tags "aws:cloudformation:stack-name" else nameTag in
  let nameTag :=
    if String.eqb nameTag ""
    then getTagValue tags "aws:autoscaling:groupName" else nameTag in
  nameTag.

(** ** Goroutines, channels and the wait group

    Every collector has the same shape: the calling goroutine launches one
    worker per region ([wg.Add(1); go func(){ defer wg.Done(); ... }()]),
    then either starts a finalizer ([wg.Wait(); close(res); close(err)]) and
    ranges over the results channel and then over the errors channel, or
    (ec2.go) calls [wg.Wait()] itself while the workers append to a slice
    under a mutex.  A worker body is the list of its actions; [step] runs one
    action of one goroutine, and blocks ([None]) exactly where Go blocks. *)

Module Sched.

Section Machine.

Variable R : Type.

Inductive act : Type :=
| SendRes (r : R)              (* resCh <- r *)
| SendErr (e : string)         (* errCh <- e *)
| Append (r : R)               (* mu.Lock(); all = append(all, r); mu.Unlock() *)
| Log (m : string)             (* log.Printf(m) *)
| Go (body : list act).        (* wg.Add(1); go func(){ defer wg.Done(); body }() *)

Definition task := list act.

Inductive discipline : Type :=
| Channels (resCap errCap : nat)   (* make(chan _, resCap), make(chan _, errCap) *)
| Mutex.                           (* no channel: sync.Mutex and wg.Wait() *)

Inductive main_pc := MLaunch | MRangeRes | MRangeErr | MWait | MReturned.

Inductive fin_pc := FIdle | FWait | FCloseRes | FCloseErr | FExited.

Record state := mkState {
  pending : list task;      (* regions the launch loop has not reached yet *)
  threads : list task;      (* running workers, each with its remaining body *)
  wg : Z;                   (* the WaitGroup counter *)
  resBuf : list R;          (* results channel: buffered values *)
  resClosed : nat;          (* ... and how many times it was closed *)
  errBuf : list string;
  errClosed : nat;
  fin : fin_pc;
  main : main_pc;
  all : list R;             (* allEIPs, allENIs, allLBs, allInstances *)
  errors : list string;     (* the errors slice of the caller *)
  logs : list string }.

Definition init (tasks : list task) : state :=
  mkState tasks [] 0 [] 0 [] 0 FIdle MLaunch [] [] [].

Inductive goroutine := GMain | GFinalizer | GWorker (i : nat).

Fixpoint pick {A : Type} (i : nat) (l : list A) : option (list A * A * list A) :=
  match l with
  | [] => None
  | x :: l' =>
      match i with
      | O => Some ([], x, l')
      | S j =>
          match pick j l' with
          | Some (b, y, a) => Some (x :: b, y, a)
          | None => None
          end
      end
  end.

Variable d : discipline.

(** The calling goroutine: the launch loop, then the two [range] loops or
    [wg.Wait()]. *)
Definition step_main (s : state) : option state :=
  match main s with
  | MLaunch =>
      match pending s with
      | t :: rest =>
          Some (mkState rest (threads s ++ [t]) (wg s + 1) (resBuf s)
                  (resClosed s) (errBuf s) (errClosed s) (fin s) MLaunch
                  (all s) (errors s) (logs s))
      | [] =>
          match d with
          | Channels _ _ =>
              Some (mkState [] (threads s) (wg s) (resBuf s) (resClosed s)
                      (errBuf s) (errClosed s) FWait MRangeRes
                      (all s) (errors s) (logs s))
          | Mutex =>
              Some (mkState [] (threads s) (wg s) (resBuf s) (resClosed s)
                      (errBuf s) (errClosed s) (fin s) MWait
                      (all s) (errors s) (logs s))
          end
      end
  | MRangeRes =>
      match resBuf s with
      | r :: rest =>
          Some (mkState (pending s) (threads s) (wg s) rest (resClosed s)
                  (errBuf s) (errClosed s) (fin s) MRangeRes
                  (all s ++ [r]) (errors s) (logs s))
      | [] =>
          if (0 <? resClosed s)%nat
          then Some (mkState (pending s) (threads s) (wg s) [] (resClosed s)
                       (errBuf s) (errClosed s) (fin s) MRangeErr
                       (all s) (errors s) (logs s))
          else None
      end
  | MRangeErr =>
      match errBuf s with
      | e :: rest =>
          Some (mkState (pending s) (threads s) (wg s) (resBuf s) (resClosed s)
                  rest (errClosed s) (fin s) MRangeErr
                  (all s) (errors s ++ [e]) (logs s))
      | [] =>
          if (0 <? errClosed s)%nat
          then Some (mkState (pending s) (threads s) (wg s) (resBuf s)
                       (resClosed s) [] (errClosed s) (fin s) MReturned
                       (all s) (errors s) (logs s))
          else None
      end
  | MWait =>
      if (wg s =? 0)%Z
      then Some (mkState (pending s) (threads s) (wg s) (resBuf s)
                   (resClosed s) (errBuf s) (errClosed s) (fin s) MReturned
                   (all s) (errors s) (logs s))
      else None
  | MReturned => None
  end.

(** The finalizer: [wg.Wait(); close(resCh); close(errCh)]. *)
Definition step_fin (s : state) : option state :=
  match fin s with
  | FIdle => None
  | FWait =>
      if (wg s =? 0)%Z
      then Some (mkState (pending s) (threads s) (wg s) (resBuf s)
                   (resClosed s) (errBuf s) (errClosed s) FCloseRes (main s)
                   (all s) (errors s) (logs s))
      else None
  | FCloseRes =>
      Some (mkState (pending s) (threads s) (wg s) (resBuf s)
              (S (resClosed s)) (errBuf s) (errClosed s) FCloseErr (main s)
              (all s) (errors s) (logs s))
  | FCloseErr =>
      Some (mkState (pending s) (threads s) (wg s) (resBuf s)
              (resClosed s) (errBuf s) (S (errClosed s)) FExited (main s)
              (all s) (errors s) (logs s))
  | FExited => None
  end.

Definition is_nil {A : Type} (l : list A) : bool :=
  match l with [] => true | _ => false end.

Definition ranging_res (s : state) : bool :=
  match main s with MRangeRes => true | _ => false end.

Definition ranging_err (s : state) : bool :=
  match main s with MRangeErr => true | _ => false end.

(** One action of the worker at position [i].  A send enqueues while the
    buffer has room; with no room it completes only by handing the value to
    the caller blocked in the matching [range] (the only way through an
    unbuffered channel); otherwise the worker stays blocked. *)
Definition step_worker (i : nat) (s : state) : option state :=
  match pick i (threads s) with
  | None => None
  | Some (before, [], after) =>
      (* the body is over: the deferred wg.Done() *)
      Some (mkState (pending s) (before ++ after) (wg s - 1) (resBuf s)
              (resClosed s) (errBuf s) (errClosed s) (fin s) (main s)
              (all s) (errors s) (logs s))
  | Some (before, a :: k, after) =>
      match a with
      | SendRes r =>
          match d with
          | Channels rc _ =>
              if (length (resBuf s) <? rc)%nat
              then Some (mkState (pending s) (before ++ k :: after) (wg s)
                           (resBuf s ++ [r]) (resClosed s) (errBuf s)
                           (errClosed s) (fin s) (main s)
                           (all s) (errors s) (logs s))
              else if ranging_res s && is_nil (resBuf s)
              then Some (mkState (pending s) (before ++ k :: after) (wg s)
                           (resBuf s) (resClosed s) (errBuf s)
                           (errClosed s) (fin s) (main s)
                           (all s ++ [r]) (errors s) (logs s))
              else None
          | Mutex => None
          end
      | SendErr e =>
          match d with
          | Channels _ ec =>
              if (length (errBuf s) <? ec)%nat
              then Some (mkState (pending s) (before ++ k :: after) (wg s)
                           (resBuf s) (resClosed s) (errBuf s ++ [e])
                           (errClosed s) (fin s) (main s)
                           (all s) (errors s) (logs s))
              else if ranging_err s && is_nil (errBuf s)
              then Some (mkState (pending s) (before ++ k :: after) (wg s)
                           (resBuf s) (resClosed s) (errBuf s)
                           (errClosed s) (fin s) (main s)
                           (all s) (errors s ++ [e]) (logs s))
              else None
          | Mutex => None
          end
      | Append r =>
          Some (mkState (pending s) (before ++ k :: after) (wg s)
                  (resBuf s) (resClosed s) (errBuf s) (errClosed s)
                  (fin s) (main s) (all s ++ [r]) (errors s) (logs s))
      | Log m =>
          Some (mkState (pending s) (before ++ k :: after) (wg s)
                  (resBuf s) (resClosed s) (errBuf s) (errClosed s)
                  (fin s) (main s) (all s) (errors s) (logs s ++ [m]))
      | Go body =>
          Some (mkState (pending s) (before ++ k :: after ++ [body])
                  (wg s + 1) (resBuf s) (resClosed s) (errBuf s)
                  (errClosed s) (fin s) (main s)
                  (all s) (errors s) (logs s))
      end
  end.

Definition step (g : goroutine) (s : state) : option state :=
  match g with
  | GMain => step_main s
  | GFinalizer => step_fin s
  | GWorker i => step_worker i s
  end.

(** A run under a schedule; a goroutine scheduled while blocked is skipped. *)
Fixpoint run (sched : list goroutine) (s : state) : state :=
  match sched with
  | [] => s
  | g :: rest =>
      match step g s with
      | Some s' => run rest s'
      | None => run rest s
      end
  end.

(** The number of actions a run performs (blocked goroutines skipped). *)
Fixpoint moves (sched : list goroutine) (s : state) : nat :=
  match sched with
  | [] => O
  | g :: rest =>
      match step g s with
      | Some s' => S (moves rest s')
      | None => moves rest s
      end
  end.

Inductive reachable (tasks : list task) : state -> Prop :=
| reach_init : reachable tasks (init tasks)
| reach_step s g s' :
    reachable tasks s -> step g s = Some s' -> reachable tasks s'.

(** What the collector returns once the caller is at its [return]. *)
Definition returned (s : state) : bool :=
  match main s with MReturned => true | _ => false end.

Definition result_of (s : state) : list R * option error :=
  match d with
  | Channels _ _ =>
      match errors s with
      | [] => (all s, None)
      | _ => (all s, Some (Errorf0 (Join (errors s) "; ")))
      end
  | Mutex => (all s, None)
  end.

(** The goroutines that can move: the caller, the finalizer and the workers. *)
Definition goroutines (s : state) : list goroutine :=
  GMain :: GFinalizer :: map GWorker (seq 0 (length (threads s))).

Definition enabled (s : state) : list goroutine :=
  filter (fun g => match step g s with Some _ => true | None => false end)
         (goroutines s).

(** Every goroutine is blocked and the caller has not returned. *)
Definition deadlocked (s : state) : bool :=
  is_nil (enabled s) && negb (returned s).

(** The scheduler that always runs the first goroutine able to move. *)
Fixpoint run_first (fuel : nat) (s : state) : state :=
  match fuel with
  | O => s
  | S n =>
      match enabled s with
      | g :: _ => match step g s with Some s' => run_first n s' | None => s end
      | [] => s
      end
  end.

(** *** What a body still has to deliver, and how many steps it takes *)

Fixpoint act_recs (a : act) : list R :=
  match a with
  | SendRes r => [r]
  | Append r => [r]
  | Go body => flat_map act_recs body
  | _ => []
  end.

Fixpoint act_errs (a : act) : list string :=
  match a with
  | SendErr e => [e]
  | Go body => flat_map act_errs body
  | _ => []
  end.

Fixpoint act_logs (a : act) : list string :=
  match a with
  | Log m => [m]
  | Go body => flat_map act_logs body
  | _ => []
  end.

Fixpoint act_weight (a : act) : nat :=
  match a with
  | SendRes _ | SendErr _ => 2
  | Append _ | Log _ => 1
  | Go body => S (S (list_sum (map act_weight body)))
  end.

Definition task_recs (t : task) : list R := flat_map act_recs t.
Definition task_errs (t : task) : list string := flat_map act_errs t.
Definition task_logs (t : task) : list string := flat_map act_logs t.
Definition task_weight (t : task) : nat := S (list_sum (map act_weight t)).

Definition recs_of (ts : list task) : list R := flat_map task_recs ts.
Definition errs_of (ts : list task) : list string := flat_map task_errs ts.
Definition logs_of (ts : list task) : list string := flat_map task_logs ts.
Definition weight_of (ts : list task) : nat := list_sum (map task_weight ts).

Definition fin_weight (f : fin_pc) : nat :=
  match f with
  | FIdle | FWait => 3 | FCloseRes => 2 | FCloseErr => 1 | FExited => 0
  end.

Definition main_weight (m : main_pc) : nat :=
  match m with
  | MLaunch => 6 | MRangeRes => 2 | MRangeErr | MWait => 1 | MReturned => 0
  end.

Definition measure (s : state) : nat :=
  weight_of (pending s) + length (pending s) + weight_of (threads s)
  + length (resBuf s) + length (errBuf s)
  + fin_weight (fin s) + main_weight (main s).

(** The body, or a goroutine it starts, sends on a channel. *)
Fixpoint act_uses_channels (a : act) : bool :=
  match a with
  | SendRes _ | SendErr _ => true
  | Go body => existsb act_uses_channels body
  | _ => false
  end.

End Machine.

Arguments SendRes {R} r.
Arguments SendErr {R} e.
Arguments Append {R} r.
Arguments Log {R} m.
Arguments Go {R} body.
Arguments init {R} tasks.
Arguments reachable {R} d tasks s.

(** *** Facts about one step, independent of the bodies *)

Section StepFacts.

Variable R : Type.
Variable d : discipline.

Let state := state R.
Let task := task R.

Lemma pick_spec (A : Type) (i : nat) (l : list A) b x a :
  pick i l = Some (b, x, a) -> l = b ++ x :: a /\ length b = i.
Proof.
  revert i b x a; induction l as [|y l IH]; intros [|i] b x a H; simpl in H;
    try discriminate.
  - inversion H; subst; auto.
  - destruct (pick i l) as [[[b' x'] a']|] eqn:E; try discriminate.
    inversion H; subst. destruct (IH _ _ _ _ E) as [-> <-]. auto.
Qed.

Lemma pick_lt (A : Type) (i : nat) (l : list A) :
  (i < length l)%nat -> exists b x a, pick i l = Some (b, x, a).
Proof.
  revert i; induction l as [|y l IH]; intros [|i] H; simpl in *; try lia.
  - eauto.
  - destruct (IH i) as (b & x & a & E); [lia|]. rewrite E. eauto.
Qed.

Lemma recs_of_app (l1 l2 : list task) :
  recs_of (l1 ++ l2) = recs_of l1 ++ recs_of l2.
Proof. apply flat_map_app. Qed.

Lemma errs_of_app (l1 l2 : list task) :
  errs_of (l1 ++ l2) = errs_of l1 ++ errs_of l2.
Proof. apply flat_map_app. Qed.

Lemma logs_of_app (l1 l2 : list task) :
  logs_of (l1 ++ l2) = logs_of l1 ++ logs_of l2.
Proof. apply flat_map_app. Qed.

Lemma weight_of_app (l1 l2 : list task) :
  weight_of (l1 ++ l2) = (weight_of l1 + weight_of l2)%nat.
Proof. unfold weight_of. now rewrite map_app, list_sum_app. Qed.

Lemma recs_of_cons (t : task) (l : list task) :
  recs_of (t :: l) = task_recs t ++ recs_of l.
Proof. reflexivity. Qed.

Lemma errs_of_cons (t : task) (l : list task) :
  errs_of (t :: l) = task_errs t ++ errs_of l.
Proof. reflexivity. Qed.

Lemma logs_of_cons (t : task) (l : list task) :
  logs_of (t :: l) = task_logs t ++ logs_of l.
Proof. reflexivity. Qed.

Lemma weight_of_cons (t : task) (l : list task) :
  weight_of (t :: l) = (task_weight t + weight_of l)%nat.
Proof. reflexivity. Qed.

Lemma task_recs_cons (a : act R) (k : task) :
  task_recs (a :: k) = act_recs a ++ task_recs k.
Proof. reflexivity. Qed.

Lemma task_errs_cons (a : act R) (k : task) :
  task_errs (a :: k) = act_errs a ++ task_errs k.
Proof. reflexivity. Qed.

Lemma task_logs_cons (a : act R) (k : task) :
  task_logs (a :: k) = act_logs a ++ task_logs k.
Proof. reflexivity. Qed.

Lemma task_weight_cons (a : act R) (k : task) :
  task_weight (a :: k) = (act_weight a + task_weight k)%nat.
Proof. unfold task_weight; simpl; lia. Qed.

Lemma act_weight_Go (body : task) :
  act_weight (Go body) = S (task_weight body).
Proof. reflexivity. Qed.

Lemma act_recs_Go (body : task) : act_recs (Go body) = task_recs body.
Proof. reflexivity. Qed.

Lemma act_errs_Go (body : task) : act_errs (Go body) = task_errs body.
Proof. reflexivity. Qed.

Lemma act_logs_Go (body : task) : act_logs (Go body) = task_logs body.
Proof. reflexivity. Qed.

Lemma recs_of_nil : recs_of (@nil task) = [].
Proof. reflexivity. Qed.

Lemma errs_of_nil : errs_of (@nil task) = [].
Proof. reflexivity. Qed.

Lemma logs_of_nil : logs_of (@nil task) = [].
Proof. reflexivity. Qed.

Lemma task_recs_nil : task_recs (@nil (act R)) = [].
Proof. reflexivity. Qed.

Lemma task_errs_nil : task_errs (@nil (act R)) = [].
Proof. reflexivity. Qed.

Lemma task_logs_nil : task_logs (@nil (act R)) = [].
Proof. reflexivity. Qed.

Lemma weight_of_nil : weight_of (@nil task) = 0%nat.
Proof. reflexivity. Qed.

Lemma task_weight_nil : task_weight (@nil (act R)) = 1%nat.
Proof. reflexivity. Qed.

(** The records (and error texts, and log lines) held by the caller, the
    channel and the bodies not yet run. *)
Definition inflight_recs (s : state) : list R :=
  all s ++ resBuf s ++ recs_of (pending s) ++ recs_of (threads s).

Definition inflight_errs (s : state) : list string :=
  errors s ++ errBuf s ++ errs_of (pending s) ++ errs_of (threads s).


End StepFacts.

Create Rewrite HintDb sched.

#[local] Hint Rewrite recs_of_app errs_of_app logs_of_app weight_of_app
  recs_of_cons errs_of_cons logs_of_cons weight_of_cons
  task_recs_cons task_errs_cons task_logs_cons task_weight_cons
  act_weight_Go act_recs_Go act_errs_Go act_logs_Go
  recs_of_nil errs_of_nil logs_of_nil task_recs_nil task_errs_nil
  task_logs_nil weight_of_nil task_weight_nil @length_app : sched.

(** [x :: l] read as [[x] ++ l], so that reordering modulo [++] sees it. *)
Ltac cons_as_app :=
  repeat match goal with
         | |- context [?x :: ?l] =>
             lazymatch l with
             | [] => fail
             | _ => change (x :: l) with ([x] ++ l)
             end
         end.

Ltac step_cases H :=
  match type of H with
  | step _ ?g _ = Some _ =>
      destruct g; simpl in H;
      [ unfold step_main in H | unfold step_fin in H | unfold step_worker in H ]
  end;
  repeat match type of H with
         | context [match ?x with _ => _ end] => destruct x eqn:?
         end;
  try discriminate H; inversion H; subst; clear H;
  repeat match goal with
         | E : pick _ _ = Some _ |- _ => apply pick_spec in E; destruct E as [E ?]
         end.

Section Conservation.

Variable R : Type.
Variable d : discipline.

(** A step moves records between the bodies, the channel and the caller: it
    neither drops nor invents one. *)
Lemma step_recs (g : goroutine) (s s' : state R) :
  step d g s = Some s' -> Permutation (inflight_recs s') (inflight_recs s).
Proof.
  intros H. unfold inflight_recs.
  step_cases H; cbn [all resBuf pending threads];
    repeat match goal with E : _ s = _ |- _ => rewrite E end;
    autorewrite with sched; cbn [act_recs]; cons_as_app;
    try reflexivity; aac_reflexivity.
Qed.

Lemma step_errs (g : goroutine) (s s' : state R) :
  step d g s = Some s' -> Permutation (inflight_errs s') (inflight_errs s).
Proof.
  intros H. unfold inflight_errs.
  step_cases H; cbn [errors errBuf pending threads];
    repeat match goal with E : _ s = _ |- _ => rewrite E end;
    autorewrite with sched; cbn [act_errs]; cons_as_app;
    try reflexivity; aac_reflexivity.
Qed.


(** Every step uses up part of the work left: no run is infinite. *)
Lemma step_measure (g : goroutine) (s s' : state R) :
  step d g s = Some s' -> (measure s' < measure s)%nat.
Proof.
  intros H. unfold measure.
  step_cases H;
    cbn [pending threads resBuf errBuf fin main fin_weight main_weight];
    repeat match goal with E : _ s = _ |- _ => rewrite E end;
    autorewrite with sched;
    cbn [length act_weight fin_weight main_weight];
    try (destruct (fin s); cbn [fin_weight]); lia.
Qed.

(** So a run performs at most [measure s] actions, whatever the schedule. *)
Lemma moves_bounded (sched : list goroutine) (s : state R) :
  (moves d sched s + measure (run d sched s) <= measure s)%nat.
Proof.
  revert s; induction sched as [|g sched IH]; intros s; simpl; auto.
  destruct (step d g s) as [s'|] eqn:Hs; auto.
  pose proof (step_measure _ _ Hs). specialize (IH s'). lia.
Qed.

End Conservation.

(** *** The phases of the caller and of the finalizer *)

Section Phases.

Variable R : Type.
Variable d : discipline.

Definition uses_channels : bool :=
  match d with Channels _ _ => true | Mutex => false end.

(** [shape s ch pn tn rn en a b]: the discipline is the expected one; the
    lists flagged [true] are empty; the channels were closed [a] and [b]
    times. *)
Definition shape (s : state R) (ch pn tn rn en : bool) (a b : nat) : Prop :=
  uses_channels = ch /\
  (pn = true -> pending s = []) /\
  (tn = true -> threads s = []) /\
  (rn = true -> resBuf s = []) /\
  (en = true -> errBuf s = []) /\
  resClosed s = a /\ errClosed s = b.

Definition phase_ok (s : state R) : Prop :=
  match main s, fin s with
  | MLaunch, FIdle =>
      shape s uses_channels false false
        (negb uses_channels) (negb uses_channels) 0 0
  | MRangeRes, FWait => shape s true true false false false 0 0
  | MRangeRes, FCloseRes => shape s true true true false false 0 0
  | MRangeRes, FCloseErr => shape s true true true false false 1 0
  | MRangeRes, FExited => shape s true true true false false 1 1
  | MRangeErr, FCloseErr => shape s true true true true false 1 0
  | MRangeErr, FExited => shape s true true true true false 1 1
  | MReturned, FExited => shape s true true true true true 1 1
  | MWait, FIdle => shape s false true false true true 0 0
  | MReturned, FIdle => shape s false true true true true 0 0
  | _, _ => False
  end.

Definition wg_ok (s : state R) : Prop :=
  wg s = Z.of_nat (length (threads s)).

Definition inv (s : state R) : Prop := wg_ok s /\ phase_ok s.

Lemma inv_init (tasks : list (task R)) : inv (init tasks).
Proof.
  split; [reflexivity|]. unfold phase_ok, shape; simpl.
  destruct uses_channels; simpl; intuition congruence.
Qed.

Lemma wg_ok_step (g : goroutine) (s s' : state R) :
  wg_ok s -> step d g s = Some s' -> wg_ok s'.
Proof.
  unfold wg_ok. intros Hwg H.
  step_cases H; cbn [wg threads];
    repeat match goal with E : threads s = _ |- _ => rewrite E in * end;
    autorewrite with sched in *; cbn [length] in *;
    autorewrite with sched in *; cbn [length] in *; lia.
Qed.

Lemma no_threads_of_wg (s : state R) :
  wg_ok s -> (wg s =? 0)%Z = true -> threads s = [].
Proof.
  unfold wg_ok. intros H E. apply Z.eqb_eq in E.
  destruct (threads s); [reflexivity | simpl in H; lia].
Qed.

Lemma phase_ok_step (g : goroutine) (s s' : state R) :
  inv s -> step d g s = Some s' -> phase_ok s'.
Proof.
  intros [Hwg Hph] H. unfold phase_ok, shape in *.
  step_cases H;
    cbn [main fin pending threads resBuf errBuf resClosed errClosed] in *;
    repeat match goal with
           | E : (wg s =? 0)%Z = true |- _ =>
               apply (no_threads_of_wg Hwg) in E
           | E : (0 <? _)%nat = true |- _ => apply Nat.ltb_lt in E
           | E : _ && _ = true |- _ => apply andb_prop in E; destruct E
           end;
    unfold ranging_res, ranging_err, uses_channels in *;
    repeat match goal with
           | E : main s = _ |- _ => rewrite E in *
           | E : fin s = _ |- _ => rewrite E in *
           | E : d = _ |- _ => rewrite E in *
           end;
    try discriminate;
    destruct (main s) eqn:Em; try discriminate;
    destruct (fin s) eqn:Ef; try contradiction;
    destruct d; simpl in *;
    repeat match goal with
           | H : _ /\ _ |- _ => destruct H
           end;
    try discriminate; try lia;
    repeat match goal with
           | H : true = true -> _ |- _ => specialize (H eq_refl)
           | H : ?l = [], E : ?l = _ ++ _ :: _ |- _ =>
               rewrite H in E; destruct (app_cons_not_nil _ _ _ E)
           | H : ?l = [], E : ?l = _ :: _ |- _ =>
               rewrite H in E; discriminate E
           end;
    repeat split; intros; try congruence; try lia; auto;
    try (destruct (resBuf s); [reflexivity | discriminate]);
    try (destruct (errBuf s); [reflexivity | discriminate]).
Qed.

Lemma inv_step (g : goroutine) (s s' : state R) :
  inv s -> step d g s = Some s' -> inv s'.
Proof.
  intros Hi H. split.
  - eapply wg_ok_step; [apply Hi | exact H].
  - eapply phase_ok_step; [exact Hi | exact H].
Qed.

Lemma inv_reachable (tasks : list (task R)) (s : state R) :
  reachable d tasks s -> inv s.
Proof.
  induction 1; [apply inv_init | eapply inv_step; eauto].
Qed.

End Phases.

(** *** What a collector returns, and that it returns *)

Section Outcome.

Variable R : Type.
Variable d : discipline.
Variable tasks : list (task R).

Lemma reachable_recs (s : state R) :
  reachable d tasks s -> Permutation (inflight_recs s) (recs_of tasks).
Proof.
  induction 1.
  - unfold inflight_recs, init; simpl. now rewrite app_nil_r.
  - etransitivity; [eapply step_recs; eauto | assumption].
Qed.

Lemma reachable_errs (s : state R) :
  reachable d tasks s -> Permutation (inflight_errs s) (errs_of tasks).
Proof.
  induction 1.
  - unfold inflight_errs, init; simpl. now rewrite app_nil_r.
  - etransitivity; [eapply step_errs; eauto | assumption].
Qed.


(** At the caller's [return] nothing is left in a body or in a channel. *)
Lemma returned_quiescent (s : state R) :
  reachable d tasks s -> returned s = true ->
  pending s = [] /\ threads s = [] /\ resBuf s = [] /\ errBuf s = [].
Proof.
  intros Hr Hret. destruct (inv_reachable Hr) as [_ Hph].
  unfold returned in Hret. unfold phase_ok, shape in Hph.
  destruct (main s); try discriminate.
  destruct (fin s); try contradiction; intuition.
Qed.

Lemma returned_all (s : state R) :
  reachable d tasks s -> returned s = true ->
  Permutation (all s) (recs_of tasks).
Proof.
  intros Hr Hret. pose proof (reachable_recs Hr) as Hp.
  destruct (returned_quiescent Hr Hret) as (E1 & E2 & E3 & _).
  unfold inflight_recs in Hp. rewrite E1, E2, E3 in Hp. simpl in Hp.
  now rewrite app_nil_r in Hp.
Qed.

Lemma returned_errors (s : state R) :
  reachable d tasks s -> returned s = true ->
  Permutation (errors s) (errs_of tasks).
Proof.
  intros Hr Hret. pose proof (reachable_errs Hr) as Hp.
  destruct (returned_quiescent Hr Hret) as (E1 & E2 & _ & E4).
  unfold inflight_errs in Hp. rewrite E1, E2, E4 in Hp. simpl in Hp.
  now rewrite app_nil_r in Hp.
Qed.


(** With channels, the caller returns only after the finalizer closed each
    channel, once. *)
Lemma returned_closed_once (s : state R) :
  reachable d tasks s -> returned s = true -> uses_channels d = true ->
  resClosed s = 1%nat /\ errClosed s = 1%nat /\ fin s = FExited.
Proof.
  intros Hr Hret Hd. destruct (inv_reachable Hr) as [_ Hph].
  unfold returned in Hret. unfold phase_ok, shape in Hph.
  destruct (main s); try discriminate.
  destruct (fin s); try contradiction; intuition congruence.
Qed.

(** A channel is closed at most once, by the finalizer, and only when no
    worker is left. *)
Lemma closed_no_workers (s : state R) :
  reachable d tasks s ->
  (resClosed s <= 1)%nat /\ (errClosed s <= 1)%nat /\
  (errClosed s <= resClosed s)%nat /\
  ((0 < resClosed s)%nat -> pending s = [] /\ threads s = []).
Proof.
  intros Hr. destruct (inv_reachable Hr) as [_ Hph].
  unfold phase_ok, shape in Hph.
  destruct (main s); destruct (fin s); try contradiction;
    destruct Hph as (_ & ? & ? & _ & _ & -> & ->);
    repeat split; try lia; auto.
Qed.

Lemma returned_stable (g : goroutine) (s s' : state R) :
  step d g s = Some s' -> returned s = true -> returned s' = true.
Proof.
  intros H Hret. unfold returned in *.
  step_cases H; cbn [main] in *;
    repeat match goal with E : main s = _ |- _ => rewrite E in * end;
    try discriminate; auto.
Qed.

(** The bodies fit the discipline: with channels, the errors channel has
    room for every error text any body may send; without channels, no body
    sends. *)
Definition chan_free (ts : list (task R)) : bool :=
  forallb (fun t => negb (existsb (@act_uses_channels R) t)) ts.

Definition fits : Prop :=
  match d with
  | Channels _ ec => (length (errs_of tasks) <= ec)%nat
  | Mutex => chan_free tasks = true
  end.

Lemma chan_free_app (l1 l2 : list (task R)) :
  chan_free (l1 ++ l2) = chan_free l1 && chan_free l2.
Proof. apply forallb_app. Qed.

Lemma chan_free_step (g : goroutine) (s s' : state R) :
  step d g s = Some s' ->
  chan_free (pending s ++ threads s) = true ->
  chan_free (pending s' ++ threads s') = true.
Proof.
  intros H. step_cases H; cbn [pending threads];
    repeat match goal with E : _ s = _ |- _ => rewrite E end;
    repeat rewrite chan_free_app; cbn [chan_free forallb existsb];
    repeat rewrite chan_free_app; cbn [chan_free forallb existsb];
    cbn [act_uses_channels]; intros Hc;
    repeat match goal with
           | H : _ && _ = true |- _ => apply andb_prop in H; destruct H
           | H : negb (_ || _) = true |- _ => rewrite negb_orb in H
           end;
    repeat (apply andb_true_intro; split); auto.
Qed.

Lemma chan_free_reachable (s : state R) :
  reachable d tasks s -> chan_free tasks = true ->
  chan_free (pending s ++ threads s) = true.
Proof.
  intros Hr Hc. induction Hr.
  - simpl. now rewrite app_nil_r.
  - eapply chan_free_step; eauto.
Qed.

Lemma pick_head (A : Type) (x : A) (l : list A) :
  pick 0 (x :: l) = Some ([], x, l).
Proof. reflexivity. Qed.

(** No deadlock: while the caller has not returned, some goroutine can
    move. *)
Lemma progress (s : state R) :
  fits -> reachable d tasks s -> returned s = false ->
  exists g s', step d g s = Some s'.
Proof.
  intros Hfit Hr Hret.
  destruct (inv_reachable Hr) as [Hwg Hph].
  pose proof (Permutation_length (reachable_errs Hr)) as Hlen.
  unfold inflight_errs in Hlen. repeat rewrite length_app in Hlen.
  unfold returned in Hret. unfold phase_ok, shape, uses_channels in Hph.
  unfold wg_ok in Hwg.
  assert (Hcf : d = Mutex -> chan_free (pending s ++ threads s) = true).
  { intros E. apply (chan_free_reachable Hr). unfold fits in Hfit.
    now rewrite E in Hfit. }
  unfold fits in Hfit.
  destruct (main s) eqn:Em; try discriminate.
  - (* the launch loop *)
    exists GMain. cbn [step]. unfold step_main. rewrite Em.
    destruct (pending s); [destruct d|]; eauto.
  - (* range over the results channel *)
    destruct (resBuf s) as [|r rest] eqn:Eb.
    2:{ exists GMain. cbn [step]. unfold step_main. rewrite Em, Eb. eauto. }
    destruct (fin s) eqn:Ef; try contradiction.
    + destruct (threads s) as [|t ts] eqn:Et.
      * exists GFinalizer. cbn [step]. unfold step_fin. rewrite Ef, Hwg.
        simpl. eauto.
      * exists (GWorker 0). cbn [step]. unfold step_worker.
        rewrite Et, pick_head.
        destruct t as [|[r|e|r|m|body] k]; eauto.
        -- destruct d as [rc ec|]; [|destruct Hph; discriminate].
           unfold ranging_res. rewrite Em, Eb. simpl.
           destruct (0 <? rc)%nat; eauto.
        -- destruct d as [rc ec|]; [|destruct Hph; discriminate].
           autorewrite with sched in Hlen. cbn [act_errs length] in Hlen.
           repeat rewrite length_app in Hlen. cbn [length] in Hlen.
           assert (Hlt : (length (errBuf s) <? ec)%nat = true)
             by (apply Nat.ltb_lt; lia).
           rewrite Hlt. eauto.
    + exists GFinalizer. cbn [step]. unfold step_fin. rewrite Ef. eauto.
    + exists GFinalizer. cbn [step]. unfold step_fin. rewrite Ef. eauto.
    + exists GMain. cbn [step]. unfold step_main. rewrite Em, Eb.
      destruct Hph as (_ & _ & _ & _ & _ & -> & _). simpl. eauto.
  - (* range over the errors channel *)
    destruct (errBuf s) as [|e rest] eqn:Eb.
    2:{ exists GMain. cbn [step]. unfold step_main. rewrite Em, Eb. eauto. }
    destruct (fin s) eqn:Ef; try contradiction.
    + exists GFinalizer. cbn [step]. unfold step_fin. rewrite Ef. eauto.
    + exists GMain. cbn [step]. unfold step_main. rewrite Em, Eb.
      destruct Hph as (_ & _ & _ & _ & _ & _ & ->). simpl. eauto.
  - (* wg.Wait() in the caller *)
    destruct (fin s) eqn:Ef; try contradiction.
    destruct d as [rc ec|]; [destruct Hph; discriminate|].
    destruct (threads s) as [|t ts] eqn:Et.
    + exists GMain. cbn [step]. unfold step_main. rewrite Em, Hwg.
      simpl. eauto.
    + exists (GWorker 0). cbn [step]. unfold step_worker.
      rewrite Et, pick_head.
      pose proof (Hcf eq_refl) as Hc.
      rewrite chan_free_app in Hc. apply andb_prop in Hc.
      destruct Hc as [_ Hc]. cbn [chan_free forallb] in Hc.
      destruct t as [|[r|e|r|m|body] k]; eauto; simpl in Hc; discriminate.
Qed.

(** Hence every run ends, and ends at the caller's [return]. *)
Lemma some_run_returns (s : state R) :
  fits -> reachable d tasks s ->
  exists sched, returned (run d sched s) = true.
Proof.
  intros Hfit. remember (measure s) as n eqn:En. revert s En.
  induction n as [n IH] using lt_wf_ind. intros s En Hr.
  destruct (returned s) eqn:Hret.
  - exists []. exact Hret.
  - destruct (progress Hfit Hr Hret) as (g & s' & Hs).
    destruct (IH (measure s')) with (s := s') as [sched Hsched]; auto.
    + subst n. eapply step_measure; eauto.
    + eapply reach_step; eauto.
    + exists (g :: sched). simpl. now rewrite Hs.
Qed.

Lemma step_in_goroutines (g : goroutine) (s s' : state R) :
  step d g s = Some s' -> In g (goroutines s).
Proof.
  intros H. unfold goroutines. destruct g as [| |i]; simpl; auto.
  right; right. apply in_map, in_seq. split; [lia|]. simpl.
  cbn [step] in H. unfold step_worker in H.
  destruct (pick i (threads s)) as [[[b x] a]|] eqn:E; try discriminate.
  apply pick_spec in E. destruct E as [-> <-].
  rewrite length_app. simpl. lia.
Qed.

Lemma step_enabled (g : goroutine) (s s' : state R) :
  step d g s = Some s' -> In g (enabled d s).
Proof.
  intros H. unfold enabled. apply filter_In. split.
  - eapply step_in_goroutines; eauto.
  - now rewrite H.
Qed.

Lemma enabled_step (g : goroutine) (s : state R) :
  In g (enabled d s) -> exists s', step d g s = Some s'.
Proof.
  unfold enabled. intros H. apply filter_In in H. destruct H as [_ H].
  destruct (step d g s); [eauto | discriminate].
Qed.

Lemma run_first_reachable (n : nat) (s : state R) :
  reachable d tasks s -> reachable d tasks (run_first d n s).
Proof.
  revert s; induction n as [|n IH]; intros s Hr; simpl; auto.
  destruct (enabled d s) as [|g gs] eqn:E; auto.
  destruct (step d g s) eqn:Hs; auto.
  apply IH. eapply reach_step; eauto.
Qed.

Lemma run_first_returns (n : nat) (s : state R) :
  fits -> reachable d tasks s -> (measure s <= n)%nat ->
  returned (run_first d n s) = true.
Proof.
  intros Hfit. revert s. induction n as [|n IH]; intros s Hr Hm.
  - simpl. destruct (returned s) eqn:Hret; auto.
    destruct (progress Hfit Hr Hret) as (g & s' & Hs).
    apply step_measure in Hs. lia.
  - simpl. destruct (returned s) eqn:Hret.
    + destruct (enabled d s) as [|g gs] eqn:E; auto.
      destruct (step d g s) eqn:Hs; auto.
      assert (Hret' : returned s0 = true) by (eapply returned_stable; eauto).
      clear IH Hm. assert (Hr' : reachable d tasks s0)
        by (eapply reach_step; eauto).
      clear Hs E Hr Hret. revert s0 Hret' Hr'.
      induction n as [|n IHn]; intros s1 Hret1 Hr1; simpl; auto.
      destruct (enabled d s1) as [|g1 gs1] eqn:E1; auto.
      destruct (step d g1 s1) eqn:Hs1; auto.
      apply IHn; [eapply returned_stable; eauto | eapply reach_step; eauto].
    + destruct (progress Hfit Hr Hret) as (g & s' & Hs).
      pose proof (step_enabled _ _ Hs) as Hin.
      destruct (enabled d s) as [|g1 gs1] eqn:E; [destruct Hin|].
      assert (Hin1 : In g1 (enabled d s)) by (rewrite E; left; auto).
      destruct (enabled_step _ _ Hin1) as [s1 Hs1]. rewrite Hs1.
      apply IH; [eapply reach_step; eauto|].
      apply step_measure in Hs1. lia.
Qed.

Lemma reachable_run (sched : list goroutine) (s : state R) :
  reachable d tasks s -> reachable d tasks (run d sched s).
Proof.
  revert s; induction sched as [|g sched IH]; intros s Hr; simpl; auto.
  destruct (step d g s) eqn:Hs; auto.
  apply IH. eapply reach_step; eauto.
Qed.

Lemma run_app (sched more : list goroutine) (s : state R) :
  run d (sched ++ more) s = run d more (run d sched s).
Proof.
  revert s; induction sched as [|g sched IH]; intros s; simpl; auto.
  destruct (step d g s); apply IH.
Qed.

Lemma reachable_is_run (s : state R) :
  reachable d tasks s -> exists sched, s = run d sched (init tasks).
Proof.
  induction 1 as [|s g s' Hr IH Hs].
  - exists []. reflexivity.
  - destruct IH as [sched ->]. exists (sched ++ [g]).
    rewrite run_app. simpl. now rewrite Hs.
Qed.

(** Whatever was received or sits in the results channel was sent by some
    body. *)
Lemma received_was_sent (s : state R) (r : R) :
  reachable d tasks s -> In r (all s ++ resBuf s) -> In r (recs_of tasks).
Proof.
  intros Hr Hin. apply (Permutation_in r (reachable_recs Hr)).
  unfold inflight_recs. rewrite app_assoc. apply in_or_app. auto.
Qed.

(** The records the caller has received or that sit in the results
    channel. *)
Definition emitted (s : state R) : list R := all s ++ resBuf s.

Lemma emitted_was_sent (sched : list goroutine) (r : R) :
  In r (emitted (run d sched (init tasks))) -> In r (recs_of tasks).
Proof.
  apply received_was_sent. apply reachable_run, reach_init.
Qed.

(** Under every schedule the collector returns, and what it returns
    satisfies [P]: no state of any run is a deadlock, no run performs more
    than [measure (init tasks)] actions, every run can be continued to the
    caller's [return], and [P] holds of the result at the [return]. *)
Definition always_returns (P : list R * option error -> Prop) : Prop :=
  forall sched,
    let s := run d sched (init tasks) in
    deadlocked d s = false /\
    (moves d sched (init tasks) <= measure (init tasks))%nat /\
    (exists more, returned (run d more s) = true) /\
    (returned s = true -> P (result_of d s)).

Lemma always_returns_intro (P : list R * option error -> Prop) :
  fits ->
  (forall s, reachable d tasks s -> returned s = true -> P (result_of d s)) ->
  always_returns P.
Proof.
  intros Hfit HP sched s.
  assert (Hr : reachable d tasks s)
    by (apply reachable_run; apply reach_init).
  repeat split.
  - unfold deadlocked. destruct (returned s) eqn:Hret.
    + apply andb_false_r.
    + destruct (progress Hfit Hr Hret) as (g & s' & Hs).
      pose proof (step_enabled _ _ Hs) as Hin.
      destruct (enabled d s); [destruct Hin | reflexivity].
  - pose proof (moves_bounded d sched (init tasks)). lia.
  - apply some_run_returns; auto.
  - intros Hret. apply HP; auto.
Qed.

End Outcome.

(** *** An unbuffered errors channel drained after the results channel

    With [make(chan error)] a worker that sends an error waits for the
    caller to receive it; the caller receives errors only after the results
    channel is closed; the finalizer closes it only after every worker is
    done.  So one failing worker blocks all three for ever. *)

Section Unbuffered.

Variable R : Type.
Variable rc : nat.
Variable tasks : list (task R).

Let d := Channels rc 0.

Definition err_pending (s : state R) : Prop :=
  exists t e, In t (pending s ++ threads s) /\ In (SendErr e) t.

Definition waiting (s : state R) : Prop :=
  err_pending s /\
  (main s = MLaunch \/ main s = MRangeRes) /\
  (fin s = FIdle \/ fin s = FWait) /\
  errors s = [].

Lemma err_pending_worker (P b aft extra : list (task R)) a k :
  (exists t e, In t (P ++ b ++ (a :: k) :: aft) /\ In (SendErr e) t) ->
  (forall e, a <> SendErr e) ->
  exists t e, In t (P ++ b ++ k :: aft ++ extra) /\ In (SendErr e) t.
Proof.
  intros (t & e & Hin & He) Ha.
  repeat (rewrite in_app_iff in Hin; simpl in Hin).
  destruct Hin as [Hin|[Hin|[Hin|Hin]]].
  - exists t, e. split; auto. apply in_or_app; auto.
  - exists t, e. split; auto. apply in_or_app; right. apply in_or_app; auto.
  - subst t. destruct He as [He|He]; [destruct (Ha e He)|].
    exists k, e. split; auto.
    apply in_or_app; right. apply in_or_app; right. left; auto.
  - exists t, e. split; auto.
    apply in_or_app; right. apply in_or_app; right. right.
    apply in_or_app; auto.
Qed.

Lemma waiting_step (g : goroutine) (s s' : state R) :
  inv d s -> waiting s -> step d g s = Some s' -> waiting s'.
Proof.
  intros [Hwg Hph] (Hp & Hm & Hf & He) H.
  unfold waiting, err_pending in *. unfold phase_ok, shape in Hph.
  destruct g as [| |i]; cbn [step] in H.
  - (* the caller *)
    unfold step_main in H.
    destruct Hm as [Em|Em]; rewrite Em in *.
    + destruct Hf as [Ef|Ef]; rewrite Ef in *; try contradiction.
      destruct (pending s) as [|t0 rest] eqn:Ep.
      * inversion H; subst; clear H. cbn. repeat split; auto.
      * inversion H; subst; clear H. cbn. repeat split; auto.
        destruct Hp as (t & e & Hin & Hse). exists t, e. split; auto.
        simpl in Hin. rewrite in_app_iff in Hin.
        repeat rewrite in_app_iff. simpl. tauto.
    + destruct (resBuf s) as [|r rest] eqn:Eb.
      * destruct Hf as [Ef|Ef]; rewrite Ef in *; [contradiction|].
        destruct Hph as (_ & _ & _ & _ & _ & Hc & _).
        rewrite Hc in H. discriminate.
      * inversion H; subst; clear H. cbn. repeat split; auto.
  - (* the finalizer *)
    unfold step_fin in H.
    destruct Hf as [Ef|Ef]; rewrite Ef in *; try discriminate.
    destruct (wg s =? 0)%Z eqn:Ew; try discriminate.
    apply (no_threads_of_wg Hwg) in Ew.
    destruct Hm as [Em|Em]; rewrite Em in *; try contradiction.
    destruct Hph as (_ & Hpn & _). rewrite (Hpn eq_refl), Ew in Hp.
    destruct Hp as (t & e & [] & _).
  - (* a worker *)
    unfold step_worker in H.
    destruct (pick i (threads s)) as [[[b t] aft]|] eqn:Epick;
      try discriminate.
    apply pick_spec in Epick. destruct Epick as [Et _].
    rewrite Et in Hp.
    destruct t as [|a k].
    + inversion H; subst; clear H. cbn. repeat split; auto.
      destruct Hp as (t & e & Hin & Hse). exists t, e. split; auto.
      repeat (rewrite in_app_iff in Hin; simpl in Hin).
      repeat rewrite in_app_iff.
      destruct Hin as [?|[?|[?|?]]]; auto. subst t. destruct Hse.
    + destruct a as [r|e0|r|m|body].
      * unfold d in H.
        destruct (length (resBuf s) <? rc)%nat;
          [|destruct (ranging_res s && is_nil (resBuf s)); try discriminate];
          inversion H; subst; clear H; cbn; repeat split; auto;
          try (apply err_pending_worker with (extra := []) in Hp;
               [now rewrite app_nil_r in Hp | discriminate]).
      * unfold d in H. simpl in H.
        unfold ranging_err in H.
        destruct Hm as [Em|Em]; rewrite Em in H; discriminate.
      * inversion H; subst; clear H; cbn; repeat split; auto.
        apply err_pending_worker with (extra := []) in Hp;
          [now rewrite app_nil_r in Hp | discriminate].
      * inversion H; subst; clear H; cbn; repeat split; auto.
        apply err_pending_worker with (extra := []) in Hp;
          [now rewrite app_nil_r in Hp | discriminate].
      * inversion H; subst; clear H; cbn; repeat split; auto.
        apply err_pending_worker with (extra := [body]) in Hp;
          [exact Hp | discriminate].
Qed.

Hypothesis some_region_fails :
  exists t e, In t tasks /\ In (SendErr e) t.

Lemma waiting_init : waiting (init tasks).
Proof.
  unfold waiting, err_pending; simpl. rewrite app_nil_r. auto.
Qed.

Lemma waiting_reachable (s : state R) : reachable d tasks s -> waiting s.
Proof.
  induction 1; [apply waiting_init|].
  eapply waiting_step; eauto. eapply inv_reachable; eauto.
Qed.

(** The caller never returns, no channel is ever closed, no error text is
    ever received. *)
Lemma never_returns (s : state R) :
  reachable d tasks s ->
  returned s = false /\ resClosed s = 0%nat /\ errClosed s = 0%nat /\
  errors s = [] /\ fin s <> FExited.
Proof.
  intros Hr. destruct (waiting_reachable Hr) as (_ & Hm & Hf & He).
  destruct (inv_reachable Hr) as [_ Hph].
  unfold phase_ok, shape, returned in *.
  destruct Hm as [Em|Em]; rewrite Em in *;
    destruct Hf as [Ef|Ef]; rewrite Ef in *; try contradiction;
    destruct Hph as (_ & _ & _ & _ & _ & -> & ->);
    repeat split; auto; discriminate.
Qed.

(** Every run is finite, so every run ends with all goroutines blocked. *)
Lemma some_run_deadlocks (s : state R) :
  reachable d tasks s ->
  exists sched, deadlocked d (run d sched s) = true.
Proof.
  remember (measure s) as n eqn:En. revert s En.
  induction n as [n IH] using lt_wf_ind. intros s En Hr.
  destruct (enabled d s) as [|g gs] eqn:E.
  - exists []. simpl. unfold deadlocked. rewrite E.
    destruct (never_returns Hr) as (-> & _). reflexivity.
  - assert (Hin : In g (enabled d s)) by (rewrite E; left; auto).
    destruct (enabled_step _ _ _ Hin) as [s' Hs].
    destruct (IH (measure s')) with (s := s') as [sched Hsched]; auto.
    + subst n. eapply step_measure; eauto.
    + eapply reach_step; eauto.
    + exists (g :: sched). simpl. now rewrite Hs.
Qed.

End Unbuffered.

End Sched.

Import Sched.

Open Scope string_scope.

(** ** ec2.go *)

Module EC2InstanceInfo.
Record t := {
  Region : string;
  NameTag : string;
  InstanceState : string;
  InstanceID : string;
  PublicIP : string;
  VPCID : string;
  SubnetID : string;
  Cost : float }.
End EC2InstanceInfo.

Definition has_public_ip (instance : types.Instance.t) : bool :=
  match types.Instance.PublicIpAddress instance with
  | Some ip => negb (String.eqb ip "")
  | None => false
  end.

Definition fetchInstancesInRegion (p : Provider) (regionName : string)
  : result (list types.Instance.t) :=
  match DescribeInstances p regionName with
  | Err err =>
      Err ("failed to describe instances in region " ++ regionName
           ++ ": " ++ err)
  | Ok reservations => Ok (filter has_public_ip (concat reservations))
  end.

Definition instance_info (regionName : string) (instance : types.Instance.t)
  : EC2InstanceInfo.t :=
  {| EC2InstanceInfo.Region := regionName;
     EC2InstanceInfo.NameTag := getNameTagValue (types.Instance.Tags instance);
     EC2InstanceInfo.InstanceState := types.Instance.StateName instance;
     EC2InstanceInfo.InstanceID := types.Instance.InstanceId instance;
     EC2InstanceInfo.PublicIP :=
       ToString (types.Instance.PublicIpAddress instance);
     EC2InstanceInfo.VPCID := types.Instance.VpcId instance;
     EC2InstanceInfo.SubnetID := types.Instance.SubnetId instance;
     EC2InstanceInfo.Cost := 3.65 |}.

(** The body of the goroutine started for one region in [fetchAllInstances]:
    a failure is logged and the goroutine returns; otherwise every instance
    is appended under the mutex. *)
Definition instances_worker (p : Provider) (region : types.Region)
  : task EC2InstanceInfo.t :=
  let regionName := types.RegionName region in
  match fetchInstancesInRegion p regionName with
  | Err err =>
      [Log ("Failed to fetch instances in region " ++ regionName
            ++ ": " ++ err)]
  | Ok instances =>
      map (fun instance => Append (instance_info regionName instance))
          instances
  end.

Definition instances_workers (p : Provider) (regions : list types.Region)
  : list (task EC2InstanceInfo.t) :=
  map (instances_worker p) regions.

Definition instances_discipline : discipline := Mutex.

(** ** eip.go *)

Module EIPInfo.
Record t := {
  Region : string;
  PublicIP : string;
  AssociationTarget : string;
  NameTag : string;
  Cost : float }.
End EIPInfo.

Definition AssociationTypeInstance := "Instance".
Definition AssociationTypeNATGateway := "NAT Gateway".

Definition fetchEIPsInRegion (p : Provider) (regionName : string)
  : result (list types.Address.t) :=
  match DescribeAddresses p regionName with
  | Err err =>
      Err ("failed to describe EIPs in region " ++ regionName ++ ": " ++ err)
  | Ok addresses => Ok addresses
  end.

Definition nat_address_matches (allocationId : string)
  (natAddress : types.NatGatewayAddress.t) : bool :=
  match types.NatGatewayAddress.AllocationId natAddress with
  | Some a => String.eqb a allocationId
  | None => false
  end.

(** The first NAT gateway one of whose addresses has the allocation id. *)
Definition find_nat_gateway (allocationId : string)
  (natGateways : list types.NatGateway.t) : option types.NatGateway.t :=
  find (fun natGateway =>
          existsb (nat_address_matches allocationId)
                  (types.NatGateway.NatGatewayAddresses natGateway))
       natGateways.

Definition describeEIPByAssociationID (p : Provider)
  (associationID regionName : string) : result string :=
  match DescribeAddressesByAssociation p regionName associationID with
  | Err err => Err err
  | Ok [] => Ok ""
  | Ok (address0 :: _) =>
      match types.Address.InstanceId address0 with
      | Some instanceId => Ok (AssociationTypeInstance ++ ": " ++ instanceId)
      | None =>
          match types.Address.NetworkInterfaceId address0 with
          | Some _ =>
              match DescribeNatGateways p regionName with
              | Err natErr => Err natErr
              | Ok natGateways =>
                  match find_nat_gateway
                          (ToString (types.Address.AllocationId address0))
                          natGateways with
                  | Some natGateway =>
                      Ok (AssociationTypeNATGateway ++ ": "
                          ++ ToString (types.NatGateway.NatGatewayId natGateway))
                  | None => Ok ""
                  end
              end
          | None => Ok ""
          end
      end
  end.

Definition eip_cost (associationTarget : string) : float :=
  if String.eqb associationTarget "" then (3.65 + 3.65)%float else 3.65%float.

Definition eip_info (regionName : string) (eip : types.Address.t)
  (associationTarget : string) : EIPInfo.t :=
  {| EIPInfo.Region := regionName;
     EIPInfo.PublicIP := types.Address.PublicIp eip;
     EIPInfo.AssociationTarget := associationTarget;
     EIPInfo.NameTag := getNameTagValue (types.Address.Tags eip);
     EIPInfo.Cost := eip_cost associationTarget |}.

(** The loop over the addresses of one region: an address attached to an
    instance is skipped; a failing association lookup sends one error and
    ends the goroutine; otherwise the record is sent. *)
Fixpoint eip_loop (p : Provider) (regionName : string)
  (eips : list types.Address.t) : task EIPInfo.t :=
  match eips with
  | [] => []
  | eip :: rest =>
      match types.Address.InstanceId eip with
      | Some _ => eip_loop p regionName rest
      | None =>
          match describeEIPByAssociationID p
                  (ToString (types.Address.AssociationId eip)) regionName with
          | Err err =>
              [SendErr ("failed to describe EIP associations in region "
                        ++ regionName ++ ": " ++ err)]
          | Ok associationTarget =>
              SendRes (eip_info regionName eip associationTarget)
              :: eip_loop p regionName rest
          end
      end
  end.

Definition eips_worker (p : Provider) (region : types.Region)
  : task EIPInfo.t :=
  let regionName := types.RegionName region in
  match fetchEIPsInRegion p regionName with
  | Err err =>
      [SendErr ("failed to fetch EIPs in region " ++ regionName
                ++ ": " ++ err)]
  | Ok eips => eip_loop p regionName eips
  end.

Definition eips_workers (p : Provider) (regions : list types.Region)
  : list (task EIPInfo.t) :=
  map (eips_worker p) regions.

Definition eips_discipline (regions : list types.Region) : discipline :=
  Channels (length regions * 10) (length regions).

(** ** The network-interface collector *)

Module ENIInfo.
Record t := {
  Region : string;
  PublicIP : string;
  ENIID : string;
  Cost : float }.
End ENIInfo.

Definition eni_public_ip (eni : types.NetworkInterface.t) : option string :=
  match types.NetworkInterface.Association eni with
  | Some association => types.Association.PublicIp association
  | None => None
  end.

Definition eni_has_public_ip (eni : types.NetworkInterface.t) : bool :=
  match eni_public_ip eni with
  | Some ip => negb (String.eqb ip "")
  | None => false
  end.

Definition fetchENIsInRegion (p : Provider) (regionName : string)
  : result (list types.NetworkInterface.t) :=
  match DescribeNetworkInterfaces p regionName with
  | Err err =>
      Err ("failed to describe ENIs in region " ++ regionName ++ ": " ++ err)
  | Ok networkInterfaces => Ok (filter eni_has_public_ip networkInterfaces)
  end.

Definition eni_info (regionName : string) (eni : types.NetworkInterface.t)
  : ENIInfo.t :=
  {| ENIInfo.Region := regionName;
     ENIInfo.PublicIP := ToString (eni_public_ip eni);
     ENIInfo.ENIID := types.NetworkInterface.NetworkInterfaceId eni;
     ENIInfo.Cost := 3.65 |}.

Definition enis_worker (p : Provider) (region : types.Region)
  : task ENIInfo.t :=
  let regionName := types.RegionName region in
  match fetchENIsInRegion p regionName with
  | Err err =>
      [SendErr ("Failed to fetch ENIs in region " ++ regionName
                ++ ": " ++ err)]
  | Ok enis => map (fun eni => SendRes (eni_info regionName eni)) enis
  end.

Definition enis_workers (p : Provider) (regions : list types.Region)
  : list (task ENIInfo.t) :=
  map (enis_worker p) regions.

Definition enis_discipline (regions : list types.Region) : discipline :=
  Channels (length regions * 10) (length regions).

(** ** lb.go *)

Module LoadBalancerInfo.
Record t := {
  Region : string;
  Type_ : string;
  DNSName : string;
  IPCount : Z;
  TrafficLastWeek : Z;
  PublicIPs : list string;
  Cost : float }.
End LoadBalancerInfo.

Definition fetchLoadBalancers (p : Provider) (regionName : string)
  : result (list elbv2types.LoadBalancer) :=
  DescribeLoadBalancers p regionName.

Definition fetchClassicLoadBalancers (p : Provider) (regionName : string)
  : result (list elbtypes.LoadBalancerDescription) :=
  DescribeClassicLoadBalancers p regionName.

(** The lookup's error is dropped ([ips, _ := net.LookupIP(dnsName)]): a
    failed lookup is an empty list. *)
Definition countIPsFromDNS (p : Provider) (dnsName : string) : list string :=
  match LookupIP p dnsName with
  | Ok ips => ips
  | Err _ => []
  end.

(** [int(value)] for a [float64] on a 64-bit target: truncation toward
    zero; what does not fit (NaN and the infinities too) is the least
    [int64], as the amd64 conversion gives. *)
Definition min_int64 : Z := - 2 ^ 63.

Definition int_of_float64 (value : float) : Z :=
  match Prim2SF value with
  | S754_zero _ => 0
  | S754_finite sign m e =>
      let magnitude := Z.shiftl (Z.pos m) e in
      let z := if sign then (- magnitude)%Z else magnitude in
      if ((min_int64 <=? z) && (z <? 2 ^ 63))%Z then z else min_int64
  | _ => min_int64
  end.

(** [int] addition, wrapping at 64 bits. *)
Definition add_int (a b : Z) : Z :=
  ((a + b + 2 ^ 63) mod 2 ^ 64 - 2 ^ 63)%Z.

(** The [switch lbType]: namespace, dimension name and metric name. *)
Definition metric_source (lbType : string) : option (string * string * string) :=
  if String.eqb lbType "application"
  then Some ("AWS/ApplicationELB", "LoadBalancer", "ProcessedBytes")
  else if String.eqb lbType "network"
  then Some ("AWS/NetworkELB", "LoadBalancer", "ProcessedBytes")
  else if String.eqb lbType "classic"
  then Some ("AWS/ELB", "LoadBalancerName", "EstimatedProcessedBytes")
  else None.

Definition fetchProcessedBytes (p : Provider) (lbIdentifier lbType : string)
  : Z :=
  match metric_source lbType with
  | None => (-1)%Z
  | Some (namespace, dimensionName, metricName) =>
      match GetMetricData p namespace metricName dimensionName lbIdentifier with
      | Err _ => 0%Z
      | Ok [] => 0%Z
      | Ok (values :: _) =>
          fold_left (fun totalBytes value =>
                       add_int totalBytes (int_of_float64 value))
                    values 0%Z
      end
  end.

(** [strings.Split(s, sep)] for a non-empty [sep]: [skip] counts the
    characters of a separator just matched that are still to be passed. *)
Fixpoint split_from (sep : string) (skip : nat) (cur s : string)
  : list string :=
  match s with
  | EmptyString => [cur]
  | String c s' =>
      match skip with
      | S n => split_from sep n cur s'
      | O =>
          if String.prefix sep s
          then cur :: split_from sep (String.length sep - 1) "" s'
          else split_from sep 0 (cur ++ String c "") s'
      end
  end.

Definition Split (s sep : string) : list string := split_from sep 0 "" s.

(** The identifier the metrics query uses for an ALB or NLB: the part of the
    ARN after "loadbalancer/" when there is one. *)
Definition lb_identifier (lb : elbv2types.LoadBalancer) : string :=
  let lbIdentifier := elbv2types.LoadBalancerArn lb in
  if String.eqb (elbv2types.Type_ lb) elbv2types.LoadBalancerTypeEnumApplication
     || String.eqb (elbv2types.Type_ lb) elbv2types.LoadBalancerTypeEnumNetwork
  then match Split lbIdentifier "loadbalancer/" with
       | _ :: part1 :: _ => part1
       | _ => lbIdentifier
       end
  else lbIdentifier.

Definition lb_info (p : Provider) (regionName : string)
  (lb : elbv2types.LoadBalancer) : LoadBalancerInfo.t :=
  let ips := countIPsFromDNS p (elbv2types.DNSName lb) in
  {| LoadBalancerInfo.Region := regionName;
     LoadBalancerInfo.Type_ := elbv2types.Type_ lb;
     LoadBalancerInfo.DNSName := elbv2types.DNSName lb;
     LoadBalancerInfo.IPCount := Z.of_nat (length ips);
     LoadBalancerInfo.TrafficLastWeek :=
       fetchProcessedBytes p (lb_identifier lb) (elbv2types.Type_ lb);
     LoadBalancerInfo.PublicIPs := ips;
     LoadBalancerInfo.Cost := (3.65 * float64_of_len (length ips))%float |}.

Definition classic_lb_info (p : Provider) (regionName : string)
  (lb : elbtypes.LoadBalancerDescription) : LoadBalancerInfo.t :=
  let ips := countIPsFromDNS p (elbtypes.DNSName lb) in
  {| LoadBalancerInfo.Region := regionName;
     LoadBalancerInfo.Type_ := "classic";
     LoadBalancerInfo.DNSName := elbtypes.DNSName lb;
     LoadBalancerInfo.IPCount := Z.of_nat (length ips);
     LoadBalancerInfo.TrafficLastWeek :=
       fetchProcessedBytes p (elbtypes.LoadBalancerName lb) "classic";
     LoadBalancerInfo.PublicIPs := ips;
     LoadBalancerInfo.Cost := (3.65 * float64_of_len (length ips))%float |}.

(** The region goroutine of [fetchAllLoadBalancers]: either list call may
    fail, which sends one error; otherwise it starts one goroutine per load
    balancer, each sending one record. *)
Definition lbs_worker (p : Provider) (region : types.Region)
  : task LoadBalancerInfo.t :=
  let regionName := types.RegionName region in
  match fetchLoadBalancers p regionName with
  | Err err =>
      [SendErr ("failed to fetch LoadBalancers in region " ++ regionName
                ++ ": " ++ err)]
  | Ok lbs =>
      match fetchClassicLoadBalancers p regionName with
      | Err err =>
          [SendErr ("failed to fetch Classic LoadBalancers in region "
                    ++ regionName ++ ": " ++ err)]
      | Ok classicLbs =>
          (map (fun lb => Go [SendRes (lb_info p regionName lb)]) lbs
           ++ map (fun lb => Go [SendRes (classic_lb_info p regionName lb)])
                  classicLbs)%list
      end
  end.

Definition lbs_workers (p : Provider) (regions : list types.Region)
  : list (task LoadBalancerInfo.t) :=
  map (lbs_worker p) regions.

(** [make(chan LoadBalancerInfo)] and [make(chan error)]: no buffer. *)
Definition lbs_discipline : discipline := Channels 0 0.

(** ** The collectors as functions

    [collect] runs the goroutines under the scheduler that always picks the
    first one able to move, for as many steps as any run can take; [None]
    when the caller is not at its [return] by then. *)
Definition collect (R : Type) (d : discipline) (workers : list (task R))
  : option (list R * option error) :=
  let s := run_first d (measure (init workers)) (init workers) in
  if returned s then Some (result_of d s) else None.

Definition fetchAllInstances (p : Provider) (regions : list types.Region) :=
  collect instances_discipline (instances_workers p regions).

Definition fetchAllEIPs (p : Provider) (regions : list types.Region) :=
  collect (eips_discipline regions) (eips_workers p regions).

Definition fetchAllENIs (p : Provider) (regions : list types.Region) :=
  collect (enis_discipline regions) (enis_workers p regions).

Definition fetchAllLoadBalancers (p : Provider) (regions : list types.Region) :=
  collect lbs_discipline (lbs_workers p regions).

(** ** ui.go: the per-category tables and the coordinator *)

Inductive Table : Type :=
| InstancesTable (rows : list EC2InstanceInfo.t)
| EIPsTable (rows : list EIPInfo.t)
| ENIsTable (rows : list ENIInfo.t)
| LBTable (rows : list LoadBalancerInfo.t).

Record ChannelData := {
  table : option Table;
  count : Z;
  cost : float;
  err : option error }.

Section Tables.

(** [sortStructsByIP] sorts the slice in place with [sort.Slice]: the rows
    are the collector's records in some other order. *)
Variable sortStructsByIP : forall A : Type, list A -> (A -> string) -> list A.

Definition total_cost (A : Type) (Cost : A -> float) (rows : list A) : float :=
  fold_left (fun totalCost row => (totalCost + Cost row)%float) rows 0%float.

Definition createAndPopulateInstancesTable
  (fetched : list EC2InstanceInfo.t * option error)
  : option Table * Z * float * option error :=
  match fetched with
  | (_, Some err) => (None, 0%Z, 0%float, Some err)
  | (allInstances, None) =>
      let rows := sortStructsByIP allInstances EC2InstanceInfo.PublicIP in
      (Some (InstancesTable rows), Z.of_nat (length allInstances),
       total_cost EC2InstanceInfo.Cost rows, None)
  end.

Definition createAndPopulateEIPsTable
  (fetched : list EIPInfo.t * option error)
  : option Table * Z * float * option error :=
  match fetched with
  | (_, Some err) => (None, 0%Z, 0%float, Some err)
  | (allEIPs, None) =>
      let rows := sortStructsByIP allEIPs EIPInfo.PublicIP in
      (Some (EIPsTable rows), Z.of_nat (length allEIPs),
       total_cost EIPInfo.Cost rows, None)
  end.

Definition createAndPopulateENIsTable
  (fetched : list ENIInfo.t * option error)
  : option Table * Z * float * option error :=
  match fetched with
  | (_, Some err) => (None, 0%Z, 0%float, Some err)
  | (allENIs, None) =>
      let rows := sortStructsByIP allENIs ENIInfo.PublicIP in
      (Some (ENIsTable rows), Z.of_nat (length allENIs),
       total_cost ENIInfo.Cost rows, None)
  end.

Definition first_public_ip (lb : LoadBalancerInfo.t) : string :=
  match LoadBalancerInfo.PublicIPs lb with
  | ip :: _ => ip
  | [] => ""
  end.

Definition createAndPopulateLBTable
  (fetched : list LoadBalancerInfo.t * option error)
  : option Table * Z * float * option error :=
  match fetched with
  | (_, Some err) => (None, 0%Z, 0%float, Some err)
  | (allLBs, None) =>
      let rows := sortStructsByIP allLBs first_public_ip in
      (Some (LBTable rows),
       fold_left (fun totalIPCount lb =>
                    add_int totalIPCount (LoadBalancerInfo.IPCount lb))
                 rows 0%Z,
       total_cost LoadBalancerInfo.Cost rows, None)
  end.

End Tables.

(** [fetchTableData]: what the category goroutine sends on its channel. *)
Definition fetchTableData (fetched : option Table * Z * float * option error)
  : ChannelData :=
  match fetched with
  | (_, _, _, Some err) =>
      {| table := None; count := 0; cost := 0; err := Some err |}
  | (table, count, cost, None) =>
      {| table := table; count := count; cost := cost; err := None |}
  end.

(** What one [select] of [unpackChannelData] observes on a category
    channel: a message, the channel closed without one, or the timer
    ([TimeoutForENI], ... all 20 seconds) first. *)
Inductive received : Type :=
| Delivered (data : ChannelData)
| Closed
| TimedOut.

(** A category channel: how [%v] prints the channel value, and what the
    receive observes. *)
Record chan := { printed : string; outcome : received }.

Inductive category := ENI | EC2 | LB | EIP.

Fixpoint unpack_loop (channels : list chan) : result (list ChannelData) :=
  match channels with
  | [] => Ok []
  | ch :: rest =>
      match outcome ch with
      | Closed => Err (Errorf0 "channel was closed before data was received")
      | TimedOut =>
          Err ("timeout waiting for data from " ++ printed ch ++ " channel")
      | Delivered data =>
          match err data with
          | Some e => Err e
          | None =>
              match unpack_loop rest with
              | Ok datas => Ok (data :: datas)
              | Err e => Err e
              end
          end
      end
  end.

Definition unpackChannelData (ec2Ch lbCh eipCh eniCh : chan)
  : option (list (option Table)) * option (list Z) * option (list float)
    * option error :=
  match unpack_loop [eniCh; ec2Ch; lbCh; eipCh] with
  | Err e => (None, None, None, Some e)
  | Ok datas =>
      (Some (map table datas), Some (map count datas),
       Some (map cost datas), None)
  end.

(** The channel of a category, in the order the coordinator waits. *)
Definition channel_of (ec2Ch lbCh eipCh eniCh : chan) (c : category) : chan :=
  match c with ENI => eniCh | EC2 => ec2Ch | LB => lbCh | EIP => eipCh end.

Definition delivered_ok (ch : chan) : bool :=
  match outcome ch with
  | Delivered data => match err data with None => true | Some _ => false end
  | _ => false
  end.

(** The category whose wait ends the scan: the first, in waiting order,
    that does not deliver a result. *)
Definition failing (ec2Ch lbCh eipCh eniCh : chan) : option category :=
  find (fun c => negb (delivered_ok (channel_of ec2Ch lbCh eipCh eniCh c)))
       [ENI; EC2; LB; EIP].

Definition crashed_or_timed_out (ch : chan) : bool :=
  match outcome ch with
  | Closed | TimedOut => true
  | Delivered _ => false
  end.

(** * Properties *)

(** ** What the worker bodies send *)

Section Bodies.

Variables (A R : Type).

Lemma task_recs_sends (f : A -> R) (l : list A) :
  task_recs (map (fun x => SendRes (f x)) l) = map f l.
Proof. induction l as [|x l IH]; simpl; [|rewrite <- IH]; reflexivity. Qed.

Lemma task_recs_appends (f : A -> R) (l : list A) :
  task_recs (map (fun x => Append (f x)) l) = map f l.
Proof. induction l as [|x l IH]; simpl; [|rewrite <- IH]; reflexivity. Qed.

Lemma task_recs_spawned (f : A -> R) (l : list A) :
  task_recs (map (fun x => Go [SendRes (f x)]) l) = map f l.
Proof. induction l as [|x l IH]; simpl; [|rewrite <- IH]; reflexivity. Qed.

Lemma task_errs_sends (f : A -> R) (l : list A) :
  task_errs (map (fun x => SendRes (f x)) l) = [].
Proof. induction l as [|x l IH]; simpl; auto. Qed.



Lemma task_logs_appends (f : A -> R) (l : list A) :
  task_logs (map (fun x => Append (f x)) l) = [].
Proof. induction l as [|x l IH]; simpl; auto. Qed.

Lemma appends_chan_free (f : A -> R) (l : list A) :
  existsb (@act_uses_channels R) (map (fun x => Append (f x)) l) = false.
Proof. induction l as [|x l IH]; simpl; auto. Qed.


Lemma task_recs_app (t1 t2 : task R) :
  task_recs (t1 ++ t2)%list = (task_recs t1 ++ task_recs t2)%list.
Proof. apply flat_map_app. Qed.

(** One worker per region, each sending at most one error: the errors
    channel with one slot per region never fills up. *)
Lemma errs_of_workers_le (worker : A -> task R) (regions : list A) :
  (forall region, (length (task_errs (worker region)) <= 1)%nat) ->
  (length (errs_of (map worker regions)) <= length regions)%nat.
Proof.
  intros H. induction regions as [|region regions IH]; simpl; auto.
  rewrite length_app. specialize (H region). lia.
Qed.

Lemma errs_of_workers_nil (worker : A -> task R) (regions : list A) :
  (forall region, In region regions -> task_errs (worker region) = []) ->
  errs_of (map worker regions) = [].
Proof.
  induction regions as [|region regions IH]; intros H; simpl; auto.
  rewrite (H region), IH; simpl; auto. intros; apply H; simpl; auto.
Qed.

Lemma in_recs_of_workers (worker : A -> task R) (regions : list A) (r : R) :
  In r (recs_of (map worker regions)) <->
  exists region, In region regions /\ In r (task_recs (worker region)).
Proof.
  unfold recs_of. rewrite in_flat_map. split.
  - intros (t & Ht & Hr). apply in_map_iff in Ht.
    destruct Ht as (region & <- & Hin). eauto.
  - intros (region & Hin & Hr). exists (worker region). split; auto.
    apply in_map; auto.
Qed.

Lemma in_errs_of_workers (worker : A -> task R) (regions : list A) m :
  In m (errs_of (map worker regions)) <->
  exists region, In region regions /\ In m (task_errs (worker region)).
Proof.
  unfold errs_of. rewrite in_flat_map. split.
  - intros (t & Ht & Hr). apply in_map_iff in Ht.
    destruct Ht as (region & <- & Hin). eauto.
  - intros (region & Hin & Hr). exists (worker region). split; auto.
    apply in_map; auto.
Qed.


End Bodies.

Section CollectorBodies.

Variable p : Provider.

(** *** Network interfaces *)

Lemma enis_worker_recs (region : types.Region) :
  task_recs (enis_worker p region) =
  match fetchENIsInRegion p (types.RegionName region) with
  | Ok enis => map (eni_info (types.RegionName region)) enis
  | Err _ => []
  end.
Proof.
  unfold enis_worker.
  destruct (fetchENIsInRegion p (types.RegionName region)); simpl; auto.
  apply task_recs_sends.
Qed.

Lemma enis_worker_errs (region : types.Region) :
  task_errs (enis_worker p region) =
  match fetchENIsInRegion p (types.RegionName region) with
  | Ok _ => []
  | Err e =>
      ["Failed to fetch ENIs in region " ++ types.RegionName region
       ++ ": " ++ e]
  end.
Proof.
  unfold enis_worker.
  destruct (fetchENIsInRegion p (types.RegionName region)); simpl; auto.
  apply task_errs_sends.
Qed.

Lemma enis_fits (regions : list types.Region) :
  fits (enis_discipline regions) (enis_workers p regions).
Proof.
  unfold fits, enis_discipline, enis_workers.
  apply errs_of_workers_le. intros region. rewrite enis_worker_errs.
  destruct (fetchENIsInRegion p (types.RegionName region)); simpl; lia.
Qed.

(** *** Elastic IPs *)

Lemma eip_loop_errs_le (regionName : string) (eips : list types.Address.t) :
  (length (task_errs (eip_loop p regionName eips)) <= 1)%nat.
Proof.
  induction eips as [|eip rest IH]; simpl; auto.
  destruct (types.Address.InstanceId eip); auto.
  destruct (describeEIPByAssociationID p _ regionName); simpl; auto.
Qed.

Lemma eips_worker_errs_le (region : types.Region) :
  (length (task_errs (eips_worker p region)) <= 1)%nat.
Proof.
  unfold eips_worker.
  destruct (fetchEIPsInRegion p (types.RegionName region)); simpl; auto.
  apply eip_loop_errs_le.
Qed.

Lemma eips_fits (regions : list types.Region) :
  fits (eips_discipline regions) (eips_workers p regions).
Proof.
  unfold fits, eips_discipline, eips_workers.
  apply errs_of_workers_le, eips_worker_errs_le.
Qed.

(** *** Instances *)

Lemma instances_worker_recs (region : types.Region) :
  task_recs (instances_worker p region) =
  match fetchInstancesInRegion p (types.RegionName region) with
  | Ok instances => map (instance_info (types.RegionName region)) instances
  | Err _ => []
  end.
Proof.
  unfold instances_worker.
  destruct (fetchInstancesInRegion p (types.RegionName region)); simpl; auto.
  apply task_recs_appends.
Qed.

Lemma instances_fits (regions : list types.Region) :
  fits instances_discipline (instances_workers p regions).
Proof.
  unfold fits, instances_discipline, instances_workers, chan_free.
  apply forallb_forall. intros t Ht. apply in_map_iff in Ht.
  destruct Ht as (region & <- & _). unfold instances_worker.
  destruct (fetchInstancesInRegion p (types.RegionName region)); simpl; auto.
  now rewrite appends_chan_free.
Qed.

(** *** Load balancers *)

(** Both list calls of the region goroutine succeed. *)
Definition lbs_listed (region : types.Region) : bool :=
  match fetchLoadBalancers p (types.RegionName region) with
  | Err _ => false
  | Ok _ =>
      match fetchClassicLoadBalancers p (types.RegionName region) with
      | Err _ => false
      | Ok _ => true
      end
  end.

Lemma lbs_worker_recs (region : types.Region) :
  task_recs (lbs_worker p region) =
  match fetchLoadBalancers p (types.RegionName region),
        fetchClassicLoadBalancers p (types.RegionName region) with
  | Ok lbs, Ok classicLbs =>
      (map (lb_info p (types.RegionName region)) lbs
       ++ map (classic_lb_info p (types.RegionName region)) classicLbs)%list
  | _, _ => []
  end.
Proof.
  unfold lbs_worker.
  destruct (fetchLoadBalancers p (types.RegionName region)); simpl; auto.
  destruct (fetchClassicLoadBalancers p (types.RegionName region));
    simpl; auto.
  now rewrite task_recs_app, !task_recs_spawned.
Qed.


Lemma lbs_worker_blocks (region : types.Region) :
  lbs_listed region = false ->
  exists e, In (SendErr e) (lbs_worker p region).
Proof.
  unfold lbs_listed, lbs_worker.
  destruct (fetchLoadBalancers p (types.RegionName region)).
  - destruct (fetchClassicLoadBalancers p (types.RegionName region));
      try discriminate.
    intros _. eexists. left. reflexivity.
  - intros _. eexists. left. reflexivity.
Qed.


End CollectorBodies.

(** ** Every record carries the region of the goroutine that built it *)

Section Regions.

Variable p : Provider.

Lemma instances_worker_region (region : types.Region) r :
  In r (task_recs (instances_worker p region)) ->
  EC2InstanceInfo.Region r = types.RegionName region.
Proof.
  rewrite instances_worker_recs.
  destruct (fetchInstancesInRegion p (types.RegionName region));
    [|intros []].
  intros H. apply in_map_iff in H. destruct H as (i & <- & _). reflexivity.
Qed.

Lemma eip_loop_region (regionName : string) (eips : list types.Address.t) r :
  In r (task_recs (eip_loop p regionName eips)) ->
  EIPInfo.Region r = regionName.
Proof.
  induction eips as [|eip rest IH]; simpl; [intros []|].
  destruct (types.Address.InstanceId eip); auto.
  destruct (describeEIPByAssociationID p _ regionName); simpl.
  - intros [<-|H]; auto.
  - intros [].
Qed.

Lemma eips_worker_region (region : types.Region) r :
  In r (task_recs (eips_worker p region)) ->
  EIPInfo.Region r = types.RegionName region.
Proof.
  unfold eips_worker.
  destruct (fetchEIPsInRegion p (types.RegionName region)); simpl.
  - apply eip_loop_region.
  - intros [].
Qed.

Lemma enis_worker_region (region : types.Region) r :
  In r (task_recs (enis_worker p region)) ->
  ENIInfo.Region r = types.RegionName region.
Proof.
  rewrite enis_worker_recs.
  destruct (fetchENIsInRegion p (types.RegionName region)); [|intros []].
  intros H. apply in_map_iff in H. destruct H as (i & <- & _). reflexivity.
Qed.

Lemma lbs_worker_region (region : types.Region) r :
  In r (task_recs (lbs_worker p region)) ->
  LoadBalancerInfo.Region r = types.RegionName region.
Proof.
  rewrite lbs_worker_recs.
  destruct (fetchLoadBalancers p (types.RegionName region)); [|intros []].
  destruct (fetchClassicLoadBalancers p (types.RegionName region));
    [|intros []].
  intros H. apply in_app_or in H.
  destruct H as [H|H]; apply in_map_iff in H;
    destruct H as (i & <- & _); reflexivity.
Qed.

End Regions.

(** C8. In each of the four collectors, under every schedule and at every
    moment of the run, each record the caller holds or that sits in the
    results channel has, as its Region field, the name of one of the regions
    the collector was called with. *)
Theorem C8_record_region_is_queried
  (p : Provider) (regions : list types.Region) (sched : list goroutine) :
  let names := map types.RegionName regions in
  Forall (fun r => In (EC2InstanceInfo.Region r) names)
    (emitted (run instances_discipline sched
                (init (instances_workers p regions))))
  /\ Forall (fun r => In (EIPInfo.Region r) names)
       (emitted (run (eips_discipline regions) sched
                   (init (eips_workers p regions))))
  /\ Forall (fun r => In (LoadBalancerInfo.Region r) names)
       (emitted (run lbs_discipline sched (init (lbs_workers p regions))))
  /\ Forall (fun r => In (ENIInfo.Region r) names)
       (emitted (run (enis_discipline regions) sched
                   (init (enis_workers p regions)))).
Proof.
  intros names. repeat split; apply Forall_forall; intros r Hr;
    apply emitted_was_sent in Hr; apply in_recs_of_workers in Hr;
    destruct Hr as (region & Hin & Hr); unfold names.
  - rewrite (instances_worker_region _ _ _ Hr). now apply in_map.
  - rewrite (eips_worker_region _ _ _ Hr). now apply in_map.
  - rewrite (lbs_worker_region _ _ _ Hr). now apply in_map.
  - rewrite (enis_worker_region _ _ _ Hr). now apply in_map.
Qed.

(** ** Load-balancer records *)

Lemma lbs_worker_counts (p : Provider) (region : types.Region) r :
  In r (task_recs (lbs_worker p region)) ->
  let ips := countIPsFromDNS p (LoadBalancerInfo.DNSName r) in
  LoadBalancerInfo.PublicIPs r = ips /\
  LoadBalancerInfo.IPCount r = Z.of_nat (length ips) /\
  LoadBalancerInfo.Cost r
  = (FlatFeePerPublicIP * float64_of_len (length ips))%float.
Proof.
  rewrite lbs_worker_recs.
  destruct (fetchLoadBalancers p (types.RegionName region)); [|intros []].
  destruct (fetchClassicLoadBalancers p (types.RegionName region));
    [|intros []].
  intros H. apply in_app_or in H.
  destruct H as [H|H]; apply in_map_iff in H;
    destruct H as (lb & <- & _); simpl; auto.
Qed.


(** ** The traffic metric *)

(** C10. [fetchProcessedBytes] returns -1 for a kind other than
    application, network and classic; for each of these three kinds it
    returns 0 when the metrics query fails, which is also what it returns
    when the query succeeds with no data point: from the returned value a
    failed query cannot be told from no traffic. *)
Theorem C10_failed_query_reads_as_no_traffic
  (p : Provider) (lbIdentifier lbType : string) :
  (lbType <> "application" -> lbType <> "network" -> lbType <> "classic" ->
   fetchProcessedBytes p lbIdentifier lbType = (-1)%Z)
  /\ (lbType = "application" \/ lbType = "network" \/ lbType = "classic" ->
      exists namespace dimensionName metricName,
        metric_source lbType = Some (namespace, dimensionName, metricName)
        /\ (forall e,
               GetMetricData p namespace metricName dimensionName lbIdentifier
               = Err e ->
               fetchProcessedBytes p lbIdentifier lbType = 0%Z)
        /\ (GetMetricData p namespace metricName dimensionName lbIdentifier
            = Ok [] \/
            GetMetricData p namespace metricName dimensionName lbIdentifier
            = Ok [[]] ->
            fetchProcessedBytes p lbIdentifier lbType = 0%Z)).
Proof.
  split.
  - intros H1 H2 H3. unfold fetchProcessedBytes, metric_source.
    apply String.eqb_neq in H1, H2, H3. now rewrite H1, H2, H3.
  - intros H.
    assert (Hs : exists src, metric_source lbType = Some src).
    { destruct H as [-> | [-> | ->]]; eexists; reflexivity. }
    destruct Hs as [[[namespace dimensionName] metricName] Hs].
    exists namespace, dimensionName, metricName. split; auto.
    unfold fetchProcessedBytes. rewrite Hs. split.
    + intros e ->. reflexivity.
    + intros [-> | ->]; reflexivity.
Qed.

(** ** The coordinator *)

Lemma unpack_loop_aborts (channels : list chan) :
  existsb (fun ch => negb (delivered_ok ch)) channels = true ->
  exists e, unpack_loop channels = Err e.
Proof.
  induction channels as [|ch rest IH]; simpl; [discriminate|].
  unfold delivered_ok at 1.
  destruct (outcome ch) as [data| |]; simpl; eauto.
  destruct (err data); simpl; eauto.
  intros H. destruct (IH H) as [e ->]. eauto.
Qed.

Lemma unpack_aborts (ec2Ch lbCh eipCh eniCh : chan) (c : category) :
  delivered_ok (channel_of ec2Ch lbCh eipCh eniCh c) = false ->
  exists e,
    unpackChannelData ec2Ch lbCh eipCh eniCh = (None, None, None, Some e).
Proof.
  intros H. unfold unpackChannelData.
  destruct (unpack_loop_aborts [eniCh; ec2Ch; lbCh; eipCh]) as [e ->]; eauto.
  simpl. destruct c; simpl in H; rewrite H; simpl;
    repeat rewrite orb_true_r; reflexivity.
Qed.


(** The reading of "the error names the failing category" used for C2: the
    category at which the scan stopped can be told from the error. *)
Definition names_failing_category : Prop :=
  exists identify : error -> category,
    forall ec2Ch lbCh eipCh eniCh c e,
      failing ec2Ch lbCh eipCh eniCh = Some c ->
      crashed_or_timed_out (channel_of ec2Ch lbCh eipCh eniCh c) = true ->
      unpackChannelData ec2Ch lbCh eipCh eniCh = (None, None, None, Some e) ->
      identify e = c.

(** C2, as amended.  Whenever a category channel is closed without a
    message or times out, [unpackChannelData] returns an error and no data.
    When the scan stops at such a channel, the error of a closed channel is
    the fixed text "channel was closed before data was received", the same
    for every category, and the error of a timeout is built from the printed
    channel value alone. *)
Theorem C2_abort_without_category_name (ec2Ch lbCh eipCh eniCh : chan) :
  ((exists c,
       crashed_or_timed_out (channel_of ec2Ch lbCh eipCh eniCh c) = true) ->
   exists e,
     unpackChannelData ec2Ch lbCh eipCh eniCh = (None, None, None, Some e))
  /\ (forall c,
         failing ec2Ch lbCh eipCh eniCh = Some c ->
         crashed_or_timed_out (channel_of ec2Ch lbCh eipCh eniCh c) = true ->
         unpackChannelData ec2Ch lbCh eipCh eniCh
         = (None, None, None,
            Some (match outcome (channel_of ec2Ch lbCh eipCh eniCh c) with
                  | Closed => "channel was closed before data was received"
                  | _ =>
                      "timeout waiting for data from "
                      ++ printed (channel_of ec2Ch lbCh eipCh eniCh c)
                      ++ " channel"
                  end))).
Proof.
  split.
  - intros [c H]. apply unpack_aborts with (c := c).
    unfold crashed_or_timed_out in H. unfold delivered_ok.
    destruct (outcome (channel_of ec2Ch lbCh eipCh eniCh c));
      [discriminate | reflexivity | reflexivity].
  - intros c Hf Hc. unfold failing in Hf. unfold unpackChannelData.
    simpl in Hf. simpl.
    unfold delivered_ok, crashed_or_timed_out in *.
    destruct (outcome eniCh) as [d1| |] eqn:E1;
      [destruct (err d1) eqn:F1|..]; simpl in Hf;
      try (inversion Hf; subst c; simpl in *; rewrite E1 in *;
           try discriminate; reflexivity).
    destruct (outcome ec2Ch) as [d2| |] eqn:E2;
      [destruct (err d2) eqn:F2|..]; simpl in Hf;
      try (inversion Hf; subst c; simpl in *; rewrite E2 in *;
           try discriminate; reflexivity).
    destruct (outcome lbCh) as [d3| |] eqn:E3;
      [destruct (err d3) eqn:F3|..]; simpl in Hf;
      try (inversion Hf; subst c; simpl in *; rewrite E3 in *;
           try discriminate; reflexivity).
    destruct (outcome eipCh) as [d4| |] eqn:E4;
      [destruct (err d4) eqn:F4|..]; simpl in Hf;
      try (inversion Hf; subst c; simpl in *; rewrite E4 in *;
           try discriminate; reflexivity).
Qed.

(** ** The result of a collector *)

(** The combined error for the failure texts [failures]: absent when there
    is none, otherwise the texts joined with "; " in the order they were
    received, a text that is not empty. *)
Definition combined_error (failures : list string) (e : option error) : Prop :=
  match failures with
  | [] => e = None
  | _ :: _ =>
      exists es,
        Permutation es failures /\ e = Some (Errorf0 (Join es "; "))
        /\ e <> Some ""
  end.

Lemma join_not_empty (es : list string) :
  es <> [] -> (forall m, In m es -> m <> "") -> Join es "; " <> "".
Proof.
  destruct es as [|m es]; [congruence|]. intros _ H.
  assert (Hm : m <> "") by (apply H; left; auto).
  destruct m as [|c m]; [congruence|].
  unfold Join. simpl. destruct es; simpl; discriminate.
Qed.

Section Results.

Variable R : Type.
Variable tasks : list (task R).

Lemma channels_result (rc ec : nat) :
  fits (Channels rc ec) tasks ->
  (forall m, In m (errs_of tasks) -> m <> "") ->
  always_returns (Channels rc ec) tasks
    (fun res => Permutation (fst res) (recs_of tasks)
                /\ combined_error (errs_of tasks) (snd res)).
Proof.
  intros Hfit Hne. apply always_returns_intro; auto.
  intros s Hr Hret.
  pose proof (returned_all Hr Hret) as Hall.
  pose proof (returned_errors Hr Hret) as Herr.
  unfold result_of, combined_error.
  destruct (errs_of tasks) as [|m ms] eqn:E.
  - apply Permutation_sym, Permutation_nil in Herr. rewrite Herr. simpl. auto.
  - destruct (errors s) as [|e es] eqn:Ee.
    + apply Permutation_nil in Herr. discriminate.
    + cbn [fst snd]. split; auto. exists (e :: es).
      split; [exact Herr | split; [reflexivity|]].
      intros H. apply (@join_not_empty (e :: es)).
      * discriminate.
      * intros m0 Hm0. apply Hne. eapply Permutation_in; eauto.
      * unfold Errorf0 in H. congruence.
Qed.

Lemma mutex_result :
  fits Mutex tasks ->
  always_returns Mutex tasks
    (fun res => Permutation (fst res) (recs_of tasks) /\ snd res = None).
Proof.
  intros Hfit. apply always_returns_intro; auto.
  intros s Hr Hret. simpl. split; auto. apply (returned_all Hr Hret).
Qed.

End Results.

(** The records of the regions whose list call succeeded. *)
Definition instances_of_regions (p : Provider) (regions : list types.Region)
  : list EC2InstanceInfo.t :=
  flat_map (fun region =>
              match fetchInstancesInRegion p (types.RegionName region) with
              | Ok instances =>
                  map (instance_info (types.RegionName region)) instances
              | Err _ => []
              end) regions.

Definition enis_of_regions (p : Provider) (regions : list types.Region)
  : list ENIInfo.t :=
  flat_map (fun region =>
              match fetchENIsInRegion p (types.RegionName region) with
              | Ok enis => map (eni_info (types.RegionName region)) enis
              | Err _ => []
              end) regions.

Definition lbs_of_regions (p : Provider) (regions : list types.Region)
  : list LoadBalancerInfo.t :=
  flat_map (fun region =>
              match fetchLoadBalancers p (types.RegionName region),
                    fetchClassicLoadBalancers p (types.RegionName region) with
              | Ok lbs, Ok classicLbs =>
                  (map (lb_info p (types.RegionName region)) lbs
                   ++ map (classic_lb_info p (types.RegionName region))
                          classicLbs)%list
              | _, _ => []
              end) regions.

(** For Elastic IPs: the records the loop built before it stopped. *)
Definition eips_of_regions (p : Provider) (regions : list types.Region)
  : list EIPInfo.t :=
  flat_map (fun region =>
              match fetchEIPsInRegion p (types.RegionName region) with
              | Ok eips =>
                  task_recs (eip_loop p (types.RegionName region) eips)
              | Err _ => []
              end) regions.

(** Every association lookup the loop makes over [eips] succeeds. *)
Definition lookups_succeed (p : Provider) (regionName : string)
  (eips : list types.Address.t) : bool :=
  forallb (fun eip =>
             match types.Address.InstanceId eip with
             | Some _ => true
             | None =>
                 match describeEIPByAssociationID p
                         (ToString (types.Address.AssociationId eip))
                         regionName with
                 | Ok _ => true
                 | Err _ => false
                 end
             end) eips.

Definition eips_region_succeeds (p : Provider) (region : types.Region) : bool :=
  match fetchEIPsInRegion p (types.RegionName region) with
  | Ok eips => lookups_succeed p (types.RegionName region) eips
  | Err _ => false
  end.


Section Gathered.

Variable p : Provider.

Lemma recs_of_workers (R : Type) (worker : types.Region -> task R)
  (regions : list types.Region) :
  recs_of (map worker regions)
  = flat_map (fun region => task_recs (worker region)) regions.
Proof.
  induction regions as [|region regions IH]; simpl; auto.
  now rewrite <- IH.
Qed.

Lemma instances_gathered (regions : list types.Region) :
  recs_of (instances_workers p regions) = instances_of_regions p regions.
Proof.
  unfold instances_workers, instances_of_regions. rewrite recs_of_workers.
  apply flat_map_ext. intros region. apply instances_worker_recs.
Qed.

Lemma enis_gathered (regions : list types.Region) :
  recs_of (enis_workers p regions) = enis_of_regions p regions.
Proof.
  unfold enis_workers, enis_of_regions. rewrite recs_of_workers.
  apply flat_map_ext. intros region. apply enis_worker_recs.
Qed.


Lemma eips_gathered (regions : list types.Region) :
  recs_of (eips_workers p regions) = eips_of_regions p regions.
Proof.
  unfold eips_workers, eips_of_regions. rewrite recs_of_workers.
  apply flat_map_ext. intros region. unfold eips_worker.
  destruct (fetchEIPsInRegion p (types.RegionName region)); auto.
Qed.

Lemma eip_loop_clean (regionName : string) (eips : list types.Address.t) :
  lookups_succeed p regionName eips = true ->
  task_errs (eip_loop p regionName eips) = [].
Proof.
  induction eips as [|eip rest IH]; simpl; auto.
  destruct (types.Address.InstanceId eip); simpl; auto.
  destruct (describeEIPByAssociationID p _ regionName); simpl; auto.
  discriminate.
Qed.

Lemma eips_worker_clean (region : types.Region) :
  eips_region_succeeds p region = true ->
  task_errs (eips_worker p region) = [].
Proof.
  unfold eips_region_succeeds, eips_worker.
  destruct (fetchEIPsInRegion p (types.RegionName region));
    [apply eip_loop_clean | discriminate].
Qed.

Lemma eip_loop_errs_not_empty (regionName : string)
  (eips : list types.Address.t) m :
  In m (task_errs (eip_loop p regionName eips)) -> m <> "".
Proof.
  induction eips as [|eip rest IH]; simpl; [intros []|].
  destruct (types.Address.InstanceId eip); auto.
  destruct (describeEIPByAssociationID p _ regionName); simpl; auto.
  intros [<-|[]]. discriminate.
Qed.

Lemma eips_errs_not_empty (regions : list types.Region) m :
  In m (errs_of (eips_workers p regions)) -> m <> "".
Proof.
  intros H. apply in_errs_of_workers in H.
  destruct H as (region & _ & H). unfold eips_worker in H.
  destruct (fetchEIPsInRegion p (types.RegionName region)).
  - eapply eip_loop_errs_not_empty; eauto.
  - destruct H as [<-|[]]. discriminate.
Qed.

Lemma enis_errs_not_empty (regions : list types.Region) m :
  In m (errs_of (enis_workers p regions)) -> m <> "".
Proof.
  intros H. apply in_errs_of_workers in H.
  destruct H as (region & _ & H). rewrite enis_worker_errs in H.
  destruct (fetchENIsInRegion p (types.RegionName region)).
  - destruct H.
  - destruct H as [<-|[]]. discriminate.
Qed.

End Gathered.

(** The error texts the region goroutines send. *)
Definition eips_failures (p : Provider) (regions : list types.Region)
  : list string := errs_of (eips_workers p regions).

Definition enis_failures (p : Provider) (regions : list types.Region)
  : list string := errs_of (enis_workers p regions).

Lemma any_region_not_listed (p : Provider) (regions : list types.Region) :
  forallb (lbs_listed p) regions = false ->
  exists region, In region regions /\ lbs_listed p region = false.
Proof.
  induction regions as [|region regions IH]; simpl; [discriminate|].
  destruct (lbs_listed p region) eqn:E; simpl.
  - intros H. destruct (IH H) as (r & Hin & Hr). eauto.
  - intros _. eauto.
Qed.

Lemma lbs_worker_stuck (p : Provider) (regions : list types.Region) :
  forallb (lbs_listed p) regions = false ->
  exists t e, In t (lbs_workers p regions) /\ In (SendErr e) t.
Proof.
  intros H. destruct (any_region_not_listed _ _ H) as (region & Hin & Hr).
  destruct (lbs_worker_blocks _ _ Hr) as [e He].
  exists (lbs_worker p region), e. split; auto.
  unfold lbs_workers. now apply in_map.
Qed.

(** ** Concrete accounts used below *)

Module Examples.

(** An account with nothing in it, where every call succeeds. *)
Definition empty_account : Provider :=
  {| DescribeInstances := fun _ => Ok [];
     DescribeAddresses := fun _ => Ok [];
     DescribeAddressesByAssociation := fun _ _ => Ok [];
     DescribeNatGateways := fun _ => Ok [];
     DescribeNetworkInterfaces := fun _ => Ok [];
     DescribeLoadBalancers := fun _ => Ok [];
     DescribeClassicLoadBalancers := fun _ => Ok [];
     LookupIP := fun _ => Ok [];
     GetMetricData := fun _ _ _ _ => Ok [] |}.

Definition us_east_1 : types.Region := {| types.RegionName := "us-east-1" |}.
Definition eu_west_1 : types.Region := {| types.RegionName := "eu-west-1" |}.



Definition eth0 : types.NetworkInterface.t :=
  {| types.NetworkInterface.Association :=
       Some {| types.Association.PublicIp := Some "54.0.0.9" |};
     types.NetworkInterface.NetworkInterfaceId := "eni-1" |}.

(** One interface in us-east-1; the interface listing of eu-west-1 fails. *)
Definition enis_one_region_down : Provider :=
  {| DescribeInstances := fun _ => Ok [];
     DescribeAddresses := fun _ => Ok [];
     DescribeAddressesByAssociation := fun _ _ => Ok [];
     DescribeNatGateways := fun _ => Ok [];
     DescribeNetworkInterfaces :=
       fun regionName =>
         if String.eqb regionName "eu-west-1" then Err "UnauthorizedOperation"
         else Ok [eth0];
     DescribeLoadBalancers := fun _ => Ok [];
     DescribeClassicLoadBalancers := fun _ => Ok [];
     LookupIP := fun _ => Ok [];
     GetMetricData := fun _ _ _ _ => Ok [] |}.

Definition alb : elbv2types.LoadBalancer :=
  {| elbv2types.DNSName := "front.elb.amazonaws.com";
     elbv2types.LoadBalancerArn :=
       "arn:aws:elasticloadbalancing:us-east-1:1:loadbalancer/app/front/50dc";
     elbv2types.Type_ := "application" |}.

(** One application load balancer resolving to three addresses in
    us-east-1; the load-balancer listing of eu-west-1 fails. *)
Definition lbs_one_region_down : Provider :=
  {| DescribeInstances := fun _ => Ok [];
     DescribeAddresses := fun _ => Ok [];
     DescribeAddressesByAssociation := fun _ _ => Ok [];
     DescribeNatGateways := fun _ => Ok [];
     DescribeNetworkInterfaces := fun _ => Ok [];
     DescribeLoadBalancers :=
       fun regionName =>
         if String.eqb regionName "eu-west-1" then Err "AccessDenied"
         else Ok [alb];
     DescribeClassicLoadBalancers := fun _ => Ok [];
     LookupIP := fun _ => Ok ["52.0.0.1"; "52.0.0.2"; "52.0.0.3"];
     GetMetricData := fun _ _ _ _ => Ok [[1024%float]] |}.

(** One application load balancer whose name does not resolve and whose
    metrics query fails; every listing succeeds. *)
Definition lb_unresolved : Provider :=
  {| DescribeInstances := fun _ => Ok [];
     DescribeAddresses := fun _ => Ok [];
     DescribeAddressesByAssociation := fun _ _ => Ok [];
     DescribeNatGateways := fun _ => Ok [];
     DescribeNetworkInterfaces := fun _ => Ok [];
     DescribeLoadBalancers := fun _ => Ok [alb];
     DescribeClassicLoadBalancers := fun _ => Ok [];
     LookupIP := fun _ => Err "no such host";
     GetMetricData := fun _ _ _ _ => Err "Throttling" |}.

Definition idle_eip : types.Address.t :=
  {| types.Address.InstanceId := None;
     types.Address.AssociationId := None;
     types.Address.AllocationId := Some "eipalloc-1";
     types.Address.NetworkInterfaceId := None;
     types.Address.PublicIp := "3.0.0.1";
     types.Address.Tags := [] |}.

Definition instance_eip : types.Address.t :=
  {| types.Address.InstanceId := Some "i-0a1";
     types.Address.AssociationId := Some "eipassoc-2";
     types.Address.AllocationId := Some "eipalloc-2";
     types.Address.NetworkInterfaceId := Some "eni-2";
     types.Address.PublicIp := "3.0.0.2";
     types.Address.Tags := [] |}.

Definition nat_eip : types.Address.t :=
  {| types.Address.InstanceId := None;
     types.Address.AssociationId := Some "eipassoc-3";
     types.Address.AllocationId := Some "eipalloc-3";
     types.Address.NetworkInterfaceId := Some "eni-3";
     types.Address.PublicIp := "3.0.0.3";
     types.Address.Tags := [] |}.

Definition nat_gateway : types.NatGateway.t :=
  {| types.NatGateway.NatGatewayId := Some "nat-1";
     types.NatGateway.NatGatewayAddresses :=
       [{| types.NatGatewayAddress.AllocationId := Some "eipalloc-3" |}] |}.

(** The association-id filter of DescribeAddresses over [addresses]. *)
Definition by_association (addresses : list types.Address.t)
  (associationID : string) : list types.Address.t :=
  filter (fun a =>
            match types.Address.AssociationId a with
            | Some id => String.eqb id associationID
            | None => false
            end) addresses.

(** One region holding the given Elastic IPs and one NAT gateway. *)
Definition eip_account (addresses : list types.Address.t) : Provider :=
  {| DescribeInstances := fun _ => Ok [];
     DescribeAddresses := fun _ => Ok addresses;
     DescribeAddressesByAssociation :=
       fun _ associationID => Ok (by_association addresses associationID);
     DescribeNatGateways := fun _ => Ok [nat_gateway];
     DescribeNetworkInterfaces := fun _ => Ok [];
     DescribeLoadBalancers := fun _ => Ok [];
     DescribeClassicLoadBalancers := fun _ => Ok [];
     LookupIP := fun _ => Ok [];
     GetMetricData := fun _ _ _ _ => Ok [] |}.

Definition delivered (n : Z) : chan :=
  {| printed := "0xc000012060";
     outcome := Delivered {| table := Some (ENIsTable []); count := n;
                             cost := 0; err := None |} |}.

Definition closed : chan := {| printed := "0xc0000120c0"; outcome := Closed |}.

Definition timed_out : chan :=
  {| printed := "0xc000012120"; outcome := TimedOut |}.

End Examples.

(** ** Witnesses and counterexamples for the coordinator and the metric *)


(** C2, as stated, fails: when the network-interface channel is closed
    without a message the error is the very text returned when instead the
    Elastic-IP channel is, so no reading of the error tells the failing
    category. *)
Lemma C2_counterexample :
  failing (Examples.delivered 1) (Examples.delivered 2)
    (Examples.delivered 3) Examples.closed = Some ENI
  /\ failing (Examples.delivered 1) (Examples.delivered 2)
       Examples.closed (Examples.delivered 3) = Some EIP
  /\ unpackChannelData (Examples.delivered 1) (Examples.delivered 2)
       (Examples.delivered 3) Examples.closed
     = unpackChannelData (Examples.delivered 1) (Examples.delivered 2)
         Examples.closed (Examples.delivered 3)
  /\ ~ names_failing_category.
Proof.
  repeat split; try reflexivity.
  intros [identify H].
  assert (H1 := H (Examples.delivered 1) (Examples.delivered 2)
                  (Examples.delivered 3) Examples.closed ENI _
                  eq_refl eq_refl eq_refl).
  assert (H2 := H (Examples.delivered 1) (Examples.delivered 2)
                  Examples.closed (Examples.delivered 3) EIP _
                  eq_refl eq_refl eq_refl).
  simpl in H1, H2. congruence.
Qed.

(** The Elastic-IP channel is closed without a message after the three
    others delivered: the scan stops there with the fixed text. *)
Lemma C2_witness :
  failing (Examples.delivered 1) (Examples.delivered 2)
    Examples.closed (Examples.delivered 3) = Some EIP
  /\ crashed_or_timed_out Examples.closed = true
  /\ unpackChannelData (Examples.delivered 1) (Examples.delivered 2)
       Examples.closed (Examples.delivered 3)
     = (None, None, None,
        Some "channel was closed before data was received").
Proof.
  split; [reflexivity | split; [reflexivity|]].
  apply (proj2 (C2_abort_without_category_name (Examples.delivered 1)
                  (Examples.delivered 2) Examples.closed
                  (Examples.delivered 3)) EIP); reflexivity.
Defined.

(** A gateway load balancer gives -1; an application load balancer whose
    metrics query fails gives 0. *)
Lemma C10_witness :
  fetchProcessedBytes Examples.lb_unresolved "gwy/edge/1" "gateway" = (-1)%Z
  /\ fetchProcessedBytes Examples.lb_unresolved "app/front/50dc" "application"
     = 0%Z.
Proof.
  split.
  - apply (proj1 (C10_failed_query_reads_as_no_traffic
                    Examples.lb_unresolved "gwy/edge/1" "gateway"));
      discriminate.
  - destruct (proj2 (C10_failed_query_reads_as_no_traffic
                       Examples.lb_unresolved "app/front/50dc" "application")
                (or_introl eq_refl))
      as (namespace & dimensionName & metricName & Hs & Hfail & _).
    apply (Hfail "Throttling"). reflexivity.
Defined.

(** ** The combined error of each collector *)

Lemma always_returns_weaken (R : Type) (d : discipline) (tasks : list (task R))
  (P Q : list R * option error -> Prop) :
  (forall res, P res -> Q res) ->
  always_returns d tasks P -> always_returns d tasks Q.
Proof.
  intros HPQ H sched. destruct (H sched) as (H1 & H2 & H3 & H4).
  repeat split; auto.
Qed.

(** The collector as a function agrees with the runs: when the bodies fit
    the discipline it returns, with the result of one of the runs. *)
Lemma collect_returns (R : Type) (d : discipline) (tasks : list (task R))
  (P : list R * option error -> Prop) :
  fits d tasks -> always_returns d tasks P ->
  exists res, collect d tasks = Some res /\ P res.
Proof.
  intros Hfit H. unfold collect.
  assert (Hret : returned (run_first d (measure (init tasks)) (init tasks))
                 = true)
    by (apply run_first_returns with (tasks := tasks); auto;
        apply reach_init).
  assert (Hr : reachable d tasks
                 (run_first d (measure (init tasks)) (init tasks)))
    by (apply run_first_reachable, reach_init).
  destruct (reachable_is_run Hr) as [sched Hs].
  rewrite Hret. eexists. split; [reflexivity|].
  rewrite Hs. apply (H sched). now rewrite <- Hs.
Qed.

Lemma eips_collector (p : Provider) (regions : list types.Region) :
  always_returns (eips_discipline regions) (eips_workers p regions)
    (fun res => Permutation (fst res) (eips_of_regions p regions)
                /\ combined_error (eips_failures p regions) (snd res)).
Proof.
  rewrite <- eips_gathered. apply channels_result.
  - apply eips_fits.
  - apply eips_errs_not_empty.
Qed.

Lemma enis_collector (p : Provider) (regions : list types.Region) :
  always_returns (enis_discipline regions) (enis_workers p regions)
    (fun res => Permutation (fst res) (enis_of_regions p regions)
                /\ combined_error (enis_failures p regions) (snd res)).
Proof.
  rewrite <- enis_gathered. apply channels_result.
  - apply enis_fits.
  - apply enis_errs_not_empty.
Qed.

Lemma instances_collector (p : Provider) (regions : list types.Region) :
  always_returns instances_discipline (instances_workers p regions)
    (fun res => Permutation (fst res) (instances_of_regions p regions)
                /\ snd res = None).
Proof.
  rewrite <- instances_gathered. apply mutex_result, instances_fits.
Qed.



Lemma enis_fetch_failure_sent (p : Provider) (regions : list types.Region)
  (region : types.Region) (e : error) :
  In region regions ->
  fetchENIsInRegion p (types.RegionName region) = Err e ->
  In ("Failed to fetch ENIs in region " ++ types.RegionName region
      ++ ": " ++ e) (enis_failures p regions).
Proof.
  intros Hin He. apply in_errs_of_workers. exists region. split; auto.
  rewrite enis_worker_errs, He. left. reflexivity.
Qed.

Lemma eips_no_failure (p : Provider) (regions : list types.Region) :
  forallb (eips_region_succeeds p) regions = true ->
  eips_failures p regions = [].
Proof.
  intros H. apply errs_of_workers_nil. intros region Hin.
  apply eips_worker_clean. rewrite forallb_forall in H. auto.
Qed.





(** ** The load-balancer collector when a regional listing fails *)

(** In the three collectors with channels: whenever the caller is at its
    [return], each channel has been closed exactly once, by the finalizer,
    which has exited; and a channel is closed only when no worker (of the
    first or of the second level) is left.  No worker body contains a
    [close], and the caller has none. *)
Lemma channels_closed_once (R : Type) (d : discipline)
  (workers : list (task R)) (sched : list goroutine) :
  uses_channels d = true ->
  let s := run d sched (init workers) in
  (returned s = true ->
   resClosed s = 1%nat /\ errClosed s = 1%nat /\ fin s = FExited)
  /\ (resClosed s <= 1)%nat /\ (errClosed s <= resClosed s)%nat
  /\ ((0 < resClosed s)%nat -> pending s = [] /\ threads s = []).
Proof.
  intros Hd s.
  assert (Hr : reachable d workers s) by apply reachable_run, reach_init.
  destruct (closed_no_workers Hr) as (H1 & H2 & H3 & H4).
  split; [|split; [|split]]; auto.
  intros Hret. apply (returned_closed_once Hr Hret Hd).
Qed.

(** C4, at the failing input.  When the listing of one region fails, the
    load-balancer collector returns under no schedule: no record sequence
    is returned at all, so the records of the regions that succeeded never
    reach the caller of the collector. *)
Theorem C4_lb_failed_region_never_returns
  (p : Provider) (regions : list types.Region) :
  forallb (lbs_listed p) regions = false ->
  (forall sched,
      returned (run lbs_discipline sched (init (lbs_workers p regions)))
      = false)
  /\ fetchAllLoadBalancers p regions = None.
Proof.
  intros H.
  assert (Hn : forall s,
             reachable lbs_discipline (lbs_workers p regions) s ->
             returned s = false).
  { intros s Hr.
    apply (never_returns (rc := 0) (lbs_worker_stuck _ _ H) Hr). }
  split.
  - intros sched. apply Hn. apply reachable_run, reach_init.
  - unfold fetchAllLoadBalancers, collect.
    rewrite Hn; [reflexivity|]. apply run_first_reachable, reach_init.
Qed.

(** The listing of eu-west-1 fails; us-east-1 has one load balancer, whose
    record is received but never returned. *)
Lemma C4_witness :
  forallb (lbs_listed Examples.lbs_one_region_down)
    [Examples.us_east_1; Examples.eu_west_1] = false
  /\ lbs_of_regions Examples.lbs_one_region_down
       [Examples.us_east_1; Examples.eu_west_1]
     = [lb_info Examples.lbs_one_region_down "us-east-1" Examples.alb]
  /\ fetchAllLoadBalancers Examples.lbs_one_region_down
       [Examples.us_east_1; Examples.eu_west_1] = None.
Proof.
  split; [reflexivity | split; [reflexivity|]].
  apply (C4_lb_failed_region_never_returns Examples.lbs_one_region_down
           [Examples.us_east_1; Examples.eu_west_1]).
  reflexivity.
Defined.

(** C9, at the failing input.  When the listing of one region fails in the
    load-balancer collector, under every schedule neither channel is ever
    closed and the finalizer never exits; every run performs a bounded
    number of actions and can be continued to a state where the caller
    (ranging over the results channel), the finalizer (in [wg.Wait()]) and
    the failing worker (sending on the errors channel) are all blocked:
    draining does not terminate. *)
Theorem C9_lb_failed_region_deadlocks
  (p : Provider) (regions : list types.Region) :
  forallb (lbs_listed p) regions = false ->
  (forall sched,
      let s := run lbs_discipline sched (init (lbs_workers p regions)) in
      resClosed s = 0%nat /\ errClosed s = 0%nat /\ fin s <> FExited)
  /\ (forall sched,
         (moves lbs_discipline sched (init (lbs_workers p regions))
          <= measure (init (lbs_workers p regions)))%nat
         /\ exists more,
             deadlocked lbs_discipline
               (run lbs_discipline (sched ++ more)
                  (init (lbs_workers p regions))) = true).
Proof.
  intros H. pose proof (lbs_worker_stuck _ _ H) as Hs. split.
  - intros sched s.
    destruct (never_returns (rc := 0) Hs (s := s)) as (_ & H1 & H2 & _ & H3).
    + apply reachable_run, reach_init.
    + auto.
  - intros sched. split.
    { pose proof (moves_bounded lbs_discipline sched
                    (init (lbs_workers p regions))). lia. }
    destruct (some_run_deadlocks (rc := 0) Hs
                (s := run lbs_discipline sched
                        (init (lbs_workers p regions)))) as [more Hm].
    + apply reachable_run, reach_init.
    + exists more. now rewrite run_app.
Qed.

(** At the same input: the channels are open after any schedule, and the
    scheduler that runs the first goroutine able to move ends in a
    deadlock, the record of us-east-1 received and the caller not at its
    [return]. *)
Lemma C9_witness :
  forallb (lbs_listed Examples.lbs_one_region_down)
    [Examples.us_east_1; Examples.eu_west_1] = false
  /\ resClosed
       (run lbs_discipline [GMain; GMain; GMain; GWorker 1; GFinalizer]
          (init (lbs_workers Examples.lbs_one_region_down
                   [Examples.us_east_1; Examples.eu_west_1]))) = 0%nat
  /\ deadlocked lbs_discipline
       (run_first lbs_discipline 100
          (init (lbs_workers Examples.lbs_one_region_down
                   [Examples.us_east_1; Examples.eu_west_1]))) = true
  /\ fetchAllLoadBalancers Examples.lbs_one_region_down
       [Examples.us_east_1; Examples.eu_west_1] = None.
Proof.
  split; [reflexivity|]. split; [|split; vm_compute; reflexivity].
  apply (proj1 (C9_lb_failed_region_deadlocks Examples.lbs_one_region_down
                  [Examples.us_east_1; Examples.eu_west_1] eq_refl)
           [GMain; GMain; GMain; GWorker 1; GFinalizer]).
Defined.

(** ** Where each kind of failure goes *)








(** ** The Elastic-IP category total *)

(** The addresses the regional fetches return, each with its region. *)
Definition addresses_of_regions (p : Provider) (regions : list types.Region)
  : list (string * types.Address.t) :=
  flat_map (fun region =>
              match fetchEIPsInRegion p (types.RegionName region) with
              | Ok eips => map (pair (types.RegionName region)) eips
              | Err _ => []
              end) regions.

Definition all_eips_listed (p : Provider) (regions : list types.Region)
  : bool :=
  forallb (fun region =>
             match fetchEIPsInRegion p (types.RegionName region) with
             | Ok _ => true
             | Err _ => false
             end) regions.

(** The record, if any, one iteration of the loop sends for an address. *)
Definition eip_row (p : Provider) (located : string * types.Address.t)
  : list EIPInfo.t :=
  let (regionName, eip) := located in
  match types.Address.InstanceId eip with
  | Some _ => []
  | None =>
      match describeEIPByAssociationID p
              (ToString (types.Address.AssociationId eip)) regionName with
      | Ok associationTarget => [eip_info regionName eip associationTarget]
      | Err _ => []
      end
  end.

Definition lookup_succeeds (p : Provider) (located : string * types.Address.t)
  : bool :=
  lookups_succeed p (fst located) [snd located].

Section Totals.

Variable p : Provider.

Lemma eip_loop_rows (regionName : string) (eips : list types.Address.t) :
  lookups_succeed p regionName eips = true ->
  task_recs (eip_loop p regionName eips)
  = flat_map (fun eip => eip_row p (regionName, eip)) eips.
Proof.
  induction eips as [|eip rest IH]; simpl; auto.
  destruct (types.Address.InstanceId eip); simpl; auto.
  destruct (describeEIPByAssociationID p _ regionName); simpl;
    [|discriminate].
  intros H. now rewrite (IH H).
Qed.

Lemma lookups_succeed_each (regionName : string)
  (eips : list types.Address.t) :
  (forall eip, In eip eips -> lookup_succeeds p (regionName, eip) = true) ->
  lookups_succeed p regionName eips = true.
Proof.
  intros H. unfold lookups_succeed. apply forallb_forall. intros eip Hin.
  specialize (H eip Hin). unfold lookup_succeeds, lookups_succeed in H.
  simpl in H. now rewrite andb_true_r in H.
Qed.

Lemma in_addresses_of_regions (regions : list types.Region)
  (region : types.Region) (eips : list types.Address.t)
  (eip : types.Address.t) :
  In region regions ->
  fetchEIPsInRegion p (types.RegionName region) = Ok eips ->
  In eip eips ->
  In (types.RegionName region, eip) (addresses_of_regions p regions).
Proof.
  intros Hin Hf He. unfold addresses_of_regions. apply in_flat_map.
  exists region. split; auto. rewrite Hf. now apply in_map.
Qed.

Lemma regions_succeed (regions : list types.Region) :
  all_eips_listed p regions = true ->
  (forall located,
      In located (addresses_of_regions p regions) ->
      lookup_succeeds p located = true) ->
  forallb (eips_region_succeeds p) regions = true.
Proof.
  intros Hl Hs. apply forallb_forall. intros region Hin.
  unfold all_eips_listed in Hl. rewrite forallb_forall in Hl.
  specialize (Hl region Hin). unfold eips_region_succeeds.
  destruct (fetchEIPsInRegion p (types.RegionName region)) as [eips|] eqn:E;
    [|discriminate].
  apply lookups_succeed_each. intros eip He. apply Hs.
  eapply in_addresses_of_regions; eauto.
Qed.

Lemma eips_rows (regions : list types.Region) :
  forallb (eips_region_succeeds p) regions = true ->
  eips_of_regions p regions
  = flat_map (eip_row p) (addresses_of_regions p regions).
Proof.
  unfold eips_of_regions, addresses_of_regions.
  induction regions as [|region regions IH]; simpl; auto.
  intros H. apply andb_prop in H. destruct H as [H1 H2].
  rewrite flat_map_app, <- (IH H2). f_equal.
  unfold eips_region_succeeds in H1.
  destruct (fetchEIPsInRegion p (types.RegionName region)) as [eips|];
    [|discriminate].
  rewrite (eip_loop_rows _ _ H1). clear.
  induction eips as [|eip rest IH]; cbn [flat_map map]; auto.
  now rewrite IH.
Qed.

End Totals.

(** C3, as amended.  All regional fetches succeed and the regions hold
    exactly two Elastic IPs: one unassociated (no instance, no association,
    the lookup resolving to no target) and one associated (its association
    resolving to a target).  Then under every schedule the collector
    returns, and the Elastic-IP table built from what it returns has
    - two rows and total cost 10.95 = 7.30 + 3.65 when the associated
      address is not attached to an instance (a NAT gateway, say);
    - one row and total cost 7.30 when it is attached to an instance: the
      loop skips such an address. *)
Theorem C3_eip_category_total
  (sortStructsByIP : forall A : Type, list A -> (A -> string) -> list A)
  (p : Provider) (regions : list types.Region)
  (region1 region2 : string) (unassociated associated : types.Address.t)
  (target : string) :
  (forall (A : Type) (l : list A) key,
      Permutation (sortStructsByIP A l key) l) ->
  all_eips_listed p regions = true ->
  Permutation (addresses_of_regions p regions)
    [(region1, unassociated); (region2, associated)] ->
  types.Address.InstanceId unassociated = None ->
  types.Address.AssociationId unassociated = None ->
  describeEIPByAssociationID p "" region1 = Ok "" ->
  describeEIPByAssociationID p
    (ToString (types.Address.AssociationId associated)) region2
  = Ok target ->
  target <> "" ->
  always_returns (eips_discipline regions) (eips_workers p regions)
    (fun res =>
       exists rows,
         createAndPopulateEIPsTable sortStructsByIP res
         = match types.Address.InstanceId associated with
           | None => (Some (EIPsTable rows), 2%Z, 10.95%float, None)
           | Some _ => (Some (EIPsTable rows), 1%Z, 7.3%float, None)
           end).
Proof.
  intros Hsort Hlisted Hperm Hu1 Hu2 Hu3 Ha Ht.
  assert (Hok : forall located,
             In located (addresses_of_regions p regions) ->
             lookup_succeeds p located = true).
  { intros located Hin. apply (Permutation_in _ Hperm) in Hin.
    unfold lookup_succeeds, lookups_succeed.
    destruct Hin as [<-|[<-|[]]]; simpl.
    - rewrite Hu1, Hu2. simpl. now rewrite Hu3.
    - destruct (types.Address.InstanceId associated); auto. now rewrite Ha. }
  pose proof (regions_succeed _ _ Hlisted Hok) as Hsucc.
  pose proof (eips_no_failure _ _ Hsucc) as Hnone.
  pose proof (eips_rows _ _ Hsucc) as Hrows.
  assert (Hexp : Permutation (eips_of_regions p regions)
                   (eip_row p (region1, unassociated)
                    ++ eip_row p (region2, associated))%list).
  { rewrite Hrows. rewrite (Permutation_flat_map (eip_row p) Hperm).
    simpl. now rewrite app_nil_r. }
  simpl in Hexp. rewrite Hu1, Hu2 in Hexp. simpl in Hexp.
  rewrite Hu3 in Hexp. simpl in Hexp.
  apply String.eqb_neq in Ht.
  eapply always_returns_weaken; [|apply eips_collector].
  intros [l e] [Hl He]. simpl in Hl, He. rewrite Hnone in He. simpl in He.
  subst e. unfold createAndPopulateEIPsTable.
  exists (sortStructsByIP _ l EIPInfo.PublicIP).
  pose proof (Permutation_trans (Hsort _ l EIPInfo.PublicIP)
                (Permutation_trans Hl Hexp)) as Hs.
  pose proof (Permutation_length (Permutation_trans Hl Hexp)) as Hlen.
  destruct (types.Address.InstanceId associated).
  - simpl in Hs, Hlen. rewrite Hlen.
    apply Permutation_sym, Permutation_length_1_inv in Hs. rewrite Hs.
    unfold total_cost. simpl. unfold eip_cost. simpl. reflexivity.
  - rewrite Ha in Hs, Hlen. simpl in Hs, Hlen. rewrite Hlen.
    apply Permutation_sym, Permutation_length_2_inv in Hs.
    destruct Hs as [Hs|Hs]; rewrite Hs; unfold total_cost; simpl;
      unfold eip_cost; rewrite Ht; simpl; reflexivity.
Qed.

(** C3, as stated, fails: one unassociated Elastic IP and one attached to
    an instance; the collector returns the first only, and the category
    total is 7.30, not 10.95. *)
Lemma C3_counterexample :
  fetchAllEIPs (Examples.eip_account [Examples.idle_eip; Examples.instance_eip])
    [Examples.us_east_1]
  = Some ([eip_info "us-east-1" Examples.idle_eip ""], None)
  /\ createAndPopulateEIPsTable (fun _ l _ => l)
       ([eip_info "us-east-1" Examples.idle_eip ""], None)
     = (Some (EIPsTable [eip_info "us-east-1" Examples.idle_eip ""]),
        1%Z, 7.3%float, None)
  /\ (7.3 =? 10.95)%float = false.
Proof. repeat split; vm_compute; reflexivity. Qed.

(** One unassociated Elastic IP and one held by a NAT gateway, in one
    region: two rows, total 10.95. *)
Lemma C3_witness :
  all_eips_listed
    (Examples.eip_account [Examples.idle_eip; Examples.nat_eip])
    [Examples.us_east_1] = true
  /\ describeEIPByAssociationID
       (Examples.eip_account [Examples.idle_eip; Examples.nat_eip])
       "eipassoc-3" "us-east-1" = Ok "NAT Gateway: nat-1"
  /\ always_returns (eips_discipline [Examples.us_east_1])
       (eips_workers
          (Examples.eip_account [Examples.idle_eip; Examples.nat_eip])
          [Examples.us_east_1])
       (fun res =>
          exists rows,
            createAndPopulateEIPsTable (fun _ l _ => l) res
            = (Some (EIPsTable rows), 2%Z, 10.95%float, None)).
Proof.
  split; [reflexivity | split; [reflexivity|]].
  apply (@C3_eip_category_total (fun _ l _ => l)
           (Examples.eip_account [Examples.idle_eip; Examples.nat_eip])
           [Examples.us_east_1] "us-east-1" "us-east-1"
           Examples.idle_eip Examples.nat_eip "NAT Gateway: nat-1").
  - intros A l key. apply Permutation_refl.
  - reflexivity.
  - apply Permutation_refl.
  - reflexivity.
  - reflexivity.
  - reflexivity.
  - reflexivity.
  - discriminate.
Defined.

(** ** The collectors as functions *)

(** Read as functions (one schedule), the Elastic-IP, network-interface and
    instance collectors return what the runs return. *)
Lemma fetchAll_returns (p : Provider) (regions : list types.Region) :
  (exists res,
      fetchAllEIPs p regions = Some res
      /\ Permutation (fst res) (eips_of_regions p regions)
      /\ combined_error (eips_failures p regions) (snd res))
  /\ (exists res,
         fetchAllENIs p regions = Some res
         /\ Permutation (fst res) (enis_of_regions p regions)
         /\ combined_error (enis_failures p regions) (snd res))
  /\ (exists res,
         fetchAllInstances p regions = Some res
         /\ Permutation (fst res) (instances_of_regions p regions)
         /\ snd res = None).
Proof.
  split; [|split].
  - apply (collect_returns (eips_fits p regions) (eips_collector p regions)).
  - apply (collect_returns (enis_fits p regions) (enis_collector p regions)).
  - apply (collect_returns (instances_fits p regions)
             (instances_collector p regions)).
Qed.

(** A collector that returns records together with an error makes its
    category deliver a failure: the table builders drop the records
    ([return nil, 0, 0, err]) and [fetchTableData] sends the error alone. *)
Lemma partial_result_is_delivered_as_failure
  (sortStructsByIP : forall A : Type, list A -> (A -> string) -> list A)
  (e : error) :
  (forall l, fetchTableData
               (createAndPopulateInstancesTable sortStructsByIP (l, Some e))
             = {| table := None; count := 0; cost := 0; err := Some e |})
  /\ (forall l, fetchTableData
                  (createAndPopulateEIPsTable sortStructsByIP (l, Some e))
                = {| table := None; count := 0; cost := 0; err := Some e |})
  /\ (forall l, fetchTableData
                  (createAndPopulateENIsTable sortStructsByIP (l, Some e))
                = {| table := None; count := 0; cost := 0; err := Some e |})
  /\ (forall l, fetchTableData
                  (createAndPopulateLBTable sortStructsByIP (l, Some e))
                = {| table := None; count := 0; cost := 0; err := Some e |}).
Proof. repeat split. Qed.

(** * Further properties of the code *)

(** ** Tags *)

(** X1. [getTagValue] returns the value of the first tag whose key is the
    one asked for, and the empty string when no tag has that key. *)
Theorem X1_getTagValue_first_match (tags : list types.Tag) (key : string) :
  ((forall tag, In tag tags -> types.Key tag <> key) ->
   getTagValue tags key = "")
  /\ (forall before tag after,
         tags = (before ++ tag :: after)%list ->
         (forall t, In t before -> types.Key t <> key) ->
         types.Key tag = key ->
         getTagValue tags key = types.Value tag).
Proof.
  split.
  - induction tags as [|t rest IH]; simpl; auto.
    intros H. assert (Ht : types.Key t <> key) by (apply H; auto).
    apply String.eqb_neq in Ht. rewrite Ht. apply IH. intros; apply H; auto.
  - intros before. revert tags.
    induction before as [|t before IH]; intros tags tag after -> Hb Hk; simpl.
    + apply String.eqb_eq in Hk. now rewrite Hk.
    + assert (Ht : types.Key t <> key) by (apply Hb; left; auto).
      apply String.eqb_neq in Ht. rewrite Ht.
      apply (IH _ tag after eq_refl); auto. intros; apply Hb; right; auto.
Qed.

Lemma X1_witness :
  getTagValue
    [{| types.Key := "env"; types.Value := "prod" |};
     {| types.Key := "Name"; types.Value := "web" |};
     {| types.Key := "Name"; types.Value := "old" |}] "Name" = "web"
  /\ getTagValue [{| types.Key := "env"; types.Value := "prod" |}] "Name"
     = "".
Proof.
  split.
  - apply (proj2 (X1_getTagValue_first_match _ "Name")
             [{| types.Key := "env"; types.Value := "prod" |}]
             {| types.Key := "Name"; types.Value := "web" |}
             [{| types.Key := "Name"; types.Value := "old" |}]).
    + reflexivity.
    + intros t [<-|[]]. discriminate.
    + reflexivity.
  - apply (proj1 (X1_getTagValue_first_match
                    [{| types.Key := "env"; types.Value := "prod" |}]
                    "Name")).
    intros t [<-|[]]. discriminate.
Defined.

(** X2. [getNameTagValue] is the first non-empty one of the values of the
    tags Name, aws:cloudformation:stack-name and aws:autoscaling:groupName,
    in this order; a Name tag with an empty value counts as missing; the
    result is empty exactly when all three are. *)
Theorem X2_getNameTagValue_fallback (tags : list types.Tag) :
  let name := getTagValue tags "Name" in
  let stack := getTagValue tags "aws:cloudformation:stack-name" in
  let group := getTagValue tags "aws:autoscaling:groupName" in
  (name <> "" -> getNameTagValue tags = name)
  /\ (name = "" -> stack <> "" -> getNameTagValue tags = stack)
  /\ (name = "" -> stack = "" -> getNameTagValue tags = group)
  /\ (getNameTagValue tags = "" <-> name = "" /\ stack = "" /\ group = "").
Proof.
  intros name stack group. unfold getNameTagValue.
  fold name stack group. clearbody name stack group. cbv zeta.
  destruct (String.eqb name "") eqn:En.
  - apply String.eqb_eq in En.
    destruct (String.eqb stack "") eqn:Es.
    + apply String.eqb_eq in Es. intuition (try congruence).
    + apply String.eqb_neq in Es. intuition (try congruence).
  - rewrite En. apply String.eqb_neq in En. intuition (try congruence).
Qed.

Lemma X2_witness :
  getNameTagValue
    [{| types.Key := "Name"; types.Value := "" |};
     {| types.Key := "aws:autoscaling:groupName"; types.Value := "asg-1" |}]
  = "asg-1".
Proof.
  apply (proj1 (proj2 (proj2
           (X2_getNameTagValue_fallback
              [{| types.Key := "Name"; types.Value := "" |};
               {| types.Key := "aws:autoscaling:groupName";
                  types.Value := "asg-1" |}]))));
    reflexivity.
Defined.

(** ** Which resources become records *)

Lemma instances_worker_origin (p : Provider) (region : types.Region) r :
  In r (task_recs (instances_worker p region)) ->
  exists reservations instance,
    DescribeInstances p (types.RegionName region) = Ok reservations
    /\ In instance (concat reservations)
    /\ types.Instance.PublicIpAddress instance
       = Some (EC2InstanceInfo.PublicIP r)
    /\ EC2InstanceInfo.PublicIP r <> ""
    /\ r = instance_info (types.RegionName region) instance.
Proof.
  rewrite instances_worker_recs. unfold fetchInstancesInRegion.
  destruct (DescribeInstances p (types.RegionName region))
    as [reservations|]; [|intros []].
  intros H. apply in_map_iff in H. destruct H as (instance & <- & Hin).
  apply filter_In in Hin. destruct Hin as [Hin Hpub].
  exists reservations, instance. unfold has_public_ip in Hpub. simpl.
  destruct (types.Instance.PublicIpAddress instance) as [ip|];
    [|discriminate].
  simpl. apply negb_true_iff, String.eqb_neq in Hpub. auto.
Qed.

Lemma enis_worker_origin (p : Provider) (region : types.Region) r :
  In r (task_recs (enis_worker p region)) ->
  exists networkInterfaces eni,
    DescribeNetworkInterfaces p (types.RegionName region)
    = Ok networkInterfaces
    /\ In eni networkInterfaces
    /\ eni_public_ip eni = Some (ENIInfo.PublicIP r)
    /\ ENIInfo.PublicIP r <> ""
    /\ r = eni_info (types.RegionName region) eni.
Proof.
  rewrite enis_worker_recs. unfold fetchENIsInRegion.
  destruct (DescribeNetworkInterfaces p (types.RegionName region))
    as [networkInterfaces|]; [|intros []].
  intros H. apply in_map_iff in H. destruct H as (eni & <- & Hin).
  apply filter_In in Hin. destruct Hin as [Hin Hpub].
  exists networkInterfaces, eni. unfold eni_has_public_ip in Hpub. simpl.
  destruct (eni_public_ip eni) as [ip|]; [|discriminate].
  simpl. apply negb_true_iff, String.eqb_neq in Hpub. auto.
Qed.

(** X3. Under every schedule, every instance record and every
    network-interface record costs exactly 3.65, has a non-empty public
    address, and was built from a resource that the listing of one of the
    queried regions returned with that public address: a resource without a
    public address never becomes a record. *)
Theorem X3_records_have_a_public_address
  (p : Provider) (regions : list types.Region) (sched : list goroutine) :
  Forall (fun r =>
            EC2InstanceInfo.Cost r = 3.65%float
            /\ EC2InstanceInfo.PublicIP r <> ""
            /\ exists region reservations instance,
                In region regions
                /\ DescribeInstances p (types.RegionName region)
                   = Ok reservations
                /\ In instance (concat reservations)
                /\ types.Instance.PublicIpAddress instance
                   = Some (EC2InstanceInfo.PublicIP r)
                /\ r = instance_info (types.RegionName region) instance)
         (emitted (run instances_discipline sched
                     (init (instances_workers p regions))))
  /\ Forall (fun r =>
               ENIInfo.Cost r = 3.65%float
               /\ ENIInfo.PublicIP r <> ""
               /\ exists region networkInterfaces eni,
                   In region regions
                   /\ DescribeNetworkInterfaces p (types.RegionName region)
                      = Ok networkInterfaces
                   /\ In eni networkInterfaces
                   /\ eni_public_ip eni = Some (ENIInfo.PublicIP r)
                   /\ r = eni_info (types.RegionName region) eni)
            (emitted (run (enis_discipline regions) sched
                        (init (enis_workers p regions)))).
Proof.
  split; apply Forall_forall; intros r Hr;
    apply emitted_was_sent in Hr; apply in_recs_of_workers in Hr;
    destruct Hr as (region & Hin & Hr).
  - destruct (instances_worker_origin _ _ _ Hr)
      as (reservations & instance & H1 & H2 & H3 & H4 & H5).
    split; [subst r; reflexivity|]. split; auto.
    exists region, reservations, instance. auto.
  - destruct (enis_worker_origin _ _ _ Hr)
      as (networkInterfaces & eni & H1 & H2 & H3 & H4 & H5).
    split; [subst r; reflexivity|]. split; auto.
    exists region, networkInterfaces, eni. auto.
Qed.

(** ** Elastic IPs: the association lookup and the loop *)

(** X4. [describeEIPByAssociationID] fails exactly when the filtered
    address query fails, or when the first address it returns has no
    instance but a network interface and the NAT-gateway query fails.
    Otherwise it yields the empty target, "Instance: " with an instance id,
    or "NAT Gateway: " with the id of a gateway listed in the region; an
    empty answer to the address query gives the empty target. *)
Theorem X4_association_lookup_outcomes
  (p : Provider) (associationID regionName : string) :
  (forall e,
      describeEIPByAssociationID p associationID regionName = Err e <->
      DescribeAddressesByAssociation p regionName associationID = Err e
      \/ exists address0 rest eni,
          DescribeAddressesByAssociation p regionName associationID
          = Ok (address0 :: rest)
          /\ types.Address.InstanceId address0 = None
          /\ types.Address.NetworkInterfaceId address0 = Some eni
          /\ DescribeNatGateways p regionName = Err e)
  /\ (forall target,
         describeEIPByAssociationID p associationID regionName = Ok target ->
         target = ""
         \/ (exists instanceId, target = "Instance: " ++ instanceId)
         \/ (exists natGateways natGateway,
                DescribeNatGateways p regionName = Ok natGateways
                /\ In natGateway natGateways
                /\ target
                   = "NAT Gateway: "
                     ++ ToString (types.NatGateway.NatGatewayId natGateway)))
  /\ (DescribeAddressesByAssociation p regionName associationID = Ok [] ->
      describeEIPByAssociationID p associationID regionName = Ok "").
Proof.
  unfold describeEIPByAssociationID. split; [|split].
  - intros e.
    destruct (DescribeAddressesByAssociation p regionName associationID)
      as [[|address0 rest]|e0].
    + split; [discriminate|].
      intros [H|(a & r & eni & H & _)]; discriminate.
    + destruct (types.Address.InstanceId address0) as [i|] eqn:Ei.
      * split; [discriminate|].
        intros [H|(a & r & eni & H & Hi & _)]; [discriminate|].
        inversion H; subst. congruence.
      * destruct (types.Address.NetworkInterfaceId address0) as [eni|] eqn:En.
        -- destruct (DescribeNatGateways p regionName) as [nats|e1] eqn:Eg.
           ++ split.
              ** destruct (find_nat_gateway _ nats); discriminate.
              ** intros [H|(a & r & eni' & H & _ & _ & H')]; discriminate.
           ++ split.
              ** intros H. inversion H; subst. right.
                 exists address0, rest, eni. auto.
              ** intros [H|(a & r & eni' & H & _ & _ & H')];
                   [discriminate | congruence].
        -- split; [discriminate|].
           intros [H|(a & r & eni & H & _ & Hn & _)]; [discriminate|].
           inversion H; subst. congruence.
    + split.
      * intros H. inversion H; subst. auto.
      * intros [H|(a & r & eni & H & _)]; [congruence | discriminate].
  - intros target.
    destruct (DescribeAddressesByAssociation p regionName associationID)
      as [[|address0 rest]|e0]; [| |discriminate].
    + intros H. inversion H. auto.
    + destruct (types.Address.InstanceId address0) as [i|].
      * intros H. inversion H. right; left. exists i. reflexivity.
      * destruct (types.Address.NetworkInterfaceId address0);
          [|intros H; inversion H; auto].
        destruct (DescribeNatGateways p regionName) as [nats|];
          [|discriminate].
        destruct (find_nat_gateway _ nats) as [nat|] eqn:Ef;
          intros H; inversion H; auto.
        right; right. exists nats, nat. repeat split; auto.
        unfold find_nat_gateway in Ef. apply find_some in Ef. apply Ef.
  - intros ->. reflexivity.
Qed.

Lemma X4_witness :
  describeEIPByAssociationID
    (Examples.eip_account [Examples.idle_eip; Examples.nat_eip])
    "eipassoc-3" "us-east-1" = Ok "NAT Gateway: nat-1"
  /\ describeEIPByAssociationID
       (Examples.eip_account [Examples.idle_eip; Examples.nat_eip])
       "" "us-east-1" = Ok "".
Proof.
  split; [reflexivity|].
  apply (proj2 (proj2 (X4_association_lookup_outcomes
                         (Examples.eip_account
                            [Examples.idle_eip; Examples.nat_eip])
                         "" "us-east-1"))).
  reflexivity.
Defined.

Lemma eip_loop_origin (p : Provider) (regionName : string)
  (eips : list types.Address.t) r :
  In r (task_recs (eip_loop p regionName eips)) ->
  exists eip target,
    In eip eips
    /\ types.Address.InstanceId eip = None
    /\ describeEIPByAssociationID p
         (ToString (types.Address.AssociationId eip)) regionName = Ok target
    /\ r = eip_info regionName eip target.
Proof.
  induction eips as [|eip rest IH]; simpl; [intros []|].
  destruct (types.Address.InstanceId eip) eqn:Ei.
  - intros H. destruct (IH H) as (eip' & t & H1 & H2). exists eip', t. auto.
  - destruct (describeEIPByAssociationID p _ regionName) as [target|] eqn:Ed;
      simpl; [|intros []].
    intros [<-|H].
    + exists eip, target. auto.
    + destruct (IH H) as (eip' & t & H1 & H2). exists eip', t. auto.
Qed.

(** X5. Under every schedule, every Elastic-IP record was built from an
    address that the listing of one of the queried regions returned with no
    instance id, carries the target its association lookup gave, and costs
    7.30 when that target is empty and 3.65 otherwise: an address attached
    to an instance never becomes a record. *)
Theorem X5_eip_record_cost
  (p : Provider) (regions : list types.Region) (sched : list goroutine) :
  Forall (fun r =>
            (exists region eips eip,
                In region regions
                /\ DescribeAddresses p (types.RegionName region) = Ok eips
                /\ In eip eips
                /\ types.Address.InstanceId eip = None
                /\ describeEIPByAssociationID p
                     (ToString (types.Address.AssociationId eip))
                     (types.RegionName region)
                   = Ok (EIPInfo.AssociationTarget r)
                /\ EIPInfo.PublicIP r = types.Address.PublicIp eip)
            /\ (EIPInfo.AssociationTarget r = ""
                /\ EIPInfo.Cost r = 7.3%float
                \/ EIPInfo.AssociationTarget r <> ""
                   /\ EIPInfo.Cost r = 3.65%float))
         (emitted (run (eips_discipline regions) sched
                     (init (eips_workers p regions)))).
Proof.
  apply Forall_forall. intros r Hr.
  apply emitted_was_sent in Hr. apply in_recs_of_workers in Hr.
  destruct Hr as (region & Hin & Hr). unfold eips_worker in Hr.
  unfold fetchEIPsInRegion in Hr.
  destruct (DescribeAddresses p (types.RegionName region)) as [eips|] eqn:Ed;
    [|destruct Hr].
  destruct (eip_loop_origin _ _ _ _ Hr) as (eip & target & H1 & H2 & H3 & ->).
  split.
  - exists region, eips, eip. simpl. repeat split; auto.
  - simpl. unfold eip_cost.
    destruct (String.eqb target "") eqn:Et.
    + apply String.eqb_eq in Et. left. split; auto.
    + apply String.eqb_neq in Et. right. split; auto.
Qed.

(** X6. The loop over the addresses of one region sends its records first
    and at most one error last, and it stops at the first association
    lookup that fails: the records are those of the addresses before that
    one, and the addresses after it are neither looked up nor reported. *)
Theorem X6_eip_loop_stops_at_first_failure
  (p : Provider) (regionName : string) (eips : list types.Address.t) :
  exists before rest,
    eips = (before ++ rest)%list
    /\ lookups_succeed p regionName before = true
    /\ task_recs (eip_loop p regionName eips)
       = flat_map (fun eip => eip_row p (regionName, eip)) before
    /\ eip_loop p regionName eips
       = (map SendRes (task_recs (eip_loop p regionName eips))
          ++ map SendErr (task_errs (eip_loop p regionName eips)))%list
    /\ (rest = [] /\ task_errs (eip_loop p regionName eips) = []
        \/ exists eip after e,
            rest = eip :: after
            /\ types.Address.InstanceId eip = None
            /\ describeEIPByAssociationID p
                 (ToString (types.Address.AssociationId eip)) regionName
               = Err e
            /\ task_errs (eip_loop p regionName eips)
               = ["failed to describe EIP associations in region "
                  ++ regionName ++ ": " ++ e]).
Proof.
  induction eips as [|eip eips IH].
  - exists [], []. simpl. repeat split; auto.
  - destruct IH as (before & rest & Heq & Hok & Hrecs & Hbody & Hlast).
    simpl. destruct (types.Address.InstanceId eip) eqn:Ei.
    + exists (eip :: before), rest. simpl. rewrite Ei. simpl.
      subst eips. repeat split; auto.
    + destruct (describeEIPByAssociationID p _ regionName) as [target|e]
        eqn:Ed.
      * exists (eip :: before), rest. simpl. rewrite Ei, Ed. simpl.
        rewrite Hrecs at 1. split; [now subst eips|].
        split; auto. split; auto. split; auto.
        f_equal. exact Hbody.
      * exists [], (eip :: eips). simpl. repeat split; auto.
        right. exists eip, eips, e. auto.
Qed.

(** ** Draining and closing, where the errors channel cannot block *)





(** The counter is the number of running workers, and the caller is at its
    [return] only when nothing is left to launch or to run. *)
Definition workers_accounted (R : Type) (s : state R) : Prop :=
  wg s = Z.of_nat (length (threads s))
  /\ (returned s = true -> pending s = [] /\ threads s = []).

Lemma run_workers_accounted (R : Type) (d : discipline)
  (workers : list (task R)) (sched : list goroutine) :
  workers_accounted (run d sched (init workers)).
Proof.
  assert (Hr : reachable d workers (run d sched (init workers)))
    by apply reachable_run, reach_init.
  split; [apply (inv_reachable Hr)|].
  intros Hret. destruct (returned_quiescent Hr Hret) as (H1 & H2 & _).
  auto.
Qed.

(** X8. In all four collectors, under every schedule, the wait-group
    counter equals the number of goroutines still running (those of the
    second level included), so it is never negative; and the caller is at
    its [return] only when the launch loop is over and no worker is left. *)
Theorem X8_wait_group_counts_running_workers
  (p : Provider) (regions : list types.Region) (sched : list goroutine) :
  workers_accounted (run instances_discipline sched
                       (init (instances_workers p regions)))
  /\ workers_accounted (run (eips_discipline regions) sched
                          (init (eips_workers p regions)))
  /\ workers_accounted (run lbs_discipline sched
                          (init (lbs_workers p regions)))
  /\ workers_accounted (run (enis_discipline regions) sched
                          (init (enis_workers p regions))).
Proof.
  split; [|split; [|split]]; apply run_workers_accounted.
Qed.

(** ** The coordinator: success, and which failure is reported *)

(** X9. [unpackChannelData] returns data exactly when all four channels
    deliver a message without error; the three slices then have four
    entries each, in the order network interfaces, instances, load
    balancers, Elastic IPs. *)
Theorem X9_unpack_succeeds_iff_all_delivered (ec2Ch lbCh eipCh eniCh : chan) :
  (failing ec2Ch lbCh eipCh eniCh = None ->
   exists eni ec2 lb eip,
     outcome eniCh = Delivered eni /\ outcome ec2Ch = Delivered ec2
     /\ outcome lbCh = Delivered lb /\ outcome eipCh = Delivered eip
     /\ unpackChannelData ec2Ch lbCh eipCh eniCh
        = (Some [table eni; table ec2; table lb; table eip],
           Some [count eni; count ec2; count lb; count eip],
           Some [cost eni; cost ec2; cost lb; cost eip], None))
  /\ (forall tables counts costs,
         unpackChannelData ec2Ch lbCh eipCh eniCh
         = (tables, counts, costs, None) ->
         failing ec2Ch lbCh eipCh eniCh = None).
Proof.
  unfold failing, unpackChannelData. simpl. unfold delivered_ok. split.
  - destruct (outcome eniCh) as [d1| |]; [destruct (err d1) eqn:F1|..];
      simpl; try discriminate.
    destruct (outcome ec2Ch) as [d2| |]; [destruct (err d2) eqn:F2|..];
      simpl; try discriminate.
    destruct (outcome lbCh) as [d3| |]; [destruct (err d3) eqn:F3|..];
      simpl; try discriminate.
    destruct (outcome eipCh) as [d4| |]; [destruct (err d4) eqn:F4|..];
      simpl; try discriminate.
    intros _. exists d1, d2, d3, d4. repeat split.
  - intros tables counts costs.
    destruct (outcome eniCh) as [d1| |]; [destruct (err d1) eqn:F1|..];
      simpl; try discriminate.
    destruct (outcome ec2Ch) as [d2| |]; [destruct (err d2) eqn:F2|..];
      simpl; try discriminate.
    destruct (outcome lbCh) as [d3| |]; [destruct (err d3) eqn:F3|..];
      simpl; try discriminate.
    destruct (outcome eipCh) as [d4| |]; [destruct (err d4) eqn:F4|..];
      simpl; try discriminate.
    reflexivity.
Qed.

Lemma X9_witness :
  failing (Examples.delivered 1) (Examples.delivered 2)
    (Examples.delivered 3) (Examples.delivered 4) = None
  /\ exists tables costs,
       unpackChannelData (Examples.delivered 1) (Examples.delivered 2)
         (Examples.delivered 3) (Examples.delivered 4)
       = (Some tables, Some [4; 1; 2; 3]%Z, Some costs, None).
Proof.
  split; [reflexivity|].
  destruct (proj1 (X9_unpack_succeeds_iff_all_delivered
                     (Examples.delivered 1) (Examples.delivered 2)
                     (Examples.delivered 3) (Examples.delivered 4))
              eq_refl)
    as (eni & ec2 & lb & eip & H1 & H2 & H3 & H4 & H).
  inversion H1; inversion H2; inversion H3; inversion H4; subst.
  eexists. eexists. exact H.
Defined.

(** X10. The scan reports the failure of the first category, in waiting
    order, that does not deliver a result: when that category delivered an
    error, the scan returns exactly that error, whatever the categories
    after it did. *)
Theorem X10_first_delivered_error_is_returned
  (ec2Ch lbCh eipCh eniCh : chan) (c : category) (data : ChannelData)
  (e : error) :
  failing ec2Ch lbCh eipCh eniCh = Some c ->
  outcome (channel_of ec2Ch lbCh eipCh eniCh c) = Delivered data ->
  err data = Some e ->
  unpackChannelData ec2Ch lbCh eipCh eniCh = (None, None, None, Some e).
Proof.
  intros Hf Ho He. unfold failing in Hf. unfold unpackChannelData.
  simpl in Hf. simpl. unfold delivered_ok in *.
  destruct (outcome eniCh) as [d1| |] eqn:E1;
    [destruct (err d1) eqn:F1|..]; simpl in Hf;
    try (inversion Hf; subst c; simpl in *; congruence).
  destruct (outcome ec2Ch) as [d2| |] eqn:E2;
    [destruct (err d2) eqn:F2|..]; simpl in Hf;
    try (inversion Hf; subst c; simpl in *; congruence).
  destruct (outcome lbCh) as [d3| |] eqn:E3;
    [destruct (err d3) eqn:F3|..]; simpl in Hf;
    try (inversion Hf; subst c; simpl in *; congruence).
  destruct (outcome eipCh) as [d4| |] eqn:E4;
    [destruct (err d4) eqn:F4|..]; simpl in Hf;
    try (inversion Hf; subst c; simpl in *; congruence).
Qed.

Lemma X10_witness :
  unpackChannelData
    {| printed := "0xc000012180";
       outcome := Delivered {| table := None; count := 0; cost := 0;
                               err := Some "AccessDenied" |} |}
    Examples.timed_out Examples.closed (Examples.delivered 3)
  = (None, None, None, Some "AccessDenied").
Proof.
  apply (@X10_first_delivered_error_is_returned _ _ _ _ EC2
           {| table := None; count := 0; cost := 0;
              err := Some "AccessDenied" |} "AccessDenied");
    reflexivity.
Defined.

(** ** From a collector to the scan *)

(** X11. One failed regional fetch of network interfaces aborts the whole
    scan: under every schedule the collector returns a combined error, the
    category goroutine delivers it without table, and as the coordinator
    waits for this category first it returns exactly that error, whatever
    the three other categories deliver. *)
Theorem X11_failed_eni_region_aborts_scan
  (sortStructsByIP : forall A : Type, list A -> (A -> string) -> list A)
  (p : Provider) (regions : list types.Region) (region : types.Region)
  (e0 : error) :
  In region regions ->
  fetchENIsInRegion p (types.RegionName region) = Err e0 ->
  always_returns (enis_discipline regions) (enis_workers p regions)
    (fun res =>
       exists e,
         snd res = Some e
         /\ fetchTableData (createAndPopulateENIsTable sortStructsByIP res)
            = {| table := None; count := 0; cost := 0; err := Some e |}
         /\ forall ec2Ch lbCh eipCh printed,
             unpackChannelData ec2Ch lbCh eipCh
               {| printed := printed;
                  outcome :=
                    Delivered
                      (fetchTableData
                         (createAndPopulateENIsTable sortStructsByIP res)) |}
             = (None, None, None, Some e)).
Proof.
  intros Hin Hf.
  pose proof (enis_fetch_failure_sent p regions region Hin Hf) as Hsent.
  eapply always_returns_weaken; [|apply enis_collector].
  intros [l e] [_ He]. simpl in He. unfold combined_error in He.
  destruct (enis_failures p regions) as [|m ms]; [destruct Hsent|].
  destruct He as (es & _ & -> & _).
  exists (Errorf0 (Join es "; ")). repeat split.
Qed.

Lemma X11_witness :
  In Examples.eu_west_1 [Examples.us_east_1; Examples.eu_west_1]
  /\ always_returns
       (enis_discipline [Examples.us_east_1; Examples.eu_west_1])
       (enis_workers Examples.enis_one_region_down
          [Examples.us_east_1; Examples.eu_west_1])
       (fun res =>
          exists e,
            snd res = Some e
            /\ fetchTableData
                 (createAndPopulateENIsTable (fun _ l _ => l) res)
               = {| table := None; count := 0; cost := 0; err := Some e |}
            /\ forall ec2Ch lbCh eipCh printed,
                unpackChannelData ec2Ch lbCh eipCh
                  {| printed := printed;
                     outcome :=
                       Delivered
                         (fetchTableData
                            (createAndPopulateENIsTable
                               (fun _ l _ => l) res)) |}
                = (None, None, None, Some e)).
Proof.
  split; [right; left; reflexivity|].
  apply (@X11_failed_eni_region_aborts_scan (fun _ l _ => l)
           Examples.enis_one_region_down
           [Examples.us_east_1; Examples.eu_west_1] Examples.eu_west_1
           "failed to describe ENIs in region eu-west-1: UnauthorizedOperation").
  - right; left; reflexivity.
  - reflexivity.
Defined.

(** X12. The instances category never delivers a failure: under every
    schedule the collector returns, the table builder makes a table of the
    records it got, and the message sent to the coordinator has no error
    and counts those records, even when every regional fetch failed. *)
Theorem X12_instances_category_always_delivers
  (sortStructsByIP : forall A : Type, list A -> (A -> string) -> list A)
  (p : Provider) (regions : list types.Region) :
  always_returns instances_discipline (instances_workers p regions)
    (fun res =>
       exists rows total,
         fetchTableData
           (createAndPopulateInstancesTable sortStructsByIP res)
         = {| table := Some (InstancesTable rows);
              count := Z.of_nat (length (instances_of_regions p regions));
              cost := total; err := None |}).
Proof.
  eapply always_returns_weaken; [|apply instances_collector].
  intros [l e] [Hl He]. simpl in Hl, He. subst e. simpl.
  rewrite (Permutation_length Hl). eauto.
Qed.

(** ** The load-balancer headline count *)

Lemma add_int_exact (a b : Z) :
  (- 2 ^ 63 <= a + b < 2 ^ 63)%Z -> add_int a b = (a + b)%Z.
Proof.
  intros H. unfold add_int.
  rewrite Z.mod_small; lia.
Qed.

Lemma sum_ip_counts (rows : list LoadBalancerInfo.t) (acc : Z) :
  (forall r, In r rows ->
             LoadBalancerInfo.IPCount r
             = Z.of_nat (length (LoadBalancerInfo.PublicIPs r))) ->
  (0 <= acc)%Z ->
  (acc + Z.of_nat (length (flat_map LoadBalancerInfo.PublicIPs rows))
   < 2 ^ 63)%Z ->
  fold_left (fun totalIPCount lb =>
               add_int totalIPCount (LoadBalancerInfo.IPCount lb)) rows acc
  = (acc + Z.of_nat (length (flat_map LoadBalancerInfo.PublicIPs rows)))%Z.
Proof.
  revert acc; induction rows as [|r rows IH]; intros acc Hc Ha Hb; simpl.
  - lia.
  - simpl in Hb. rewrite length_app in Hb.
    rewrite (Hc r) by (left; auto).
    rewrite add_int_exact by lia.
    rewrite IH; try lia.
    + rewrite length_app. lia.
    + intros r' Hr'. apply Hc. right; auto.
Qed.

(** X13. The count the load-balancer table reports is not the number of
    load balancers but the number of addresses their names resolved to,
    summed over the records (as long as it fits an [int]). *)
Theorem X13_lb_count_is_number_of_addresses
  (sortStructsByIP : forall A : Type, list A -> (A -> string) -> list A)
  (p : Provider) (regions : list types.Region) (sched : list goroutine) :
  (forall (A : Type) (l : list A) key,
      Permutation (sortStructsByIP A l key) l) ->
  let allLBs := all (run lbs_discipline sched
                       (init (lbs_workers p regions))) in
  (Z.of_nat (length (flat_map LoadBalancerInfo.PublicIPs allLBs))
   < 2 ^ 63)%Z ->
  exists rows total,
    Permutation rows allLBs
    /\ createAndPopulateLBTable sortStructsByIP (allLBs, None)
       = (Some (LBTable rows),
          Z.of_nat (length (flat_map LoadBalancerInfo.PublicIPs allLBs)),
          total, None).
Proof.
  intros Hsort allLBs Hfit. unfold createAndPopulateLBTable.
  set (rows := sortStructsByIP _ allLBs first_public_ip).
  assert (Hp : Permutation rows allLBs) by apply Hsort.
  assert (Hlen : length (flat_map LoadBalancerInfo.PublicIPs rows)
                 = length (flat_map LoadBalancerInfo.PublicIPs allLBs)).
  { apply Permutation_length, Permutation_flat_map, Hp. }
  exists rows. eexists. split; [exact Hp|].
  rewrite sum_ip_counts.
  - rewrite Hlen. reflexivity.
  - intros r Hr. apply (Permutation_in _ Hp) in Hr.
    assert (He : In r (emitted (run lbs_discipline sched
                                  (init (lbs_workers p regions)))))
      by (unfold emitted; apply in_or_app; left; exact Hr).
    apply emitted_was_sent in He. apply in_recs_of_workers in He.
    destruct He as (region & _ & He).
    destruct (lbs_worker_counts _ _ _ He) as (H1 & H2 & _).
    rewrite H2, H1. reflexivity.
  - lia.
  - rewrite Hlen. lia.
Qed.

Lemma X13_witness :
  exists rows total,
    createAndPopulateLBTable (fun _ l _ => l)
      (all (run lbs_discipline [GMain; GMain; GWorker 0; GWorker 1]
              (init (lbs_workers Examples.lbs_one_region_down
                       [Examples.us_east_1]))), None)
    = (Some (LBTable rows), 3%Z, total, None).
Proof.
  destruct (@X13_lb_count_is_number_of_addresses (fun _ l _ => l)
              Examples.lbs_one_region_down [Examples.us_east_1]
              [GMain; GMain; GWorker 0; GWorker 1]
              (fun _ l _ => Permutation_refl l))
    as (rows & total & _ & H).
  - vm_compute. reflexivity.
  - exists rows, total. exact H.
Defined.

(** ** ui.go: tabs and headline *)

Definition pageOrder : list string :=
  ["Elastic Network Interfaces (also include EC2, LBs amd EIPs)";
   "EC2 Instances (includes attached EIPs)";
   "Load Balancers";
   "EIPs not attached to instances"].

(** The keys the input capture of [createTabs] tells apart. *)
Inductive Key := KeyRight | KeyLeft | KeyOther.

(** The new [currentIndex]; [%] is Go's remainder, of the sign of the
    dividend ([Z.rem]). *)
Definition tabs_key (currentIndex : Z) (key : Key) : Z :=
  match key with
  | KeyRight => Z.rem (currentIndex + 1) (Z.of_nat (length pageOrder))
  | KeyLeft =>
      Z.rem (currentIndex - 1 + Z.of_nat (length pageOrder))
            (Z.of_nat (length pageOrder))
  | KeyOther => currentIndex
  end.

(** [pageOrder[currentIndex]]: [None] where Go panics. *)
Definition page_at (currentIndex : Z) : option string :=
  if (currentIndex <? 0)%Z then None
  else nth_error pageOrder (Z.to_nat currentIndex).

(** [createTabs]: [tabs.AddPage(pageOrder[i], table, ...)] for each table;
    [None] where the index is out of range. *)
Fixpoint add_pages (titles : list string) (tables : list (option Table))
  : option (list (string * option Table)) :=
  match tables with
  | [] => Some []
  | table :: rest =>
      match titles with
      | [] => None
      | title :: titles' =>
          match add_pages titles' rest with
          | Some pages => Some ((title, table) :: pages)
          | None => None
          end
      end
  end.

Definition createTabs (tables : list (option Table))
  : option (list (string * option Table)) :=
  add_pages pageOrder tables.

(** [strings.HasSuffix] and [strings.TrimSuffix]. *)
Definition HasSuffix (s suffix : string) : bool :=
  (String.length suffix <=? String.length s)%nat
  && String.eqb (substring (String.length s - String.length suffix)
                           (String.length suffix) s) suffix.

Definition TrimSuffix (s suffix : string) : string :=
  if HasSuffix s suffix
  then substring 0 (String.length s - String.length suffix) s
  else s.

(** The loop of [updateTabNames] over the names from index [i] on. *)
Fixpoint tab_text (names : list string) (i currentIndex : Z)
  (tabText : string) : string :=
  match names with
  | [] => tabText
  | name :: rest =>
      tab_text rest (i + 1) currentIndex
        (tabText
         ++ (if (i =? currentIndex)%Z
             then "[::b][#0000ff]" ++ name ++ "[white::-] | "
             else name ++ " | "))
  end.

Definition updateTabNames (names : list string) (currentIndex : Z) : string :=
  TrimSuffix (tab_text names 0 currentIndex "") " | ".

Section Layout.

(** [fmt.Sprintf("%d", _)] and [fmt.Sprintf("%.2f", _)]. *)
Variable format_int : Z -> string.
Variable format_cost : float -> string.

(** The [costSummaries] of [createMainLayout]; [None] where an index is out
    of range. *)
Definition costSummaries (counts : list Z) (costs : list float)
  : option (list string) :=
  match nth_error counts 0, nth_error counts 1, nth_error counts 2,
        nth_error counts 3, nth_error costs 0, nth_error costs 1,
        nth_error costs 2, nth_error costs 3 with
  | Some n0, Some n1, Some n2, Some n3, Some c0, Some c1, Some c2, Some c3 =>
      Some
        ["--------------------------------";
         "Public IPs attached to " ++ format_int n0
         ++ " Elastic Network Intefaces: $" ++ format_cost c0;
         "EC2: $" ++ format_cost c1 ++ " for " ++ format_int n1
         ++ " instances";
         "Load balancers: $" ++ format_cost c2 ++ " for " ++ format_int n2
         ++ " load balancer IPs";
         "and $" ++ format_cost c3 ++ " for " ++ format_int n3
         ++ " Elastic IPs";
         "Note: ENI costs also include those for EC2, LB and EIP. Still, unattached EIPs have an additional cost, so the total IPv4 cost isn't exactly the same as the ENI cost";
         "--------------------------------"]
  | _, _, _, _, _, _, _, _ => None
  end.

End Layout.

(** The channel on which the goroutine of a category, started by
    [ipCostsView], has sent what its table builder returned. *)
Definition category_channel (printed : string)
  (built : option Table * Z * float * option error) : chan :=
  {| printed := printed; outcome := Delivered (fetchTableData built) |}.

(** X14. The tab index starts at 0 and stays a valid index of [pageOrder]
    under every sequence of keys, so [pageOrder[currentIndex]] never
    panics; the left key undoes the right key and conversely, and the right
    key pressed once per page comes back to the same page. *)
Theorem X14_tab_index_stays_valid (keys : list Key) :
  let currentIndex := fold_left tabs_key keys 0%Z in
  (0 <= currentIndex < 4)%Z
  /\ (exists title, page_at currentIndex = Some title)
  /\ tabs_key (tabs_key currentIndex KeyRight) KeyLeft = currentIndex
  /\ tabs_key (tabs_key currentIndex KeyLeft) KeyRight = currentIndex
  /\ fold_left tabs_key [KeyRight; KeyRight; KeyRight; KeyRight] currentIndex
     = currentIndex.
Proof.
  assert (Hinv : forall ks i, (0 <= i < 4)%Z ->
                              (0 <= fold_left tabs_key ks i < 4)%Z).
  { induction ks as [|k ks IH]; intros i Hi; simpl; auto.
    apply IH. destruct k; simpl; auto.
    - assert (i = 0 \/ i = 1 \/ i = 2 \/ i = 3)%Z as [->|[->|[->| ->]]]
        by lia; vm_compute; split; congruence.
    - assert (i = 0 \/ i = 1 \/ i = 2 \/ i = 3)%Z as [->|[->|[->| ->]]]
        by lia; vm_compute; split; congruence. }
  intros currentIndex.
  assert (H : (0 <= currentIndex < 4)%Z) by (apply Hinv; lia).
  split; auto.
  assert (currentIndex = 0 \/ currentIndex = 1 \/ currentIndex = 2
          \/ currentIndex = 3)%Z as [->|[->|[->| ->]]] by lia;
    repeat split; try reflexivity; eexists; reflexivity.
Qed.

(** X15. When the four collectors returned without error, the coordinator
    hands on four tables, counts and costs, the tab of each page shows the
    table of the category its title names, and each headline line is
    filled with the count and the cost of its own category: the orders of
    [unpackChannelData], [pageOrder] and [createMainLayout] agree, and no
    index is out of range. *)
Theorem X15_pages_and_headlines_match_categories
  (sortStructsByIP : forall A : Type, list A -> (A -> string) -> list A)
  (format_int : Z -> string) (format_cost : float -> string)
  (allInstances : list EC2InstanceInfo.t)
  (allLBs : list LoadBalancerInfo.t) (allEIPs : list EIPInfo.t)
  (allENIs : list ENIInfo.t) (p1 p2 p3 p4 : string) :
  let ec2 := createAndPopulateInstancesTable sortStructsByIP
               (allInstances, None) in
  let lb := createAndPopulateLBTable sortStructsByIP (allLBs, None) in
  let eip := createAndPopulateEIPsTable sortStructsByIP (allEIPs, None) in
  let eni := createAndPopulateENIsTable sortStructsByIP (allENIs, None) in
  exists tables counts costs,
    unpackChannelData (category_channel p1 ec2) (category_channel p2 lb)
      (category_channel p3 eip) (category_channel p4 eni)
    = (Some tables, Some counts, Some costs, None)
    /\ createTabs tables
       = Some
           [("Elastic Network Interfaces (also include EC2, LBs amd EIPs)",
             Some (ENIsTable
                     (sortStructsByIP _ allENIs ENIInfo.PublicIP)));
            ("EC2 Instances (includes attached EIPs)",
             Some (InstancesTable
                     (sortStructsByIP _ allInstances
                        EC2InstanceInfo.PublicIP)));
            ("Load Balancers",
             Some (LBTable (sortStructsByIP _ allLBs first_public_ip)));
            ("EIPs not attached to instances",
             Some (EIPsTable
                     (sortStructsByIP _ allEIPs EIPInfo.PublicIP)))]
    /\ costSummaries format_int format_cost counts costs
       = Some
           ["--------------------------------";
            "Public IPs attached to "
            ++ format_int (Z.of_nat (length allENIs))
            ++ " Elastic Network Intefaces: $"
            ++ format_cost (snd (fst eni));
            "EC2: $" ++ format_cost (snd (fst ec2)) ++ " for "
            ++ format_int (Z.of_nat (length allInstances)) ++ " instances";
            "Load balancers: $" ++ format_cost (snd (fst lb)) ++ " for "
            ++ format_int (snd (fst (fst lb))) ++ " load balancer IPs";
            "and $" ++ format_cost (snd (fst eip)) ++ " for "
            ++ format_int (Z.of_nat (length allEIPs)) ++ " Elastic IPs";
            "Note: ENI costs also include those for EC2, LB and EIP. Still, unattached EIPs have an additional cost, so the total IPv4 cost isn't exactly the same as the ENI cost";
            "--------------------------------"].
Proof.
  intros ec2 lb eip eni. do 3 eexists. split; [reflexivity|].
  split; reflexivity.
Qed.

(** ** The text of the tab bar *)

Lemma string_app_assoc (a b c : string) : (a ++ b) ++ c = a ++ (b ++ c).
Proof. induction a as [|x a IH]; simpl; [|rewrite IH]; reflexivity. Qed.

Lemma string_app_nil_r (a : string) : a ++ "" = a.
Proof. induction a as [|x a IH]; simpl; [|rewrite IH]; reflexivity. Qed.

Lemma string_length_app (a b : string) :
  String.length (a ++ b) = (String.length a + String.length b)%nat.
Proof. induction a as [|x a IH]; simpl; [|rewrite IH]; reflexivity. Qed.

Lemma substring_whole (b : string) : substring 0 (String.length b) b = b.
Proof. induction b as [|x b IH]; simpl; [|rewrite IH]; reflexivity. Qed.

Lemma substring_app_prefix (a b : string) :
  substring 0 (String.length a) (a ++ b) = a.
Proof.
  induction a as [|x a IH]; simpl.
  - destruct b; reflexivity.
  - now rewrite IH.
Qed.

Lemma substring_app_suffix (a b : string) :
  substring (String.length a) (String.length b) (a ++ b) = b.
Proof.
  induction a as [|x a IH]; simpl; auto. apply substring_whole.
Qed.

Lemma TrimSuffix_app (a suffix : string) :
  TrimSuffix (a ++ suffix) suffix = a.
Proof.
  unfold TrimSuffix, HasSuffix. rewrite string_length_app.
  replace (String.length a + String.length suffix - String.length suffix)%nat
    with (String.length a) by lia.
  rewrite substring_app_suffix, String.eqb_refl, substring_app_prefix.
  replace (String.length suffix <=? String.length a + String.length suffix)%nat
    with true by (symmetry; apply Nat.leb_le; lia).
  reflexivity.
Qed.

(** The label of each tab: the current one is highlighted. *)
Fixpoint tab_labels (names : list string) (i currentIndex : Z)
  : list string :=
  match names with
  | [] => []
  | name :: rest =>
      (if (i =? currentIndex)%Z
       then "[::b][#0000ff]" ++ name ++ "[white::-]"
       else name)
      :: tab_labels rest (i + 1) currentIndex
  end.

Lemma tab_text_labels (names : list string) (i currentIndex : Z)
  (tabText : string) :
  names <> [] ->
  tab_text names i currentIndex tabText
  = tabText ++ Join (tab_labels names i currentIndex) " | " ++ " | ".
Proof.
  revert i tabText. induction names as [|name rest IH]; [congruence|].
  intros i tabText _. cbn [tab_text tab_labels].
  destruct rest as [|name' rest'].
  - cbn [tab_text tab_labels]. unfold Join. cbn [String.concat].
    destruct (i =? currentIndex)%Z; f_equal.
    now rewrite !string_app_assoc.
  - rewrite IH by discriminate. unfold Join.
    cbn [tab_labels String.concat].
    rewrite !string_app_assoc. f_equal.
    destruct (i =? currentIndex)%Z; now rewrite !string_app_assoc.
Qed.

Lemma tab_labels_nth (names : list string) (i currentIndex : Z) (k : nat)
  (name : string) :
  nth_error names k = Some name ->
  nth_error (tab_labels names i currentIndex) k
  = Some (if (i + Z.of_nat k =? currentIndex)%Z
          then "[::b][#0000ff]" ++ name ++ "[white::-]"
          else name).
Proof.
  revert i k. induction names as [|n rest IH]; intros i [|k]; simpl;
    try discriminate.
  - intros H. inversion H; subst. now rewrite Z.add_0_r.
  - intros H. rewrite (IH (i + 1)%Z k H).
    replace (i + 1 + Z.of_nat k)%Z with (i + Z.pos (Pos.of_succ_nat k))%Z
      by lia.
    reflexivity.
Qed.

(** X16. The text [updateTabNames] sets is the tab labels joined by " | ",
    with no separator after the last one; the label of a tab is its name,
    wrapped in the highlight tags for the tab at [currentIndex] and for no
    other. *)
Theorem X16_tab_bar_is_the_joined_labels
  (names : list string) (currentIndex : Z) :
  updateTabNames names currentIndex
  = Join (tab_labels names 0 currentIndex) " | "
  /\ forall k name,
      nth_error names k = Some name ->
      nth_error (tab_labels names 0 currentIndex) k
      = Some (if (Z.of_nat k =? currentIndex)%Z
              then "[::b][#0000ff]" ++ name ++ "[white::-]"
              else name).
Proof.
  split.
  - unfold updateTabNames. destruct names as [|name rest]; [reflexivity|].
    rewrite tab_text_labels by discriminate.
    change ("" ++ ?x) with x. apply TrimSuffix_app.
  - intros k name H. apply (tab_labels_nth _ 0 currentIndex _ H).
Qed.

(** ** The subnets command ([handleSubnets])

    The command lists the subnets of every region and, for each subnet,
    shows the current value of [MapPublicIpOnLaunch] and sets the attribute
    to the opposite value.  The subnets of the account are a state the
    command changes: a function from the region name to its subnets. *)

Module Subnet.
Record t := {
  VpcId : string;
  SubnetId : string;
  MapPublicIpOnLaunch : bool }.
End Subnet.

Definition SubnetState := string -> list Subnet.t.

(** Which calls fail: [DescribeSubnets] in a region, and
    [ModifySubnetAttribute] for a subnet of a region. *)
Record SubnetCalls := {
  DescribeSubnetsError : string -> option error;
  ModifySubnetAttributeError : string -> string -> option error }.

Definition set_flag (value : bool) (subnet : Subnet.t) : Subnet.t :=
  {| Subnet.VpcId := Subnet.VpcId subnet;
     Subnet.SubnetId := Subnet.SubnetId subnet;
     Subnet.MapPublicIpOnLaunch := value |}.

(** The effect of a successful [ModifySubnetAttribute]. *)
Definition ModifySubnetAttribute (regionName subnetId : string) (value : bool)
  (cloud : SubnetState) : SubnetState :=
  fun r =>
    if String.eqb r regionName
    then map (fun subnet =>
                if String.eqb (Subnet.SubnetId subnet) subnetId
                then set_flag value subnet else subnet) (cloud r)
    else cloud r.

Record SubnetsRun := {
  rows : list (list string);     (* the table, below the headers *)
  logged : list string;
  cloud : SubnetState }.

(** [fmt.Sprintf("%v", b)] for a bool. *)
Definition format_bool (b : bool) : string := if b then "true" else "false".

(** The loop over [resp.Subnets] of one region. *)
Fixpoint subnets_loop (calls : SubnetCalls) (regionName : string)
  (subnets : list Subnet.t) (acc : SubnetsRun) : SubnetsRun :=
  match subnets with
  | [] => acc
  | subnet :: rest =>
      let row := [regionName; Subnet.VpcId subnet; Subnet.SubnetId subnet;
                  format_bool (Subnet.MapPublicIpOnLaunch subnet)] in
      let newValue := negb (Subnet.MapPublicIpOnLaunch subnet) in
      match ModifySubnetAttributeError calls regionName
              (Subnet.SubnetId subnet) with
      | Some err =>
          subnets_loop calls regionName rest
            {| rows := rows acc ++ [row];
               logged :=
                 logged acc
                 ++ ["Failed to toggle Auto-Attach IP for subnet "
                     ++ Subnet.SubnetId subnet ++ ", " ++ err];
               cloud := cloud acc |}
      | None =>
          subnets_loop calls regionName rest
            {| rows := rows acc ++ [row];
               logged := logged acc;
               cloud :=
                 ModifySubnetAttribute regionName (Subnet.SubnetId subnet)
                   newValue (cloud acc) |}
      end
  end.

(** The loop over the regions: a region whose listing fails is logged and
    skipped. *)
Fixpoint subnet_regions_loop (calls : SubnetCalls)
  (regions : list types.Region) (acc : SubnetsRun) : SubnetsRun :=
  match regions with
  | [] => acc
  | region :: rest =>
      let regionName := types.RegionName region in
      match DescribeSubnetsError calls regionName with
      | Some err =>
          subnet_regions_loop calls rest
            {| rows := rows acc;
               logged :=
                 logged acc
                 ++ ["Failed to describe subnets in region " ++ regionName
                     ++ ", " ++ err];
               cloud := cloud acc |}
      | None =>
          subnet_regions_loop calls rest
            (subnets_loop calls regionName (cloud acc regionName) acc)
      end
  end.

(** [handleSubnets] up to the display of the table; [None] where it stops
    with [log.Fatalf] (the regions cannot be listed). *)
Definition handleSubnets (calls : SubnetCalls)
  (describeRegions : result (list types.Region)) (cloud0 : SubnetState)
  : option SubnetsRun :=
  match describeRegions with
  | Err _ => None
  | Ok regions =>
      Some (subnet_regions_loop calls regions
              {| rows := []; logged := []; cloud := cloud0 |})
  end.

(** What the command does to one subnet: the flag is negated unless the
    call for this subnet fails. *)
Definition toggled (calls : SubnetCalls) (regionName : string)
  (subnet : Subnet.t) : Subnet.t :=
  match ModifySubnetAttributeError calls regionName
          (Subnet.SubnetId subnet) with
  | Some _ => subnet
  | None => set_flag (negb (Subnet.MapPublicIpOnLaunch subnet)) subnet
  end.

Definition subnet_row (regionName : string) (subnet : Subnet.t)
  : list string :=
  [regionName; Subnet.VpcId subnet; Subnet.SubnetId subnet;
   format_bool (Subnet.MapPublicIpOnLaunch subnet)].

Definition region_listed (calls : SubnetCalls) (regions : list types.Region)
  (regionName : string) : bool :=
  existsb (fun region => String.eqb (types.RegionName region) regionName)
          regions
  && match DescribeSubnetsError calls regionName with
     | None => true
     | Some _ => false
     end.

Section Subnets.

Variable calls : SubnetCalls.

Lemma toggled_id (regionName : string) (subnet : Subnet.t) :
  Subnet.SubnetId (toggled calls regionName subnet) = Subnet.SubnetId subnet.
Proof.
  unfold toggled.
  destruct (ModifySubnetAttributeError calls regionName _); reflexivity.
Qed.

Lemma modify_absent (subnetId : string) (value : bool)
  (subnets : list Subnet.t) :
  ~ In subnetId (map Subnet.SubnetId subnets) ->
  map (fun subnet =>
         if String.eqb (Subnet.SubnetId subnet) subnetId
         then set_flag value subnet else subnet) subnets = subnets.
Proof.
  induction subnets as [|s rest IH]; simpl; auto.
  intros H. rewrite IH by tauto.
  destruct (String.eqb (Subnet.SubnetId s) subnetId) eqn:E; auto.
  apply String.eqb_eq in E. tauto.
Qed.

(** The loop over the subnets of one region, started when [before] has
    been handled. *)
Lemma subnets_loop_spec (regionName : string)
  (before rest : list Subnet.t) (acc : SubnetsRun) :
  NoDup (map Subnet.SubnetId (before ++ rest)) ->
  cloud acc regionName = (map (toggled calls regionName) before ++ rest)%list ->
  let acc' := subnets_loop calls regionName rest acc in
  cloud acc' regionName = map (toggled calls regionName) (before ++ rest)
  /\ (forall r, r <> regionName -> cloud acc' r = cloud acc r)
  /\ rows acc' = (rows acc ++ map (subnet_row regionName) rest)%list.
Proof.
  revert before acc. induction rest as [|subnet rest IH];
    intros before acc Hnd Hc; cbn [subnets_loop].
  - rewrite app_nil_r in *. simpl. rewrite app_nil_r. auto.
  - assert (Hnd' : NoDup (map Subnet.SubnetId ((before ++ [subnet]) ++ rest)))
      by (now rewrite <- app_assoc).
    assert (Hstep :
              map (fun s =>
                     if String.eqb (Subnet.SubnetId s) (Subnet.SubnetId subnet)
                     then set_flag
                            (negb (Subnet.MapPublicIpOnLaunch subnet)) s
                     else s)
                  (map (toggled calls regionName) before ++ subnet :: rest)
              = (map (toggled calls regionName) before
                 ++ set_flag (negb (Subnet.MapPublicIpOnLaunch subnet)) subnet
                 :: rest)%list).
    { rewrite map_app. cbn [map]. rewrite String.eqb_refl.
      rewrite map_app in Hnd. cbn [map] in Hnd.
      apply NoDup_remove in Hnd. destruct Hnd as [_ Hnot].
      rewrite !modify_absent; auto.
      - intros H. apply Hnot. apply in_or_app. right. exact H.
      - intros H. apply Hnot. apply in_or_app. left.
        rewrite map_map in H.
        rewrite (map_ext _ Subnet.SubnetId) in H; auto.
        intros s. apply toggled_id. }
    cbv zeta. fold (subnet_row regionName subnet).
    destruct (ModifySubnetAttributeError calls regionName
                (Subnet.SubnetId subnet)) as [err|] eqn:Em.
    + destruct (IH (before ++ [subnet])%list
                  {| rows := rows acc ++ [subnet_row regionName subnet];
                     logged :=
                       logged acc
                       ++ ["Failed to toggle Auto-Attach IP for subnet "
                           ++ Subnet.SubnetId subnet ++ ", " ++ err];
                     cloud := cloud acc |} Hnd') as (H1 & H2 & H3).
      * assert (Ht : toggled calls regionName subnet = subnet)
          by (unfold toggled; now rewrite Em).
        cbn [cloud]. rewrite map_app, <- app_assoc. cbn [map app].
        now rewrite Ht.
      * rewrite <- app_assoc in H1. cbn [app] in H1.
        split; [exact H1|]. split; [exact H2|].
        rewrite H3. cbn [rows map]. now rewrite <- app_assoc.
    + destruct (IH (before ++ [subnet])%list
                  {| rows := rows acc ++ [subnet_row regionName subnet];
                     logged := logged acc;
                     cloud :=
                       ModifySubnetAttribute regionName
                         (Subnet.SubnetId subnet)
                         (negb (Subnet.MapPublicIpOnLaunch subnet))
                         (cloud acc) |} Hnd') as (H1 & H2 & H3).
      * assert (Ht : toggled calls regionName subnet
                     = set_flag (negb (Subnet.MapPublicIpOnLaunch subnet))
                                subnet)
          by (unfold toggled; now rewrite Em).
        cbn [cloud]. unfold ModifySubnetAttribute.
        rewrite String.eqb_refl, Hc, Hstep, map_app, <- app_assoc.
        cbn [map app]. now rewrite Ht.
      * rewrite <- app_assoc in H1. cbn [app] in H1.
        split; [exact H1|]. split.
        -- intros r Hr. rewrite (H2 r Hr). cbn [cloud].
           unfold ModifySubnetAttribute.
           apply String.eqb_neq in Hr. now rewrite Hr.
        -- rewrite H3. cbn [rows map]. now rewrite <- app_assoc.
Qed.

End Subnets.

Section SubnetsCommand.

Variable calls : SubnetCalls.

Definition rows_of_region (cloud0 : SubnetState) (region : types.Region)
  : list (list string) :=
  match DescribeSubnetsError calls (types.RegionName region) with
  | Some _ => []
  | None =>
      map (subnet_row (types.RegionName region))
          (cloud0 (types.RegionName region))
  end.

Lemma not_listed_later (regions : list types.Region) (regionName : string) :
  ~ In regionName (map types.RegionName regions) ->
  region_listed calls regions regionName = false.
Proof.
  intros H. unfold region_listed.
  replace (existsb _ regions) with false; auto.
  symmetry. apply not_true_is_false. intros E.
  apply existsb_exists in E. destruct E as (region & Hin & E).
  apply String.eqb_eq in E. apply H. rewrite <- E. now apply in_map.
Qed.

Lemma rows_of_region_listed (cloud0 : SubnetState) (region : types.Region) :
  DescribeSubnetsError calls (types.RegionName region) = None ->
  rows_of_region cloud0 region
  = map (subnet_row (types.RegionName region))
        (cloud0 (types.RegionName region)).
Proof. unfold rows_of_region. now intros ->. Qed.

Lemma rows_of_region_failed (cloud0 : SubnetState) (region : types.Region)
  (err : error) :
  DescribeSubnetsError calls (types.RegionName region) = Some err ->
  rows_of_region cloud0 region = [].
Proof. unfold rows_of_region. now intros ->. Qed.

Lemma rows_of_regions_ext (c1 c2 : SubnetState)
  (regions : list types.Region) :
  (forall region, In region regions ->
     c1 (types.RegionName region) = c2 (types.RegionName region)) ->
  flat_map (rows_of_region c1) regions = flat_map (rows_of_region c2) regions.
Proof.
  induction regions as [|region rest IH]; intros H; simpl; auto.
  rewrite IH by (intros; apply H; right; auto). f_equal.
  unfold rows_of_region. rewrite H by (left; auto). reflexivity.
Qed.

Lemma region_listed_cons (region : types.Region)
  (rest : list types.Region) (r : string) :
  region_listed calls (region :: rest) r
  = if String.eqb (types.RegionName region) r
    then match DescribeSubnetsError calls r with
         | None => true
         | Some _ => false
         end
    else region_listed calls rest r.
Proof.
  unfold region_listed. cbn [existsb].
  destruct (String.eqb (types.RegionName region) r); reflexivity.
Qed.

Lemma subnet_regions_loop_spec (regions : list types.Region)
  (acc : SubnetsRun) :
  NoDup (map types.RegionName regions) ->
  (forall region, In region regions ->
     NoDup (map Subnet.SubnetId (cloud acc (types.RegionName region)))) ->
  let acc' := subnet_regions_loop calls regions acc in
  (forall r,
      cloud acc' r
      = if region_listed calls regions r
        then map (toggled calls r) (cloud acc r) else cloud acc r)
  /\ rows acc'
     = (rows acc ++ flat_map (rows_of_region (cloud acc)) regions)%list.
Proof.
  revert acc. induction regions as [|region rest IH]; intros acc Hnd Hids.
  - simpl. split; [reflexivity | now rewrite app_nil_r].
  - cbn [subnet_regions_loop map flat_map] in *. cbv zeta.
    inversion Hnd as [|x l Hnotin Hnd']; subst.
    assert (Hlater : region_listed calls rest (types.RegionName region)
                     = false)
      by (now apply not_listed_later).
    destruct (DescribeSubnetsError calls (types.RegionName region))
      as [err|] eqn:Ed.
    + destruct (IH {| rows := rows acc;
                      logged :=
                        logged acc
                        ++ ["Failed to describe subnets in region "
                            ++ types.RegionName region ++ ", " ++ err];
                      cloud := cloud acc |} Hnd') as [H1 H2].
      { intros r Hr. apply Hids. right; auto. }
      cbn [cloud rows] in *. split.
      * intros r. rewrite H1, region_listed_cons.
        destruct (String.eqb_spec (types.RegionName region) r) as [E|E];
          auto.
        subst r. now rewrite Hlater, Ed.
      * now rewrite H2, (rows_of_region_failed _ _ Ed).
    + destruct (@subnets_loop_spec calls (types.RegionName region) []
                  (cloud acc (types.RegionName region)) acc)
        as (S1 & S2 & S3).
      { apply Hids. left; auto. }
      { reflexivity. }
      cbn [app] in S1.
      destruct (IH (subnets_loop calls (types.RegionName region)
                      (cloud acc (types.RegionName region)) acc) Hnd')
        as [H1 H2].
      { intros r Hr.
        destruct (String.eqb_spec (types.RegionName r)
                    (types.RegionName region)) as [E|E].
        - exfalso. apply Hnotin. rewrite <- E. now apply in_map.
        - rewrite S2 by exact E. apply Hids. right; auto. }
      split.
      * intros r. rewrite H1, region_listed_cons.
        destruct (String.eqb_spec (types.RegionName region) r) as [E|E].
        -- subst r. now rewrite Hlater, S1, Ed.
        -- rewrite S2 by congruence. reflexivity.
      * rewrite H2, S3, <- app_assoc, (rows_of_region_listed _ _ Ed).
        do 2 f_equal. apply rows_of_regions_ext. intros r Hr.
        apply S2. intros E. apply Hnotin. rewrite <- E. now apply in_map.
Qed.

End SubnetsCommand.

(** X17. When the regions have distinct names and the subnets of a region
    distinct ids, [handleSubnets] leaves the account as follows: in every
    listed region whose subnets could be listed, each subnet has its
    [MapPublicIpOnLaunch] negated, unless the call for that subnet failed;
    every other region is untouched.  The table has one row per subnet of
    those regions, in order, showing the value before the change. *)
Theorem X17_subnets_command_negates_each_flag
  (calls : SubnetCalls) (regions : list types.Region)
  (cloud0 : SubnetState) :
  NoDup (map types.RegionName regions) ->
  (forall region, In region regions ->
     NoDup (map Subnet.SubnetId (cloud0 (types.RegionName region)))) ->
  exists result,
    handleSubnets calls (Ok regions) cloud0 = Some result
    /\ (forall r,
           cloud result r
           = if region_listed calls regions r
             then map (toggled calls r) (cloud0 r) else cloud0 r)
    /\ rows result = flat_map (rows_of_region calls cloud0) regions.
Proof.
  intros Hnd Hids. eexists. split; [reflexivity|].
  destruct (@subnet_regions_loop_spec calls regions
              {| rows := []; logged := []; cloud := cloud0 |} Hnd Hids)
    as [H1 H2].
  split; [exact H1 | exact H2].
Qed.

Module SubnetExamples.

Definition private_a : Subnet.t :=
  {| Subnet.VpcId := "vpc-1"; Subnet.SubnetId := "subnet-a";
     Subnet.MapPublicIpOnLaunch := false |}.

Definition public_b : Subnet.t :=
  {| Subnet.VpcId := "vpc-1"; Subnet.SubnetId := "subnet-b";
     Subnet.MapPublicIpOnLaunch := true |}.

(** Two subnets in us-east-1, one in eu-west-1. *)
Definition account : SubnetState :=
  fun regionName =>
    if String.eqb regionName "us-east-1" then [private_a; public_b]
    else if String.eqb regionName "eu-west-1" then [public_b]
    else [].

(** The listing of eu-west-1 fails; every other call succeeds. *)
Definition eu_down : SubnetCalls :=
  {| DescribeSubnetsError :=
       fun regionName =>
         if String.eqb regionName "eu-west-1" then Some "RequestExpired"
         else None;
     ModifySubnetAttributeError := fun _ _ => None |}.

Definition all_up : SubnetCalls :=
  {| DescribeSubnetsError := fun _ => None;
     ModifySubnetAttributeError := fun _ _ => None |}.

Lemma regions_distinct :
  NoDup (map types.RegionName [Examples.us_east_1; Examples.eu_west_1]).
Proof.
  repeat constructor; simpl; intuition discriminate.
Defined.

Lemma subnets_distinct (region : types.Region) :
  In region [Examples.us_east_1; Examples.eu_west_1] ->
  NoDup (map Subnet.SubnetId (account (types.RegionName region))).
Proof.
  intros [<-|[<-|[]]]; repeat constructor; simpl; intuition discriminate.
Defined.

End SubnetExamples.

Lemma X17_witness :
  exists result,
    handleSubnets SubnetExamples.eu_down
      (Ok [Examples.us_east_1; Examples.eu_west_1]) SubnetExamples.account
    = Some result
    /\ cloud result "us-east-1"
       = [set_flag true SubnetExamples.private_a;
          set_flag false SubnetExamples.public_b]
    /\ cloud result "eu-west-1" = [SubnetExamples.public_b]
    /\ rows result
       = [["us-east-1"; "vpc-1"; "subnet-a"; "false"];
          ["us-east-1"; "vpc-1"; "subnet-b"; "true"]].
Proof.
  destruct (@X17_subnets_command_negates_each_flag SubnetExamples.eu_down
              [Examples.us_east_1; Examples.eu_west_1] SubnetExamples.account
              SubnetExamples.regions_distinct SubnetExamples.subnets_distinct)
    as (result & H & Hc & Hr).
  exists result. split; [exact H|]. split; [|split].
  - rewrite Hc. reflexivity.
  - rewrite Hc. reflexivity.
  - rewrite Hr. reflexivity.
Defined.

Lemma toggled_twice (calls : SubnetCalls) (regionName : string)
  (subnet : Subnet.t) :
  (forall subnetId, ModifySubnetAttributeError calls regionName subnetId
                    = None) ->
  toggled calls regionName (toggled calls regionName subnet) = subnet.
Proof.
  intros H. unfold toggled. rewrite !H. destruct subnet as [v i b].
  unfold set_flag. simpl. now rewrite negb_involutive.
Qed.

(** X18. When no call fails (and the regions have distinct names, the
    subnets of a region distinct ids), running the subnets command twice
    leaves every subnet of the account as it was: the second run undoes the
    first. *)
Theorem X18_subnets_command_twice_restores
  (calls : SubnetCalls) (regions : list types.Region)
  (cloud0 : SubnetState) :
  (forall regionName, DescribeSubnetsError calls regionName = None) ->
  (forall regionName subnetId,
      ModifySubnetAttributeError calls regionName subnetId = None) ->
  NoDup (map types.RegionName regions) ->
  (forall region, In region regions ->
     NoDup (map Subnet.SubnetId (cloud0 (types.RegionName region)))) ->
  exists first second,
    handleSubnets calls (Ok regions) cloud0 = Some first
    /\ handleSubnets calls (Ok regions) (cloud first) = Some second
    /\ forall r, cloud second r = cloud0 r.
Proof.
  intros Hd Hm Hnd Hids.
  destruct (@subnet_regions_loop_spec calls regions
              {| rows := []; logged := []; cloud := cloud0 |} Hnd Hids)
    as [H1 _].
  cbn [cloud] in H1.
  set (first := subnet_regions_loop calls regions
                  {| rows := []; logged := []; cloud := cloud0 |}) in *.
  assert (Hids' : forall region, In region regions ->
             NoDup (map Subnet.SubnetId
                      (cloud first (types.RegionName region)))).
  { intros region Hin. rewrite H1.
    destruct (region_listed calls regions (types.RegionName region));
      [|now apply Hids].
    rewrite map_map.
    rewrite (map_ext _ Subnet.SubnetId); [now apply Hids|].
    intros s. apply toggled_id. }
  destruct (@subnet_regions_loop_spec calls regions
              {| rows := []; logged := []; cloud := cloud first |}
              Hnd Hids') as [H2 _].
  cbn [cloud] in H2.
  exists first. eexists. split; [reflexivity|]. split; [reflexivity|].
  intros r. rewrite H2, H1.
  destruct (region_listed calls regions r); auto.
  rewrite map_map. rewrite <- (map_id (cloud0 r)) at 2.
  apply map_ext. intros s. apply toggled_twice. intros; apply Hm.
Qed.

Lemma X18_witness :
  exists first second,
    handleSubnets SubnetExamples.all_up
      (Ok [Examples.us_east_1; Examples.eu_west_1]) SubnetExamples.account
    = Some first
    /\ handleSubnets SubnetExamples.all_up
         (Ok [Examples.us_east_1; Examples.eu_west_1]) (cloud first)
       = Some second
    /\ forall r, cloud second r = SubnetExamples.account r.
Proof.
  apply (@X18_subnets_command_twice_restores SubnetExamples.all_up
           [Examples.us_east_1; Examples.eu_west_1] SubnetExamples.account).
  - reflexivity.
  - reflexivity.
  - exact SubnetExamples.regions_distinct.
  - exact SubnetExamples.subnets_distinct.
Defined.

(** ** export.go and the export command of main.go *)

(** The file system as [ExportToCSV] sees it: whether [os.Create] fails, and
    whether the n-th [writer.Write] fails (the header row is write 0). *)
Record FileSystem := {
  CreateError : string -> option error;
  WriteError : nat -> option error }.

Definition csv_headers : list string :=
  ["Region"; "Name Tag"; "Instance State"; "Instance ID"; "Public IP";
   "VPC ID"; "Subnet ID"; "Cost"].

(** How the export command ends: [log.Fatalf] with a message, or the rows
    handed to the CSV writer and the line printed. *)
Inductive ExportRun :=
| Fatal (message : string)
| Exported (written : list (list string)) (printed : string).

Section CsvExport.

(** [fmt.Sprintf("%.2f", _)]. *)
Variable format_cost : float -> string.

Definition csv_record (instance : EC2InstanceInfo.t) : list string :=
  [EC2InstanceInfo.Region instance; EC2InstanceInfo.NameTag instance;
   EC2InstanceInfo.InstanceState instance;
   EC2InstanceInfo.InstanceID instance; EC2InstanceInfo.PublicIP instance;
   EC2InstanceInfo.VPCID instance; EC2InstanceInfo.SubnetID instance;
   format_cost (EC2InstanceInfo.Cost instance)].

(** The loop over the instances: [n] is the number of writes made so far,
    [written] the rows handed to the writer. *)
Fixpoint write_records (fs : FileSystem) (n : nat)
  (instances : list EC2InstanceInfo.t) (written : list (list string))
  : list (list string) * option error :=
  match instances with
  | [] => (written, None)
  | instance :: rest =>
      match WriteError fs n with
      | Some err => (written, Some ("failed to write record: " ++ err))
      | None =>
          write_records fs (S n) rest (written ++ [csv_record instance])
      end
  end.

(** [ExportToCSV]: the rows handed to the writer and the error returned. *)
Definition ExportToCSV (fs : FileSystem)
  (instances : list EC2InstanceInfo.t) (filename : string)
  : list (list string) * option error :=
  match CreateError fs filename with
  | Some err => ([], Some ("failed to create file: " ++ err))
  | None =>
      match WriteError fs 0 with
      | Some err => ([], Some ("failed to write headers: " ++ err))
      | None => write_records fs 1 instances [csv_headers]
      end
  end.

(** [performExportToCSV], given what [config.LoadDefaultConfig],
    [fetchRegions] and [fetchAllInstances] return. *)
Definition performExportToCSV (loadDefaultConfig : option error)
  (fetchRegions : result (list types.Region))
  (fetchAllInstances :
     list types.Region -> list EC2InstanceInfo.t * option error)
  (fs : FileSystem) : ExportRun :=
  match loadDefaultConfig with
  | Some err => Fatal ("Unable to load AWS config: " ++ err)
  | None =>
      match fetchRegions with
      | Err err => Fatal ("Unable to fetch regions: " ++ err)
      | Ok regions =>
          match fetchAllInstances regions with
          | (_, Some err) => Fatal ("Unable to fetch EC2 instances: " ++ err)
          | (instances, None) =>
              let filename := "ec2_instances.csv" in
              match ExportToCSV fs instances filename with
              | (_, Some err) =>
                  Fatal ("Unable to export instances to CSV: " ++ err)
              | (written, None) =>
                  Exported written
                    ("Successfully exported EC2 instances to " ++ filename
                     ++ String (ascii_of_nat 10) "")
              end
          end
      end
  end.

Lemma write_records_spec (fs : FileSystem) (instances : list EC2InstanceInfo.t)
  (n : nat) (written : list (list string)) :
  exists k,
    (k <= length instances)%nat
    /\ fst (write_records fs n instances written)
       = (written ++ map csv_record (firstn k instances))%list
    /\ (forall i, (i < k)%nat -> WriteError fs (n + i) = None)
    /\ (k = length instances ->
        snd (write_records fs n instances written) = None)
    /\ ((k < length instances)%nat ->
        exists err,
          WriteError fs (n + k) = Some err
          /\ snd (write_records fs n instances written)
             = Some ("failed to write record: " ++ err)).
Proof.
  revert n written. induction instances as [|instance rest IH];
    intros n written; cbn [write_records].
  - exists 0%nat. simpl. rewrite app_nil_r. repeat split; auto; lia.
  - destruct (WriteError fs n) as [err|] eqn:Ew.
    + exists 0%nat. simpl. rewrite app_nil_r, Nat.add_0_r.
      repeat split; auto; try lia; try discriminate.
      intros _. exists err. auto.
    + destruct (IH (S n) (written ++ [csv_record instance])%list)
        as (k & H1 & H2 & H3 & H4 & H5).
      exists (S k). simpl. repeat split.
      * lia.
      * rewrite H2, <- app_assoc. reflexivity.
      * intros [|i] Hi; [now rewrite Nat.add_0_r|].
        replace (n + S i)%nat with (S n + i)%nat by lia. apply H3. lia.
      * intros H. apply H4. lia.
      * intros Hk. replace (n + S k)%nat with (S n + k)%nat by lia.
        apply H5. lia.
Qed.

(** What [ExportToCSV] wrote and returned, in terms of the first failure. *)
Lemma export_outcome (fs : FileSystem) (instances : list EC2InstanceInfo.t)
  (filename : string) :
  let complete := csv_headers :: map csv_record instances in
  let written := fst (ExportToCSV fs instances filename) in
  let failure := snd (ExportToCSV fs instances filename) in
  (exists k, written = firstn k complete)
  /\ (failure = None -> written = complete)
  /\ (failure = None <->
      CreateError fs filename = None
      /\ forall i, (i <= length instances)%nat -> WriteError fs i = None).
Proof.
  intros complete written failure. subst complete written failure.
  unfold ExportToCSV.
  destruct (CreateError fs filename) as [e|] eqn:Ec.
  - simpl. repeat split; try discriminate.
    + exists 0%nat. reflexivity.
    + intros [H _]. discriminate.
  - destruct (WriteError fs 0) as [e|] eqn:E0.
    + simpl. repeat split; try discriminate.
      * exists 0%nat. reflexivity.
      * intros [_ H]. rewrite H in E0 by lia. discriminate.
    + destruct (write_records_spec fs instances 1 [csv_headers])
        as (k & H1 & H2 & H3 & H4 & H5).
      assert (Hnone : snd (write_records fs 1 instances [csv_headers]) = None
                      -> k = length instances).
      { intros H. destruct (Nat.lt_ge_cases k (length instances)) as [Hk|Hk];
          [|lia].
        destruct (H5 Hk) as (err & _ & Hs). congruence. }
      rewrite H2. cbn [app]. repeat split.
      * exists (S k). cbn [firstn]. rewrite firstn_map. reflexivity.
      * intros H. rewrite (Hnone H), firstn_all. reflexivity.
      * intros i Hi. destruct i as [|i]; [exact E0|].
        specialize (Hnone H). subst k. apply (H3 i). lia.
      * intros [_ H]. apply H4.
        destruct (Nat.lt_ge_cases k (length instances)) as [Hk|Hk]; [|lia].
        destruct (H5 Hk) as (err & Hw & _).
        rewrite H in Hw by (simpl; lia). discriminate.
Qed.

End CsvExport.

(** X19. [ExportToCSV] hands the writer the header row and then one record
    per instance, in order, each of eight fields like the header, and stops
    at the first write that fails: what was written is always an initial
    part of header-then-records.  It returns no error exactly when the file
    could be created and none of its writes failed, and then everything was
    written. *)
Theorem X19_export_writes_a_prefix
  (format_cost : float -> string) (fs : FileSystem)
  (instances : list EC2InstanceInfo.t) (filename : string) :
  let complete := csv_headers :: map (csv_record format_cost) instances in
  let written := fst (ExportToCSV format_cost fs instances filename) in
  let failure := snd (ExportToCSV format_cost fs instances filename) in
  (exists k, written = firstn k complete)
  /\ Forall (fun row => length row = 8%nat) written
  /\ (failure = None -> written = complete)
  /\ (failure = None <->
      CreateError fs filename = None
      /\ forall i, (i <= length instances)%nat -> WriteError fs i = None).
Proof.
  intros complete written failure.
  destruct (export_outcome format_cost fs instances filename)
    as ([k Hk] & Hall & Hiff).
  fold written in Hk. fold complete in Hk.
  split; [exists k; exact Hk|]. split; [|split; [exact Hall|exact Hiff]].
  rewrite Hk. apply Forall_forall. intros row Hr.
  assert (Hin : In row complete).
  { rewrite <- (firstn_skipn k complete). apply in_or_app. left. exact Hr. }
  destruct Hin as [<-|Hin]; [reflexivity|].
  apply in_map_iff in Hin. destruct Hin as (i & <- & _). reflexivity.
Qed.

(** X20. The export command, once the configuration and the region list are
    there, never stops for a region whose instances could not be listed:
    under every schedule the collector returns, and the command either
    writes the header and one record for each instance of the regions that
    answered, or stops with the export's own failure, which happens exactly
    when the file cannot be created or one of the writes fails. *)
Theorem X20_export_ignores_failed_regions
  (format_cost : float -> string) (p : Provider)
  (regions : list types.Region) (fs : FileSystem) :
  always_returns instances_discipline (instances_workers p regions)
    (fun res =>
       match performExportToCSV format_cost None (Ok regions)
               (fun _ => res) fs with
       | Exported written _ =>
           (exists records,
              Permutation records (instances_of_regions p regions)
              /\ written = csv_headers :: map (csv_record format_cost) records)
           /\ CreateError fs "ec2_instances.csv" = None
           /\ forall i,
                (i <= length (instances_of_regions p regions))%nat ->
                WriteError fs i = None
       | Fatal message =>
           (exists err,
              message = "Unable to export instances to CSV: " ++ err)
           /\ (CreateError fs "ec2_instances.csv" <> None
               \/ exists i,
                    (i <= length (instances_of_regions p regions))%nat
                    /\ WriteError fs i <> None)
       end).
Proof.
  eapply always_returns_weaken; [|apply instances_collector].
  intros [l e] [Hl He]. simpl in Hl, He. subst e.
  unfold performExportToCSV.
  destruct (export_outcome format_cost fs l "ec2_instances.csv")
    as (_ & Hall & Hiff).
  destruct (ExportToCSV format_cost fs l "ec2_instances.csv")
    as [written [err|]] eqn:E; simpl in Hall, Hiff.
  - split; [eauto|].
    destruct (CreateError fs "ec2_instances.csv") as [c|] eqn:Ec;
      [left; discriminate|right].
    rewrite <- (Permutation_length Hl).
    assert (Hn : ~ forall i, (i <= length l)%nat -> WriteError fs i = None).
    { intros H. destruct Hiff as [_ Hiff].
      specialize (Hiff (conj eq_refl H)). discriminate. }
    clear - Hn. revert Hn. generalize (length l). intros n.
    induction n as [|n IH]; intros Hn.
    + exists 0%nat. split; [lia|]. intros H0. apply Hn.
      intros i Hi. replace i with 0%nat by lia. exact H0.
    + destruct (WriteError fs (S n)) as [w|] eqn:Ew.
      * exists (S n). split; [lia|]. congruence.
      * destruct IH as (i & Hi & Hw).
        -- intros H. apply Hn. intros i Hi.
           destruct (Nat.eq_dec i (S n)) as [->|Hne]; [exact Ew|].
           apply H. lia.
        -- exists i. split; [lia|exact Hw].
  - destruct Hiff as [Hiff _]. destruct (Hiff eq_refl) as [Hc Hw].
    split; [|split; [exact Hc|]].
    + exists l. split; [exact Hl|]. apply Hall. reflexivity.
    + rewrite <- (Permutation_length Hl). exact Hw.
Qed.

(** ** lb.go: the identifier taken from the ARN *)

(** [sep] occurs somewhere in [s]. *)
Fixpoint contains (sep s : string) : bool :=
  String.prefix sep s
  || match s with
     | EmptyString => false
     | String _ s' => contains sep s'
     end.

(** No occurrence of [sep] in [s] begins at one of the first [n] positions. *)
Fixpoint no_occurrence_before (sep : string) (n : nat) (s : string) : bool :=
  match n with
  | O => true
  | S n' =>
      negb (String.prefix sep s)
      && match s with
         | EmptyString => true
         | String _ s' => no_occurrence_before sep n' s'
         end
  end.

Lemma prefix_app (sep tail : string) : String.prefix sep (sep ++ tail) = true.
Proof.
  induction sep as [|c sep IH]; simpl.
  - destruct tail; reflexivity.
  - destruct (ascii_dec c c) as [_|H]; [exact IH|congruence].
Qed.

Lemma split_no_occurrence (sep s cur : string) :
  contains sep s = false -> split_from sep 0 cur s = [cur ++ s].
Proof.
  revert cur. induction s as [|c s IH]; intros cur H.
  - simpl. rewrite string_app_nil_r. reflexivity.
  - cbn [contains] in H. apply orb_false_iff in H. destruct H as [Hp Hc].
    cbn [split_from]. rewrite Hp, (IH _ Hc), string_app_assoc. reflexivity.
Qed.

Lemma split_passes_head (sep head rest cur : string) :
  no_occurrence_before sep (String.length head) (head ++ rest) = true ->
  split_from sep 0 cur (head ++ rest) = split_from sep 0 (cur ++ head) rest.
Proof.
  revert cur. induction head as [|c head IH]; intros cur H.
  - simpl. rewrite string_app_nil_r. reflexivity.
  - cbn [String.length no_occurrence_before] in H.
    apply andb_true_iff in H. destruct H as [Hp Hn].
    apply negb_true_iff in Hp. cbn [append] in Hn, Hp |- *.
    cbn [split_from]. rewrite Hp, (IH _ Hn), string_app_assoc. reflexivity.
Qed.

Lemma split_skips (sep passed rest cur : string) :
  split_from sep (String.length passed) cur (passed ++ rest)
  = split_from sep 0 cur rest.
Proof.
  induction passed as [|c passed IH]; [reflexivity|exact IH].
Qed.

Lemma split_at_separator (c : ascii) (sep' tail cur : string) :
  split_from (String c sep') 0 cur (String c sep' ++ tail)
  = cur :: split_from (String c sep') 0 "" tail.
Proof.
  cbn [append split_from].
  change (String c (sep' ++ tail)) with (String c sep' ++ tail).
  rewrite prefix_app. cbn [String.length].
  replace (S (String.length sep') - 1)%nat with (String.length sep') by lia.
  rewrite split_skips. reflexivity.
Qed.

(** The two parts of a string in which the separator occurs once. *)
Lemma split_once (c : ascii) (sep' head tail : string) :
  let sep := String c sep' in
  no_occurrence_before sep (String.length head) (head ++ sep ++ tail) = true ->
  contains sep tail = false ->
  Split (head ++ sep ++ tail) sep = [head; tail].
Proof.
  intros sep Hh Ht. unfold Split.
  rewrite (@split_passes_head _ _ _ _ Hh). cbn [append].
  unfold sep. rewrite split_at_separator.
  rewrite (@split_no_occurrence _ _ _ Ht). reflexivity.
Qed.

(** X21. For an application or network load balancer whose ARN has
    "loadbalancer/" once, the identifier is what follows it, and the traffic
    of the record is what the metrics query returns for that text as the
    LoadBalancer dimension. *)
Theorem X21_identifier_follows_loadbalancer
  (p : Provider) (regionName : string) (lb : elbv2types.LoadBalancer)
  (head tail : string) :
  elbv2types.Type_ lb = elbv2types.LoadBalancerTypeEnumApplication
  \/ elbv2types.Type_ lb = elbv2types.LoadBalancerTypeEnumNetwork ->
  elbv2types.LoadBalancerArn lb = head ++ "loadbalancer/" ++ tail ->
  no_occurrence_before "loadbalancer/" (String.length head)
    (elbv2types.LoadBalancerArn lb) = true ->
  contains "loadbalancer/" tail = false ->
  lb_identifier lb = tail
  /\ LoadBalancerInfo.TrafficLastWeek (lb_info p regionName lb)
     = fetchProcessedBytes p tail (elbv2types.Type_ lb).
Proof.
  intros Ht Harn Hh Htail.
  assert (Hid : lb_identifier lb = tail).
  { unfold lb_identifier. rewrite Harn in Hh |- *.
    rewrite (@split_once _ _ _ _ Hh Htail).
    destruct Ht as [-> | ->]; reflexivity. }
  split; [exact Hid|]. simpl. rewrite Hid. reflexivity.
Qed.

Lemma X21_witness :
  lb_identifier Examples.alb = "app/front/50dc"
  /\ LoadBalancerInfo.TrafficLastWeek
       (lb_info Examples.lbs_one_region_down "us-east-1" Examples.alb)
     = fetchProcessedBytes Examples.lbs_one_region_down "app/front/50dc"
         "application".
Proof.
  apply (@X21_identifier_follows_loadbalancer Examples.lbs_one_region_down
           "us-east-1" Examples.alb
           "arn:aws:elasticloadbalancing:us-east-1:1:" "app/front/50dc").
  - left. reflexivity.
  - reflexivity.
  - reflexivity.
  - reflexivity.
Defined.

(** X22. The whole ARN is the identifier of a load balancer that is neither
    an application nor a network one, and of one whose ARN has no
    "loadbalancer/". *)
Theorem X22_identifier_is_the_arn_otherwise (lb : elbv2types.LoadBalancer) :
  (elbv2types.Type_ lb <> elbv2types.LoadBalancerTypeEnumApplication
   /\ elbv2types.Type_ lb <> elbv2types.LoadBalancerTypeEnumNetwork)
  \/ contains "loadbalancer/" (elbv2types.LoadBalancerArn lb) = false ->
  lb_identifier lb = elbv2types.LoadBalancerArn lb.
Proof.
  intros H. unfold lb_identifier.
  destruct H as [[Ha Hn]|Hc].
  - apply String.eqb_neq in Ha, Hn. rewrite Ha, Hn. reflexivity.
  - unfold Split. rewrite (@split_no_occurrence _ _ _ Hc).
    destruct (_ || _); reflexivity.
Qed.

Lemma X22_witness :
  lb_identifier
    {| elbv2types.DNSName := "gw.elb.amazonaws.com";
       elbv2types.LoadBalancerArn :=
         "arn:aws:elasticloadbalancing:us-east-1:1:loadbalancer/gwy/g/1";
       elbv2types.Type_ := "gateway" |}
  = "arn:aws:elasticloadbalancing:us-east-1:1:loadbalancer/gwy/g/1".
Proof.
  apply X22_identifier_is_the_arn_otherwise.
  left. split; discriminate.
Defined.
